(** * useUnifiedVoiceAgent: the voice-session hook as an event-driven machine

    A shallow embedding of the hook [useUnifiedVoiceAgent], which opens,
    watches and closes a LiveKit voice session and keeps its transcript, and
    of the properties its specification states about it.

    How the hook is modelled.

    - The [useState] cells, the [useRef] cells and the part of the browser the
      hook touches (the audio elements of the document, the pending
      [setTimeout] callbacks, the clock) are the fields of one record, [Hook].
    - A state setter writes its cell at once, and the functional updates
      ([prev => ...]) read the cell.  The constants [inferenceState],
      [isMicOn] and [transcription] that [startInference], [toggleMic] and
      [saveTranscription] close over are those of the latest render
      ([lastRender]): they follow the cells when React renders again, which
      is the event [renders], and not before.  The caller is taken to hold
      the callbacks of the latest render.
    - Every call that leaves the hook (REST calls, transport commands, toasts,
      console output, DOM edits) is recorded in a trace of [Effect]s.
    - An [async] function is cut at its [await]s.  Each piece runs without
      interruption, as on the JavaScript event loop, and ends by returning,
      by throwing, or by awaiting a promise; the settlement of that promise is
      an [Event] of its own, which runs the next piece.  Other events may be
      delivered in between: [run] takes any list of events.  [stopInference_whole]
      and [startInference_whole] follow one call through its pieces with
      nothing in between.
    - What lies outside the source is an input: how a promise settles, what a
      room emits, what [track.attach()] returns, how the browser prints a
      time ([Platform]).  [track.detach()] takes the stream off the elements
      that play the track and leaves them in the document.
    - Counters are JavaScript numbers; they are natural numbers here, exact as
      long as they stay below 2^53.
    - Console messages are kept without their pictograms and without the
      values printed after them.

    The file has the model first, then the vocabulary of the properties and
    the data of a sample session, then the lemmas and theorems. *)

From Stdlib Require Import List String Ascii Bool Arith Lia DecimalString DecimalNat.
From Stdlib Require Import NArith Permutation Sorted.
Import ListNotations.
Open Scope string_scope.
Open Scope list_scope.

(** ** JavaScript values the hook passes around *)

(** What a [throw] or a rejected promise carries: an [Error] with its message,
    or any other value. *)
Inductive Thrown : Type :=
| JsError (message : string)
| JsOther (description : string).

(** The settlement of a promise (or the result of a call that may throw). *)
Inductive Outcome (A : Type) : Type :=
| Resolved (value : A)
| Rejected (reason : Thrown).
Arguments Resolved {A} value.
Arguments Rejected {A} reason.

(** Truthiness of a string: only the empty string is falsy. *)
Definition truthy (s : string) : bool := negb (s =? "").

(** [a || b] on an optional string argument and a string. *)
Definition or_else (a : option string) (b : string) : string :=
  match a with
  | Some s => if truthy s then s else b
  | None => b
  end.

(** The decimal rendering of a counter inside a template string. *)
Definition decimal (n : nat) : string := NilZero.string_of_uint (Nat.to_uint n).

(** ** Data model *)

Inductive INFERENCE_STATES : Type := IDLE | CONNECTING | ACTIVE | ERROR.

Definition INFERENCE_STATES_eqb (a b : INFERENCE_STATES) : bool :=
  match a, b with
  | IDLE, IDLE | CONNECTING, CONNECTING | ACTIVE, ACTIVE | ERROR, ERROR => true
  | _, _ => false
  end.

Inductive Speaker : Type := user | agent.

Definition Speaker_to_string (s : Speaker) : string :=
  match s with user => "user" | agent => "agent" end.

Record TranscriptionEntry : Type := {
  id : string;
  text : string;
  speaker : Speaker;
  timestamp : nat;             (* a Date, as milliseconds on the clock *)
  isFinal : bool;
  confidence : option nat;     (* copied from the segment, never inspected *)
  source : option string;
  participantId : option string;
  trackId : option string
}.

Record UnifiedVoiceAgentConfig : Type := {
  agentId : string;
  usePublicEndpoint : option bool
}.

Record VoiceSession : Type := {
  sessionId : string;
  roomName : string;
  token : string;
  url : string;
  participantIdentity : string;
  status : string
}.

(** A [Room] object, named by the order of its construction. *)
Definition Room : Type := nat.

(** A local audio track; [stop] is what its [stop()] method does when called. *)
Record LocalAudioTrack : Type := {
  track_sid : string;
  mediaStreamTrack : bool;     (* whether it holds a media stream track *)
  stop : Outcome unit
}.

(** An [<audio>] element of the document. *)
Record HTMLAudioElement : Type := {
  element : nat;
  srcObject : option string    (* the media stream it plays, if any *)
}.

(** ** Calls that leave the hook *)

Inductive Effect : Type :=
| console_log (message : string)
| console_error (message : string)
| toast_error (message : string)
| toast_success (message : string)
| publicAgentAPI_getAgent (agentId : string)
| publicAgentAPI_createLiveKitSession (agentId : string)
| agentAPI_createLiveKitSession (parseInt_of : string)  (* called with parseInt of it *)
| room_connect (room : Room) (url token : string)
| room_disconnect (room : Room)
| setMicrophoneEnabled (room : Room) (enabled : bool)
| track_stop (track : LocalAudioTrack)
| track_detach (track_sid : string)
| fetch_session_end (session_id : string) (bearer : bool)
| audio_remove (audio : HTMLAudioElement)
| download (filename content : string).

(** What a piece of an [async] function ends with. *)
Inductive Pending : Type :=
| await_getAgent (effectiveAgentId : string)
| await_createLiveKitSession
| await_connect
| await_setMicrophoneEnabled (room : Room)
| await_fetch
| await_disconnect
| await_toggle (enabled : bool).

Inductive Completion : Type :=
| Returns
| Throws (reason : Thrown)
| Awaits (promise : Pending).

(** ** The state of the hook *)

(** What the callbacks built by a render close over: the values that the
    [useState] calls returned in that render. *)
Record Render : Type := {
  rendered_inferenceState : INFERENCE_STATES;
  rendered_isMicOn : bool;
  rendered_transcription : list TranscriptionEntry
}.

Record Hook : Type := mkHook {
  (* useState *)
  inferenceState : INFERENCE_STATES;
  isLoading : bool;
  isMicOn : bool;
  isConnected : bool;
  isUserSpeaking : bool;
  isTranscribing : bool;
  transcription : list TranscriptionEntry;
  transcriptionUpdateTrigger : nat;
  (* useRef *)
  roomRef : option Room;
  sessionRef : option VoiceSession;
  audioTrackRef : option LocalAudioTrack;
  transcriptionIdCounter : nat;
  (* the browser *)
  audioElements : list HTMLAudioElement;  (* document.querySelectorAll('audio') *)
  timers : list nat;                      (* due times of the pending timeouts *)
  clock : nat;                            (* milliseconds *)
  rooms : nat;                            (* Room objects constructed so far *)
  mutedListeners : list string;           (* tracks with a 'muted' listener *)
  (* React *)
  lastRender : Render                     (* what the latest render saw *)
}.

Definition initial : Hook :=
  {| inferenceState := IDLE; isLoading := false; isMicOn := false;
     isConnected := false; isUserSpeaking := false; isTranscribing := false;
     transcription := []; transcriptionUpdateTrigger := 0;
     roomRef := None; sessionRef := None; audioTrackRef := None;
     transcriptionIdCounter := 0;
     audioElements := []; timers := []; clock := 0; rooms := 0;
     mutedListeners := [];
     lastRender := {| rendered_inferenceState := IDLE; rendered_isMicOn := false;
                      rendered_transcription := [] |} |}.

Definition set_inferenceState v (h : Hook) : Hook :=
  mkHook v h.(isLoading) h.(isMicOn) h.(isConnected) h.(isUserSpeaking)
    h.(isTranscribing) h.(transcription) h.(transcriptionUpdateTrigger)
    h.(roomRef) h.(sessionRef) h.(audioTrackRef) h.(transcriptionIdCounter)
    h.(audioElements) h.(timers) h.(clock) h.(rooms) h.(mutedListeners)
    h.(lastRender).

Definition set_isLoading v (h : Hook) : Hook :=
  mkHook h.(inferenceState) v h.(isMicOn) h.(isConnected) h.(isUserSpeaking)
    h.(isTranscribing) h.(transcription) h.(transcriptionUpdateTrigger)
    h.(roomRef) h.(sessionRef) h.(audioTrackRef) h.(transcriptionIdCounter)
    h.(audioElements) h.(timers) h.(clock) h.(rooms) h.(mutedListeners)
    h.(lastRender).

Definition set_isMicOn v (h : Hook) : Hook :=
  mkHook h.(inferenceState) h.(isLoading) v h.(isConnected) h.(isUserSpeaking)
    h.(isTranscribing) h.(transcription) h.(transcriptionUpdateTrigger)
    h.(roomRef) h.(sessionRef) h.(audioTrackRef) h.(transcriptionIdCounter)
    h.(audioElements) h.(timers) h.(clock) h.(rooms) h.(mutedListeners)
    h.(lastRender).

Definition set_isConnected v (h : Hook) : Hook :=
  mkHook h.(inferenceState) h.(isLoading) h.(isMicOn) v h.(isUserSpeaking)
    h.(isTranscribing) h.(transcription) h.(transcriptionUpdateTrigger)
    h.(roomRef) h.(sessionRef) h.(audioTrackRef) h.(transcriptionIdCounter)
    h.(audioElements) h.(timers) h.(clock) h.(rooms) h.(mutedListeners)
    h.(lastRender).

Definition set_isUserSpeaking v (h : Hook) : Hook :=
  mkHook h.(inferenceState) h.(isLoading) h.(isMicOn) h.(isConnected) v
    h.(isTranscribing) h.(transcription) h.(transcriptionUpdateTrigger)
    h.(roomRef) h.(sessionRef) h.(audioTrackRef) h.(transcriptionIdCounter)
    h.(audioElements) h.(timers) h.(clock) h.(rooms) h.(mutedListeners)
    h.(lastRender).

Definition set_isTranscribing v (h : Hook) : Hook :=
  mkHook h.(inferenceState) h.(isLoading) h.(isMicOn) h.(isConnected)
    h.(isUserSpeaking) v h.(transcription) h.(transcriptionUpdateTrigger)
    h.(roomRef) h.(sessionRef) h.(audioTrackRef) h.(transcriptionIdCounter)
    h.(audioElements) h.(timers) h.(clock) h.(rooms) h.(mutedListeners)
    h.(lastRender).

Definition set_transcription v (h : Hook) : Hook :=
  mkHook h.(inferenceState) h.(isLoading) h.(isMicOn) h.(isConnected)
    h.(isUserSpeaking) h.(isTranscribing) v h.(transcriptionUpdateTrigger)
    h.(roomRef) h.(sessionRef) h.(audioTrackRef) h.(transcriptionIdCounter)
    h.(audioElements) h.(timers) h.(clock) h.(rooms) h.(mutedListeners)
    h.(lastRender).

Definition set_transcriptionUpdateTrigger v (h : Hook) : Hook :=
  mkHook h.(inferenceState) h.(isLoading) h.(isMicOn) h.(isConnected)
    h.(isUserSpeaking) h.(isTranscribing) h.(transcription) v
    h.(roomRef) h.(sessionRef) h.(audioTrackRef) h.(transcriptionIdCounter)
    h.(audioElements) h.(timers) h.(clock) h.(rooms) h.(mutedListeners)
    h.(lastRender).

Definition set_roomRef v (h : Hook) : Hook :=
  mkHook h.(inferenceState) h.(isLoading) h.(isMicOn) h.(isConnected)
    h.(isUserSpeaking) h.(isTranscribing) h.(transcription)
    h.(transcriptionUpdateTrigger)
    v h.(sessionRef) h.(audioTrackRef) h.(transcriptionIdCounter)
    h.(audioElements) h.(timers) h.(clock) h.(rooms) h.(mutedListeners)
    h.(lastRender).

Definition set_sessionRef v (h : Hook) : Hook :=
  mkHook h.(inferenceState) h.(isLoading) h.(isMicOn) h.(isConnected)
    h.(isUserSpeaking) h.(isTranscribing) h.(transcription)
    h.(transcriptionUpdateTrigger)
    h.(roomRef) v h.(audioTrackRef) h.(transcriptionIdCounter)
    h.(audioElements) h.(timers) h.(clock) h.(rooms) h.(mutedListeners)
    h.(lastRender).

Definition set_audioTrackRef v (h : Hook) : Hook :=
  mkHook h.(inferenceState) h.(isLoading) h.(isMicOn) h.(isConnected)
    h.(isUserSpeaking) h.(isTranscribing) h.(transcription)
    h.(transcriptionUpdateTrigger)
    h.(roomRef) h.(sessionRef) v h.(transcriptionIdCounter)
    h.(audioElements) h.(timers) h.(clock) h.(rooms) h.(mutedListeners)
    h.(lastRender).

Definition set_transcriptionIdCounter v (h : Hook) : Hook :=
  mkHook h.(inferenceState) h.(isLoading) h.(isMicOn) h.(isConnected)
    h.(isUserSpeaking) h.(isTranscribing) h.(transcription)
    h.(transcriptionUpdateTrigger)
    h.(roomRef) h.(sessionRef) h.(audioTrackRef) v
    h.(audioElements) h.(timers) h.(clock) h.(rooms) h.(mutedListeners)
    h.(lastRender).

Definition set_audioElements v (h : Hook) : Hook :=
  mkHook h.(inferenceState) h.(isLoading) h.(isMicOn) h.(isConnected)
    h.(isUserSpeaking) h.(isTranscribing) h.(transcription)
    h.(transcriptionUpdateTrigger)
    h.(roomRef) h.(sessionRef) h.(audioTrackRef) h.(transcriptionIdCounter)
    v h.(timers) h.(clock) h.(rooms) h.(mutedListeners)
    h.(lastRender).

Definition set_timers v (h : Hook) : Hook :=
  mkHook h.(inferenceState) h.(isLoading) h.(isMicOn) h.(isConnected)
    h.(isUserSpeaking) h.(isTranscribing) h.(transcription)
    h.(transcriptionUpdateTrigger)
    h.(roomRef) h.(sessionRef) h.(audioTrackRef) h.(transcriptionIdCounter)
    h.(audioElements) v h.(clock) h.(rooms) h.(mutedListeners)
    h.(lastRender).

Definition set_clock v (h : Hook) : Hook :=
  mkHook h.(inferenceState) h.(isLoading) h.(isMicOn) h.(isConnected)
    h.(isUserSpeaking) h.(isTranscribing) h.(transcription)
    h.(transcriptionUpdateTrigger)
    h.(roomRef) h.(sessionRef) h.(audioTrackRef) h.(transcriptionIdCounter)
    h.(audioElements) h.(timers) v h.(rooms) h.(mutedListeners)
    h.(lastRender).

Definition set_rooms v (h : Hook) : Hook :=
  mkHook h.(inferenceState) h.(isLoading) h.(isMicOn) h.(isConnected)
    h.(isUserSpeaking) h.(isTranscribing) h.(transcription)
    h.(transcriptionUpdateTrigger)
    h.(roomRef) h.(sessionRef) h.(audioTrackRef) h.(transcriptionIdCounter)
    h.(audioElements) h.(timers) h.(clock) v h.(mutedListeners)
    h.(lastRender).

Definition set_mutedListeners v (h : Hook) : Hook :=
  mkHook h.(inferenceState) h.(isLoading) h.(isMicOn) h.(isConnected)
    h.(isUserSpeaking) h.(isTranscribing) h.(transcription)
    h.(transcriptionUpdateTrigger)
    h.(roomRef) h.(sessionRef) h.(audioTrackRef) h.(transcriptionIdCounter)
    h.(audioElements) h.(timers) h.(clock) h.(rooms) v h.(lastRender).

Definition set_lastRender v (h : Hook) : Hook :=
  mkHook h.(inferenceState) h.(isLoading) h.(isMicOn) h.(isConnected)
    h.(isUserSpeaking) h.(isTranscribing) h.(transcription)
    h.(transcriptionUpdateTrigger)
    h.(roomRef) h.(sessionRef) h.(audioTrackRef) h.(transcriptionIdCounter)
    h.(audioElements) h.(timers) h.(clock) h.(rooms) h.(mutedListeners) v.

(** React renders the component again: the callbacks are rebuilt over the
    values the state cells hold now. *)
Definition render (h : Hook) : Hook :=
  set_lastRender
    {| rendered_inferenceState := h.(inferenceState);
       rendered_isMicOn := h.(isMicOn);
       rendered_transcription := h.(transcription) |} h.


(** ** A state-and-trace monad for the pieces of the hook *)

Definition Act (A : Type) : Type := Hook -> A * Hook * list Effect.

Definition ret {A} (a : A) : Act A := fun h => (a, h, []).

Definition bind {A B} (m : Act A) (k : A -> Act B) : Act B :=
  fun h =>
    let '(a, h1, t1) := m h in
    let '(b, h2, t2) := k a h1 in
    (b, h2, t1 ++ t2).

Declare Scope act_scope.
Delimit Scope act_scope with act.
Notation "x <- m ;; k" := (bind m (fun x => k))
  (at level 61, m at next level, right associativity) : act_scope.
Notation "m ;; k" := (bind m (fun _ => k))
  (at level 61, right associativity) : act_scope.
Open Scope act_scope.

Definition read {A} (f : Hook -> A) : Act A := fun h => (f h, h, []).
Definition write (f : Hook -> Hook) : Act unit := fun h => (tt, f h, []).
Definition emit (e : Effect) : Act unit := fun h => (tt, h, [e]).

Definition result {A} (r : A * Hook * list Effect) : A := fst (fst r).
Definition after {A} (r : A * Hook * list Effect) : Hook := snd (fst r).
Definition trace {A} (r : A * Hook * list Effect) : list Effect := snd r.

(** The setters returned by [useState]. *)
Definition setInferenceState v : Act unit := write (set_inferenceState v).
Definition setIsLoading v : Act unit := write (set_isLoading v).
Definition setIsMicOn v : Act unit := write (set_isMicOn v).
Definition setIsConnected v : Act unit := write (set_isConnected v).
Definition setIsUserSpeaking v : Act unit := write (set_isUserSpeaking v).
Definition setIsTranscribing v : Act unit := write (set_isTranscribing v).
Definition setTranscription (f : list TranscriptionEntry -> list TranscriptionEntry)
  : Act unit :=
  write (fun h => set_transcription (f h.(transcription)) h).
Definition setTranscriptionUpdateTrigger (f : nat -> nat) : Act unit :=
  write (fun h => set_transcriptionUpdateTrigger (f h.(transcriptionUpdateTrigger)) h).

Fixpoint forEach {A} (l : list A) (f : A -> Act unit) : Act unit :=
  match l with
  | [] => ret tt
  | x :: l' => f x ;; forEach l' f
  end.

(** ** What the transport and the browser hand to the hook *)

Module Participant.
Record t : Type := { identity : string }.
End Participant.

Inductive TrackKind : Type := Audio | Video.

Definition TrackKind_eqb (a b : TrackKind) : bool :=
  match a, b with
  | Audio, Audio | Video, Video => true
  | _, _ => false
  end.

Module Publication.
Record t : Type := {
  trackName : string;
  trackSid : string;
  kind : TrackKind;
  track : option LocalAudioTrack
}.
End Publication.

Module RemoteTrack.
Record t : Type := {
  sid : string;
  kind : TrackKind;
  attach : HTMLAudioElement    (* the element a call of attach() returns *)
}.
End RemoteTrack.

Module Segment.
Record t : Type := {
  text : string;
  final : bool;
  confidence : option nat
}.
End Segment.

Inductive RoomEvent : Type :=
| Connected
| Disconnected
| ParticipantConnected (participant : Participant.t)
| AudioPlaybackStatusChanged
| ActiveSpeakersChanged (speakers : list Participant.t)
| TrackPublished (publication : Publication.t) (participant : Participant.t)
| TrackUnpublished (publication : Publication.t) (participant : Participant.t)
| TrackSubscribed (track : RemoteTrack.t)
| TrackUnsubscribed (track : RemoteTrack.t)
| TranscriptionReceived (segments : list Segment.t)
    (participant : option Participant.t) (publication : option Publication.t).

(** Everything that can happen to the hook.  [room_emits room me e] is event
    [e] of [room], whose [localParticipant.identity] is [me] at that time. *)
Inductive Event : Type :=
| call_startInference (targetAgentId : option string)
| settle_getAgent (effectiveAgentId : string) (o : Outcome unit)
| settle_createLiveKitSession (o : Outcome VoiceSession)
| settle_connect (o : Outcome unit)
| room_emits (room : Room) (me : string) (e : RoomEvent)
| settle_setMicrophoneEnabled (room : Room) (o : Outcome (list Publication.t))
| track_emits_muted (sid : string)
| track_emits_unmuted (sid : string)
| call_stopInference
| settle_fetch (o : Outcome unit)
| settle_disconnect (o : Outcome unit)
| call_toggleMic
| settle_toggle (enabled : bool) (o : Outcome unit)
| call_saveTranscription (dom : Outcome unit)
| call_clearTranscription
| time_passes (ms : nat)
| renders.

(** The parts of the JavaScript runtime whose output depends on the locale and
    the time zone of the browser. *)
Record Platform : Type := {
  toLocaleTimeString : nat -> string;
  toISOString : nat -> string
}.

Definition newline : string := String (ascii_of_nat 10) EmptyString.

Definition HTMLAudioElement_eqb (a b : HTMLAudioElement) : bool :=
  (a.(element) =? b.(element))%nat &&
  match a.(srcObject), b.(srcObject) with
  | Some x, Some y => (x =? y)%string
  | None, None => true
  | _, _ => false
  end.

Definition has_srcObject (a : HTMLAudioElement) : bool :=
  match a.(srcObject) with Some _ => true | None => false end.

(** [document.body.appendChild(el)]: a node is in the document once, last. *)
Definition appendChild (el : HTMLAudioElement) : Act unit :=
  write (fun h =>
    set_audioElements
      (filter (fun a => negb (HTMLAudioElement_eqb a el)) h.(audioElements) ++ [el]) h).

(** [audio.remove()]. *)
Definition remove (audio : HTMLAudioElement) : Act unit :=
  emit (audio_remove audio) ;;
  write (fun h =>
    set_audioElements
      (filter (fun a => negb (HTMLAudioElement_eqb a audio)) h.(audioElements)) h).

(** [setTimeout(reset, ms)]; every timeout of the hook runs the same callback. *)
Definition setTimeout (ms : nat) : Act unit :=
  write (fun h => set_timers (h.(timers) ++ [h.(clock) + ms]) h).

(** [new Room()]. *)
Definition new_Room : Act Room :=
  r <- read rooms ;;
  write (set_rooms (S r)) ;;
  ret r.

(** ** The hook *)

Section useUnifiedVoiceAgent.

Variable hookConfig : UnifiedVoiceAgentConfig.
Variable platform : Platform.

(** [usePublicEndpoint = false] in the destructuring of the configuration. *)
Definition publicEndpoint : bool :=
  match hookConfig.(usePublicEndpoint) with Some b => b | None => false end.

(** *** startInference *)

(** The [catch] block of [startInference]. *)
Definition startInference_catch (error : Thrown) : Act Completion :=
  emit (console_error "Error starting unified voice session:") ;;
  setInferenceState ERROR ;;
  setIsLoading false ;;
  emit (toast_error
          match error with
          | JsError message => message
          | JsOther _ => "Failed to start voice session"
          end) ;;
  ret Returns.

(** From the call to the first [await].  The [inferenceState] of the guard is
    the constant of the render that built the callback (the dependency list
    names it), not the cell that [setInferenceState] writes. *)
Definition startInference (targetAgentId : option string) : Act Completion :=
  let effectiveAgentId := or_else targetAgentId hookConfig.(agentId) in
  if negb (truthy effectiveAgentId) then
    emit (toast_error "Agent ID is required") ;;
    ret Returns
  else
    st <- read (fun h => h.(lastRender).(rendered_inferenceState)) ;;
    if negb (INFERENCE_STATES_eqb st IDLE) then
      emit (console_log "Inference already active or connecting") ;;
      ret Returns
    else
      setIsLoading true ;;
      setInferenceState CONNECTING ;;
      emit (console_log "Starting unified LiveKit session for agent:") ;;
      emit (publicAgentAPI_getAgent effectiveAgentId) ;;
      ret (Awaits (await_getAgent effectiveAgentId)).

(** After [await publicAgentAPI.getAgent(effectiveAgentId)]. *)
Definition startInference_getAgent (effectiveAgentId : string) (o : Outcome unit)
  : Act Completion :=
  match o with
  | Rejected error => startInference_catch error
  | Resolved _ =>
      emit (console_log "Agent data retrieved:") ;;
      (if publicEndpoint
       then emit (publicAgentAPI_createLiveKitSession effectiveAgentId)
       else emit (agentAPI_createLiveKitSession effectiveAgentId)) ;;
      ret (Awaits await_createLiveKitSession)
  end.

(** After [await ...createLiveKitSession(...)]: the descriptor is stored, the
    room is built, its listeners are registered, and the connect is issued. *)
Definition startInference_createLiveKitSession (o : Outcome VoiceSession)
  : Act Completion :=
  match o with
  | Rejected error => startInference_catch error
  | Resolved sessionData =>
      emit (console_log "Unified LiveKit session created:") ;;
      write (set_sessionRef (Some sessionData)) ;;
      room <- new_Room ;;
      write (set_roomRef (Some room)) ;;
      emit (room_connect room sessionData.(url) sessionData.(token)) ;;
      ret (Awaits await_connect)
  end.

(** After [await room.connect(sessionData.url, sessionData.token)]. *)
Definition startInference_connect (o : Outcome unit) : Act Completion :=
  match o with
  | Rejected error => startInference_catch error
  | Resolved _ => ret Returns
  end.

(** *** The listeners of a room *)

Definition onConnected (room : Room) : Act Completion :=
  emit (console_log "Connected to unified LiveKit room") ;;
  setIsConnected true ;;
  setInferenceState ACTIVE ;;
  setIsLoading false ;;
  emit (setMicrophoneEnabled room true) ;;
  ret (Awaits (await_setMicrophoneEnabled room)).

(** After [await room.localParticipant.setMicrophoneEnabled(true)];
    [publications] are the local audio track publications at that time. *)
Definition onConnected_setMicrophoneEnabled
    (o : Outcome (list Publication.t)) : Act Completion :=
  match o with
  | Resolved publications =>
      setIsMicOn true ;;
      emit (console_log "Microphone enabled for unified session") ;;
      forEach publications (fun publication =>
        match publication.(Publication.track) with
        | Some audioTrack =>
            emit (console_log "Monitoring local audio track for speaking activity") ;;
            write (fun h =>
              set_mutedListeners (h.(mutedListeners) ++ [audioTrack.(track_sid)]) h) ;;
            if audioTrack.(mediaStreamTrack)
            then emit (console_log "Audio track active - monitoring for speech")
            else ret tt
        | None => ret tt
        end) ;;
      emit (toast_success "Voice session started successfully") ;;
      ret Returns
  | Rejected _ =>
      emit (console_error "Failed to enable microphone:") ;;
      emit (toast_error "Failed to enable microphone") ;;
      ret Returns
  end.

Definition onMuted (sid : string) : Act unit :=
  listeners <- read mutedListeners ;;
  forEach (filter (String.eqb sid) listeners) (fun _ =>
    emit (console_log "Local audio track muted") ;;
    setIsUserSpeaking false).

Definition onUnmuted (sid : string) : Act unit :=
  listeners <- read mutedListeners ;;
  forEach (filter (String.eqb sid) listeners) (fun _ =>
    emit (console_log "Local audio track unmuted")).

Definition onDisconnected : Act unit :=
  emit (console_log "Disconnected from unified LiveKit room") ;;
  setIsConnected false ;;
  setInferenceState IDLE ;;
  setIsMicOn false ;;
  setIsUserSpeaking false.

Definition onActiveSpeakersChanged (me : string) (speakers : list Participant.t)
  : Act unit :=
  let userSpeaking :=
    existsb (fun s => s.(Participant.identity) =? me) speakers in
  let agentSpeaking :=
    existsb (fun s => negb (s.(Participant.identity) =? me)) speakers in
  (if userSpeaking then
     emit (console_log "User is actively speaking (detected by LiveKit)") ;;
     setIsUserSpeaking true
   else
     emit (console_log "User stopped speaking") ;;
     setIsUserSpeaking false) ;;
  if agentSpeaking then emit (console_log "Agent is actively speaking") else ret tt.

Definition onTrackPublished (me : string)
    (publication : Publication.t) (participant : Participant.t) : Act unit :=
  emit (console_log "Track published:") ;;
  if (participant.(Participant.identity) =? me)
     && TrackKind_eqb publication.(Publication.kind) Audio
  then
    emit (console_log "User audio track published - audio being sent to session") ;;
    setIsUserSpeaking true
  else ret tt.

Definition onTrackUnpublished (me : string)
    (publication : Publication.t) (participant : Participant.t) : Act unit :=
  emit (console_log "Track unpublished:") ;;
  if (participant.(Participant.identity) =? me)
     && TrackKind_eqb publication.(Publication.kind) Audio
  then
    emit (console_log "User audio track unpublished - stopped sending audio") ;;
    setIsUserSpeaking false
  else ret tt.

(** The listeners put on the audio element only write to the console. *)
Definition onTrackSubscribed (track : RemoteTrack.t) : Act unit :=
  if TrackKind_eqb track.(RemoteTrack.kind) Audio then
    emit (console_log "Subscribed to agent audio track (unified session)") ;;
    let audioElement := track.(RemoteTrack.attach) in
    appendChild audioElement
  else ret tt.

(** [track.detach()], as the transport does it: the track is taken out of
    every element it is attached to, which are the elements its [attach()]
    returned, and an element left without a track plays nothing any more
    ([srcObject = null]); no element leaves the document. *)
Definition detached (attached : HTMLAudioElement) (a : HTMLAudioElement)
  : HTMLAudioElement :=
  if (a.(element) =? attached.(element))%nat
  then {| element := a.(element); srcObject := None |}
  else a.

Definition detach (track : RemoteTrack.t) : Act unit :=
  emit (track_detach track.(RemoteTrack.sid)) ;;
  write (fun h =>
    set_audioElements
      (map (detached track.(RemoteTrack.attach)) h.(audioElements)) h).

Definition onTrackUnsubscribed (track : RemoteTrack.t) : Act unit :=
  if TrackKind_eqb track.(RemoteTrack.kind) Audio then
    emit (console_log "Unsubscribed from agent audio track") ;;
    detach track
  else ret tt.

(** The callback of the only [setTimeout] of the hook. *)
Definition resetSpeaking : Act unit :=
  setIsUserSpeaking false ;;
  setIsTranscribing false.

(** The body of [segments.forEach] in the TranscriptionReceived listener. *)
Definition onSegment (me : string) (participant : option Participant.t)
    (publication : option Publication.t) (segment : Segment.t) : Act unit :=
  let isUser :=
    match participant with
    | Some p => p.(Participant.identity) =? me
    | None => false
    end in
  (if isUser then
     emit (console_log "User speaking:") ;;
     setIsUserSpeaking true ;;
     setIsTranscribing true
   else
     emit (console_log "Agent speaking:")) ;;
  n <- read transcriptionIdCounter ;;
  write (set_transcriptionIdCounter (n + 1)) ;;
  now <- read clock ;;
  let transcriptionEntry :=
    {| id := "trans_" ++ decimal n;
       text := segment.(Segment.text);
       speaker := if isUser then user else agent;
       timestamp := now;
       isFinal := segment.(Segment.final);
       confidence := segment.(Segment.confidence);
       source := Some "livekit";
       participantId := option_map Participant.identity participant;
       trackId := option_map Publication.trackSid publication |} in
  setTranscription (fun prev => prev ++ [transcriptionEntry]) ;;
  setTranscriptionUpdateTrigger (fun prev => prev + 1) ;;
  if segment.(Segment.final) && isUser then setTimeout 500 else ret tt.

Definition onTranscriptionReceived (me : string) (segments : list Segment.t)
    (participant : option Participant.t) (publication : option Publication.t)
  : Act unit :=
  emit (console_log "Transcription received:") ;;
  forEach segments (onSegment me participant publication).

(** Time passes: the timeouts that fall due run their callback. *)
Definition elapse (ms : nat) : Act unit :=
  now <- read clock ;;
  pending <- read timers ;;
  let due := filter (fun d => (d <=? now + ms)%nat) pending in
  write (set_timers (filter (fun d => negb (d <=? now + ms)%nat) pending)) ;;
  write (set_clock (now + ms)) ;;
  forEach due (fun _ => resetSpeaking).

(** *** stopInference *)

(** The last stretch of [stopInference], from the sweep of the audio elements
    to the toast. *)
Definition stopInference_reset : Act Completion :=
  audios <- read audioElements ;;
  forEach audios (fun audio =>
    if has_srcObject audio then remove audio else ret tt) ;;
  write (set_sessionRef None) ;;
  setIsConnected false ;;
  setInferenceState IDLE ;;
  setIsMicOn false ;;
  setIsUserSpeaking false ;;
  setIsLoading false ;;
  emit (toast_success "Voice session stopped") ;;
  ret Returns.

(** After [await roomRef.current.disconnect()], which no [try] encloses. *)
Definition stopInference_disconnect (o : Outcome unit) : Act Completion :=
  match o with
  | Rejected error => ret (Throws error)
  | Resolved _ =>
      write (set_roomRef None) ;;
      stopInference_reset
  end.

(** "Cleanup local resources": the track, then the room. *)
Definition stopInference_local : Act Completion :=
  current <- read audioTrackRef ;;
  stopped <-
    match current with
    | Some audioTrack =>
        emit (track_stop audioTrack) ;;
        match audioTrack.(stop) with
        | Rejected error => ret (Some error)
        | Resolved _ => write (set_audioTrackRef None) ;; ret None
        end
    | None => ret None
    end ;;
  match stopped with
  | Some error => ret (Throws error)
  | None =>
      current <- read roomRef ;;
      match current with
      | Some room =>
          emit (room_disconnect room) ;;
          ret (Awaits await_disconnect)
      | None => stopInference_reset
      end
  end.

(** After [await fetch(...)], inside the [try]. *)
Definition stopInference_fetch (o : Outcome unit) : Act Completion :=
  match o with
  | Rejected _ => emit (console_error "Error stopping session on backend:")
  | Resolved _ => ret tt
  end ;;
  stopInference_local.

(** From the call to the first [await]. *)
Definition stopInference : Act Completion :=
  session <- read sessionRef ;;
  match session with
  | Some s =>
      if truthy s.(sessionId) then
        emit (fetch_session_end s.(sessionId) (negb publicEndpoint)) ;;
        ret (Awaits await_fetch)
      else stopInference_local
  | None => stopInference_local
  end.

(** *** toggleMic, saveTranscription, clearTranscription *)

(** [roomRef.current] is read when the call is made, [isMicOn] is the
    constant of the render that built the callback. *)
Definition toggleMic : Act Completion :=
  current <- read roomRef ;;
  match current with
  | None =>
      emit (toast_error "No active session") ;;
      ret Returns
  | Some room =>
      on <- read (fun h => h.(lastRender).(rendered_isMicOn)) ;;
      if on then
        emit (setMicrophoneEnabled room false) ;;
        ret (Awaits (await_toggle false))
      else
        emit (setMicrophoneEnabled room true) ;;
        ret (Awaits (await_toggle true))
  end.

Definition toggleMic_setMicrophoneEnabled (enabled : bool) (o : Outcome unit)
  : Act Completion :=
  match o with
  | Resolved _ =>
      setIsMicOn enabled ;;
      emit (console_log (if enabled then "Microphone unmuted" else "Microphone muted")) ;;
      ret Returns
  | Rejected _ =>
      emit (console_error "Error toggling microphone:") ;;
      emit (toast_error "Failed to toggle microphone") ;;
      ret Returns
  end.

(** One line of the exported text. *)
Definition serialize (entry : TranscriptionEntry) : string :=
  "[" ++ platform.(toLocaleTimeString) entry.(timestamp) ++ "] "
      ++ Speaker_to_string entry.(speaker) ++ ": " ++ entry.(text).

Definition transcriptionText (entries : list TranscriptionEntry) : string :=
  String.concat newline (map serialize (filter isFinal entries)).

(** [dom] is the outcome of building the blob and clicking the link;
    [transcription] is the constant of the render that built the callback. *)
Definition saveTranscription (dom : Outcome unit) : Act Completion :=
  entries <- read (fun h => h.(lastRender).(rendered_transcription)) ;;
  now <- read clock ;;
  match dom with
  | Resolved _ =>
      emit (download
              ("transcription_" ++ substring 0 10 (platform.(toISOString) now) ++ ".txt")
              (transcriptionText entries)) ;;
      emit (console_log "Transcription saved") ;;
      ret Returns
  | Rejected _ =>
      emit (console_error "Error saving transcription:") ;;
      emit (toast_error "Failed to save transcription") ;;
      ret Returns
  end.

Definition clearTranscription : Act Completion :=
  setTranscription (fun _ => []) ;;
  setTranscriptionUpdateTrigger (fun prev => prev + 1) ;;
  emit (console_log "Transcription cleared") ;;
  ret Returns.

(** ** The event loop *)

Definition done (m : Act unit) : Act Completion := m ;; ret Returns.

(** The listeners close over their own [room], not over [roomRef]: they stay
    registered on a room after [stopInference] has dropped it. *)
Definition dispatch (room : Room) (me : string) (e : RoomEvent) : Act Completion :=
  match e with
  | Connected => onConnected room
  | Disconnected => done onDisconnected
  | ParticipantConnected _ => done (emit (console_log "Participant joined:"))
  | AudioPlaybackStatusChanged =>
      done (emit (console_log "Audio playback status changed"))
  | ActiveSpeakersChanged speakers => done (onActiveSpeakersChanged me speakers)
  | TrackPublished publication participant =>
      done (onTrackPublished me publication participant)
  | TrackUnpublished publication participant =>
      done (onTrackUnpublished me publication participant)
  | TrackSubscribed track => done (onTrackSubscribed track)
  | TrackUnsubscribed track => done (onTrackUnsubscribed track)
  | TranscriptionReceived segments participant publication =>
      done (onTranscriptionReceived me segments participant publication)
  end.

Definition step (e : Event) : Act Completion :=
  match e with
  | call_startInference targetAgentId => startInference targetAgentId
  | settle_getAgent effectiveAgentId o => startInference_getAgent effectiveAgentId o
  | settle_createLiveKitSession o => startInference_createLiveKitSession o
  | settle_connect o => startInference_connect o
  | room_emits room me e => dispatch room me e
  | settle_setMicrophoneEnabled _ o => onConnected_setMicrophoneEnabled o
  | track_emits_muted sid => done (onMuted sid)
  | track_emits_unmuted sid => done (onUnmuted sid)
  | call_stopInference => stopInference
  | settle_fetch o => stopInference_fetch o
  | settle_disconnect o => stopInference_disconnect o
  | call_toggleMic => toggleMic
  | settle_toggle enabled o => toggleMic_setMicrophoneEnabled enabled o
  | call_saveTranscription dom => saveTranscription dom
  | call_clearTranscription => clearTranscription
  | time_passes ms => done (elapse ms)
  | renders => done (write render)
  end.

Fixpoint run (events : list Event) : Act unit :=
  match events with
  | [] => ret tt
  | e :: events' => step e ;; run events'
  end.

(** *** Calls followed to their completion, with nothing in between *)

(** How the promises awaited by one call of [stopInference] settle. *)
Record StopSettles : Type := {
  fetch_settles : Outcome unit;
  disconnect_settles : Outcome unit
}.

Definition stopInference_whole (env : StopSettles) : Act Completion :=
  c <- stopInference ;;
  c <- match c with
       | Awaits await_fetch => stopInference_fetch env.(fetch_settles)
       | _ => ret c
       end ;;
  match c with
  | Awaits await_disconnect => stopInference_disconnect env.(disconnect_settles)
  | _ => ret c
  end.

(** How the promises awaited by one call of [startInference] settle. *)
Record StartSettles : Type := {
  getAgent_settles : Outcome unit;
  createLiveKitSession_settles : Outcome VoiceSession;
  connect_settles : Outcome unit
}.

Definition startInference_whole (targetAgentId : option string) (env : StartSettles)
  : Act Completion :=
  c <- startInference targetAgentId ;;
  c <- match c with
       | Awaits (await_getAgent effectiveAgentId) =>
           startInference_getAgent effectiveAgentId env.(getAgent_settles)
       | _ => ret c
       end ;;
  c <- match c with
       | Awaits await_createLiveKitSession =>
           startInference_createLiveKitSession env.(createLiveKitSession_settles)
       | _ => ret c
       end ;;
  match c with
  | Awaits await_connect => startInference_connect env.(connect_settles)
  | _ => ret c
  end.

End useUnifiedVoiceAgent.

(** ** The vocabulary of the properties *)

(** The calls to the backend that set a session up. *)
Definition is_provisioning (e : Effect) : bool :=
  match e with
  | publicAgentAPI_getAgent _
  | publicAgentAPI_createLiveKitSession _
  | agentAPI_createLiveKitSession _ => true
  | _ => false
  end.

(** The transport connect. *)
Definition is_connect (e : Effect) : bool :=
  match e with
  | room_connect _ _ _ => true
  | _ => false
  end.

(** A trace with no provisioning call and no transport connect. *)
Definition opens_nothing (t : list Effect) : bool :=
  forallb (fun e => negb (is_provisioning e || is_connect e)) t.

(** The events at which the hook issues a provisioning call or a transport
    connect: a start call that passes the guard, and the two resolutions that
    carry an attempt on. *)
Definition opens_something (cfg : UnifiedVoiceAgentConfig) (e : Event) (h : Hook)
  : bool :=
  match e with
  | call_startInference targetAgentId =>
      truthy (or_else targetAgentId cfg.(agentId))
      && INFERENCE_STATES_eqb h.(lastRender).(rendered_inferenceState) IDLE
  | settle_getAgent _ (Resolved _) => true
  | settle_createLiveKitSession (Resolved _) => true
  | _ => false
  end.

(** A trace with no release of a resource: no session-end request, no track
    stop, no disconnect, no removal of an audio element. *)
Definition is_release (e : Effect) : bool :=
  match e with
  | fetch_session_end _ _ | track_stop _ | room_disconnect _ | audio_remove _ => true
  | _ => false
  end.

(** A trace that releases nothing. *)
Definition releases_nothing (t : list Effect) : bool :=
  forallb (fun e => negb (is_release e)) t.

(** What the last stretch of [stopInference] makes of the hook. *)
Definition reset_of (h : Hook) : Hook :=
  {| inferenceState := IDLE; isLoading := false; isMicOn := false;
     isConnected := false; isUserSpeaking := false;
     isTranscribing := h.(isTranscribing);
     transcription := h.(transcription);
     transcriptionUpdateTrigger := h.(transcriptionUpdateTrigger);
     roomRef := h.(roomRef); sessionRef := None;
     audioTrackRef := h.(audioTrackRef);
     transcriptionIdCounter := h.(transcriptionIdCounter);
     audioElements := filter (fun a => negb (has_srcObject a)) h.(audioElements);
     timers := h.(timers); clock := h.(clock); rooms := h.(rooms);
     mutedListeners := h.(mutedListeners); lastRender := h.(lastRender) |}.

(** The hook as [stopInference] leaves it when it returns. *)
Definition stopped (h : Hook) : Hook :=
  reset_of (set_roomRef None (set_audioTrackRef None h)).

(** The loop of [stopInference] over the audio elements of the document. *)
Definition sweep (audios : list HTMLAudioElement) : Act unit :=
  forEach audios (fun audio => if has_srcObject audio then remove audio else ret tt).

(** What the last stretch of [stopInference] emits. *)
Definition stopInference_reset_trace (h : Hook) : list Effect :=
  map audio_remove (filter has_srcObject h.(audioElements))
    ++ [toast_success "Voice session stopped"].

(** [stopInference] returns exactly when neither the track stop nor the
    disconnect fails; how the session-end request settles does not matter. *)
Definition stop_succeeds (env : StopSettles) (h : Hook) : bool :=
  match h.(audioTrackRef) with
  | Some audioTrack =>
      match audioTrack.(stop) with Resolved _ => true | Rejected _ => false end
  | None => true
  end
  && match h.(roomRef), env.(disconnect_settles) with
     | Some _, Rejected _ => false
     | _, _ => true
     end.

(** Whether the track-stopping step of the cleanup goes through. *)
Definition track_stop_fine (h : Hook) : bool :=
  match h.(audioTrackRef) with
  | Some audioTrack =>
      match audioTrack.(stop) with Resolved _ => true | Rejected _ => false end
  | None => true
  end.

(** What [stopInference] emits up to the end of its [try] block: the
    session-end request when the descriptor has an id, and the console line
    when that request fails. *)
Definition backend_trace (cfg : UnifiedVoiceAgentConfig) (f : Outcome unit)
    (h : Hook) : list Effect :=
  match h.(sessionRef) with
  | Some s =>
      if truthy s.(sessionId) then
        fetch_session_end s.(sessionId) (negb (publicEndpoint cfg))
          :: match f with
             | Rejected _ => [console_error "Error stopping session on backend:"]
             | Resolved _ => []
             end
      else []
  | None => []
  end.

(** The stop of the track that is held, if one is. *)
Definition track_trace (h : Hook) : list Effect :=
  match h.(audioTrackRef) with
  | Some audioTrack => [track_stop audioTrack]
  | None => []
  end.

(** The three releases that are guarded by a reference. *)
Definition is_fetch (e : Effect) : bool :=
  match e with fetch_session_end _ _ => true | _ => false end.
Definition is_track_stop (e : Effect) : bool :=
  match e with track_stop _ => true | _ => false end.
Definition is_disconnect (e : Effect) : bool :=
  match e with room_disconnect _ => true | _ => false end.

(** What [stopInference] never touches. *)
Definition keeps_transcript (h h' : Hook) : Prop :=
  transcription h' = transcription h
  /\ transcriptionUpdateTrigger h' = transcriptionUpdateTrigger h
  /\ isTranscribing h' = isTranscribing h.

(** Running [m] takes every hook to one related to it by [R]. *)
Definition preserves (R : Hook -> Hook -> Prop) {A} (m : Act A) : Prop :=
  forall h, R h (after (m h)).

(** What the specification says of an entry: who spoke, what, and whether the
    segment was final. *)
Definition view (entry : TranscriptionEntry) : Speaker * string * bool :=
  (entry.(speaker), entry.(text), entry.(isFinal)).

(** The role of a participant, seen from the local participant [me]. *)
Definition role (me : string) (participant : option Participant.t) : Speaker :=
  match participant with
  | Some p => if p.(Participant.identity) =? me then user else agent
  | None => agent
  end.

(** The segments an event delivers, in the order it delivers them. *)
Definition heard (e : Event) : list (Speaker * string * bool) :=
  match e with
  | room_emits _ me (TranscriptionReceived segments participant _) =>
      map (fun segment =>
             (role me participant, segment.(Segment.text), segment.(Segment.final)))
          segments
  | _ => []
  end.

(** The transcript the specification describes: the segments in the order of
    their arrival, a clear starting it afresh. *)
Fixpoint arrivals (log : list (Speaker * string * bool)) (events : list Event)
  : list (Speaker * string * bool) :=
  match events with
  | [] => log
  | call_clearTranscription :: events' => arrivals [] events'
  | e :: events' => arrivals (log ++ heard e) events'
  end.

(** The exported text as the specification words it: the final entries, one
    line each, "[time] speaker: text", the lines joined by line feeds. *)
Module Exported.

(** The line feed, U+000A. *)
Definition LF : ascii := "010"%char.

Definition speaker_name (s : Speaker) : string :=
  match s with user => "user" | agent => "agent" end.

Definition line (time : nat -> string) (entry : TranscriptionEntry) : string :=
  "[" ++ time entry.(timestamp) ++ "] " ++ speaker_name entry.(speaker)
      ++ ": " ++ entry.(text).

Fixpoint joined (lines : list string) : string :=
  match lines with
  | [] => ""
  | l :: rest =>
      match rest with
      | [] => l
      | _ :: _ => l ++ String LF (joined rest)
      end
  end.

Definition content (time : nat -> string) (entries : list TranscriptionEntry)
  : string :=
  joined (map (line time) (filter isFinal entries)).

(** A text read back line by line, as [split] at the line feeds does. *)
Fixpoint lines (s : string) : list string :=
  match s with
  | EmptyString => [EmptyString]
  | String c s' =>
      if Ascii.eqb c LF then EmptyString :: lines s'
      else match lines s' with
           | l :: ls => String c l :: ls
           | [] => [String c EmptyString]
           end
  end.

(** A string that holds no line feed. *)
Fixpoint one_line (s : string) : bool :=
  match s with
  | EmptyString => true
  | String c s' => negb (Ascii.eqb c LF) && one_line s'
  end.

Definition is_digit (c : ascii) : bool :=
  (48 <=? nat_of_ascii c)%nat && (nat_of_ascii c <=? 57)%nat.

(** "HH:MM:SS": two digits, a colon, two digits, a colon, two digits. *)
Definition is_HHMMSS (s : string) : bool :=
  match list_ascii_of_string s with
  | [h1; h2; c1; m1; m2; c2; s1; s2] =>
      is_digit h1 && is_digit h2 && Ascii.eqb c1 ":"
      && is_digit m1 && is_digit m2 && Ascii.eqb c2 ":"
      && is_digit s1 && is_digit s2
  | _ => false
  end.

Definition two_digits (s : string) : bool :=
  match s with
  | String a (String b EmptyString) => is_digit a && is_digit b
  | _ => false
  end.

(** Whether an arrival was final. *)
Definition final (arrival : Speaker * string * bool) : bool := snd arrival.

End Exported.

(** Relations between the hook before and after a piece of code. *)
Definition same_transcript (h h' : Hook) : Prop :=
  transcription h' = transcription h.

Definition timers_kept (h h' : Hook) : Prop :=
  exists new, timers h' = timers h ++ new.

Definition same_clock (h h' : Hook) : Prop := clock h' = clock h.

(** Both flags down. *)
Definition quiet (h : Hook) : Hook :=
  set_isTranscribing false (set_isUserSpeaking false h).

(** What the [catch] block shows to the user. *)
Definition shown (error : Thrown) : string :=
  match error with
  | JsError message => message
  | JsOther _ => "Failed to start voice session"
  end.

Definition same_mic_and_state (h h' : Hook) : Prop :=
  isMicOn h' = isMicOn h /\ inferenceState h' = inferenceState h.

(** ** A session, from start to stop: the data *)

Module Scenario.

Definition config : UnifiedVoiceAgentConfig :=
  {| agentId := "agent-42"; usePublicEndpoint := None |}.

Definition digits (width n : nat) : string :=
  let s := decimal n in
  (string_of_list_ascii (repeat "0"%char (width - String.length s)) ++ s)%string.

(** The time of day "HH:MM:SS" of a clock counting from midnight. *)
Definition hhmmss (ms : nat) : string :=
  let s := ms / 1000 in
  (digits 2 ((s / 3600) mod 24) ++ ":" ++ digits 2 ((s / 60) mod 60)
     ++ ":" ++ digits 2 (s mod 60))%string.

(** A browser with a 24-hour locale in UTC, on 15 January 2025, its clock
    counting the milliseconds from midnight. *)
Definition browser : Platform :=
  {| toLocaleTimeString := hhmmss;
     toISOString := fun ms =>
       ("2025-01-15T" ++ hhmmss ms ++ "." ++ digits 3 (ms mod 1000) ++ "Z")%string |}.

(** The same browser in the en-US locale, which prints "h:mm:ss AM". *)
Definition en_US : Platform :=
  {| toLocaleTimeString := fun ms =>
       let s := ms / 1000 in
       let h := (s / 3600) mod 24 in
       (decimal (if (h mod 12 =? 0)%nat then 12 else h mod 12) ++ ":"
          ++ digits 2 ((s / 60) mod 60) ++ ":" ++ digits 2 (s mod 60)
          ++ (if (h <? 12)%nat then " AM" else " PM"))%string;
     toISOString := toISOString browser |}.

Definition s1 : VoiceSession :=
  {| sessionId := "s1"; roomName := "room-1"; token := "t"; url := "wss://x";
     participantIdentity := "local"; status := "active" |}.

Definition me : Participant.t := {| Participant.identity := "local" |}.
Definition bot : Participant.t := {| Participant.identity := "agent" |}.

Definition said (text : string) (final : bool) : Segment.t :=
  {| Segment.text := text; Segment.final := final; Segment.confidence := None |}.

Definition voice : RemoteTrack.t :=
  {| RemoteTrack.sid := "TR_agent"; RemoteTrack.kind := Audio;
     RemoteTrack.attach := {| element := 0; srcObject := Some "TR_agent" |} |}.

Definition all_fine : StopSettles :=
  {| fetch_settles := Resolved tt; disconnect_settles := Resolved tt |}.

(** start("agent-42"), the descriptor arrives, the transport connects, the
    microphone is enabled; React renders after the call and at the end. *)
Definition connecting : list Event :=
  [call_startInference (Some "agent-42");
   renders;
   settle_getAgent "agent-42" (Resolved tt);
   settle_createLiveKitSession (Resolved s1);
   room_emits 0 "local" Connected;
   settle_connect (Resolved tt);
   settle_setMicrophoneEnabled 0 (Resolved []);
   renders].

Definition active : Hook := after (run config browser connecting initial).

(** The user and the agent speak, and the hook renders. *)
Definition talking : list Event :=
  [room_emits 0 "local"
     (TranscriptionReceived [said "hello" true] (Some me) None);
   room_emits 0 "local"
     (TranscriptionReceived [said "hi there" true; said "how" false]
        (Some bot) None);
   renders].

(** The session after that, computed. *)
Definition talked : Hook :=
  Eval vm_compute in after (run config browser talking active).

(** The same, with the agent's audio track subscribed. *)
Definition playing : Hook :=
  after (run config browser [room_emits 0 "local" (TrackSubscribed voice)] active).

End Scenario.

(** ** More vocabulary: counters, flags and traces *)

(** How many times an event writes the transcript: once for each segment it
    delivers, once for a clear. *)
Definition writes_of (e : Event) : nat :=
  match e with
  | room_emits _ _ (TranscriptionReceived segments _ _) => List.length segments
  | call_clearTranscription => 1
  | _ => 0
  end.

(** How many segments an event delivers. *)
Definition segments_of (e : Event) : nat :=
  match e with
  | room_emits _ _ (TranscriptionReceived segments _ _) => List.length segments
  | _ => 0
  end.

(** The sum of [f] over a list of events. *)
Definition total (f : Event -> nat) (events : list Event) : nat :=
  fold_right (fun e n => f e + n) 0 events.

(** Whether [participant] is the local participant [me]. *)
Definition is_me (me : string) (participant : Participant.t) : bool :=
  participant.(Participant.identity) =? me.

(** What a room event says about the local user speaking, given what was
    believed before it. *)
Definition speaking_after (me : string) (e : RoomEvent) (before : bool) : bool :=
  match e with
  | Disconnected => false
  | ActiveSpeakersChanged speakers => existsb (is_me me) speakers
  | TrackPublished publication participant =>
      if is_me me participant && TrackKind_eqb publication.(Publication.kind) Audio
      then true else before
  | TrackUnpublished publication participant =>
      if is_me me participant && TrackKind_eqb publication.(Publication.kind) Audio
      then false else before
  | TranscriptionReceived (_ :: _) (Some participant) _ =>
      if is_me me participant then true else before
  | _ => before
  end.

(** Whether an event is a non-empty transcription of the local participant. *)
Definition transcribes_me (e : Event) : bool :=
  match e with
  | room_emits _ me (TranscriptionReceived (_ :: _) (Some participant) _) =>
      is_me me participant
  | _ => false
  end.

(** Every effect of every run of [m] passes the test [P]. *)
Definition emits_only (P : Effect -> bool) {A} (m : Act A) : Prop :=
  forall h, forallb P (trace (m h)) = true.

(** Entries whose ids were drawn from the counter below [n]. *)
Definition ids_below (n : nat) (entries : list TranscriptionEntry) : Prop :=
  exists ks, map id entries = map (fun k => ("trans_" ++ decimal k)%string) ks
             /\ Forall (fun k => k < n) ks
             /\ NoDup ks.

(** A call of [toggleMic] followed to its end, the microphone request
    settling as [o]. *)
Definition toggleMic_whole (o : Outcome unit) : Act Completion :=
  c <- toggleMic ;;
  match c with
  | Awaits (await_toggle enabled) => toggleMic_setMicrophoneEnabled enabled o
  | _ => ret c
  end.

(** The Connected listener followed to its end, the microphone request
    settling as [o]. *)
Definition onConnected_whole (room : Room) (o : Outcome (list Publication.t))
  : Act Completion :=
  c <- onConnected room ;;
  match c with
  | Awaits (await_setMicrophoneEnabled _) => onConnected_setMicrophoneEnabled o
  | _ => ret c
  end.

(** The references go together, and a held room is one that was built. *)
Definition refs_paired (h : Hook) : Prop :=
  (sessionRef h = None <-> roomRef h = None)
  /\ (forall room, roomRef h = Some room -> room < rooms h).

(** Audio elements without a media stream are kept. *)
Definition keeps_plain_audio (h h' : Hook) : Prop :=
  forall a, has_srcObject a = false ->
            In a (audioElements h) -> In a (audioElements h').

Definition same_transcribing (h h' : Hook) : Prop :=
  isTranscribing h' = isTranscribing h.

Definition same_counters (h h' : Hook) : Prop :=
  transcriptionUpdateTrigger h' = transcriptionUpdateTrigger h
  /\ transcriptionIdCounter h' = transcriptionIdCounter h.

Definition same_refs (h h' : Hook) : Prop :=
  sessionRef h' = sessionRef h /\ roomRef h' = roomRef h /\ rooms h' = rooms h.

Definition track_stays_null (h h' : Hook) : Prop :=
  audioTrackRef h = None -> audioTrackRef h' = None.

(** Whether the session reference holds a descriptor with an id. *)
Definition has_session_id (h : Hook) : bool :=
  match h.(sessionRef) with
  | Some s => truthy s.(sessionId)
  | None => false
  end.

(** Where the local part of the cleanup leaves the lifecycle state. *)
Definition lifecycle_after_local (h : Hook) : INFERENCE_STATES :=
  if track_stop_fine h
  then match h.(roomRef) with
       | Some _ => h.(inferenceState)
       | None => IDLE
       end
  else h.(inferenceState).

(** The lifecycle state after an event. *)
Definition lifecycle_after (cfg : UnifiedVoiceAgentConfig) (e : Event) (h : Hook)
  : INFERENCE_STATES :=
  match e with
  | call_startInference targetAgentId =>
      if truthy (or_else targetAgentId cfg.(agentId))
         && INFERENCE_STATES_eqb h.(lastRender).(rendered_inferenceState) IDLE
      then CONNECTING else h.(inferenceState)
  | settle_getAgent _ (Rejected _)
  | settle_createLiveKitSession (Rejected _)
  | settle_connect (Rejected _) => ERROR
  | room_emits _ _ Connected => ACTIVE
  | room_emits _ _ Disconnected => IDLE
  | call_stopInference =>
      if has_session_id h then h.(inferenceState) else lifecycle_after_local h
  | settle_fetch _ => lifecycle_after_local h
  | settle_disconnect (Resolved _) => IDLE
  | _ => h.(inferenceState)
  end.

Definition same_lifecycle (h h' : Hook) : Prop :=
  inferenceState h' = inferenceState h.

(** ** The voice catalogue: [VoiceProvider]

    The provider keeps four lists of voices, one for each provider key, with
    a loading flag and an error for the two lists that are fetched.  The
    getters index the [voices] object by a provider name; what a name that
    [Object.prototype] defines (such as "constructor") yields is not a list,
    and which names those are is left to the runtime ([inherited]). *)

Module VoiceOption.
Record t : Type := {
  id : string;
  name : string;
  provider : string;
  category : option string;
  description : option string;
  language : option string
}.
End VoiceOption.

(** A voice clone as the backend returns it. *)
Module VoiceCloneResponse.
Record t : Type := {
  provider_voice_id : string;
  name : string;
  provider : option string;
  description : option string;
  language : option string
}.
End VoiceCloneResponse.

(** A Hamsa voice as the backend returns it. *)
Module HamsaVoice.
Record t : Type := {
  id : string;
  name : string;
  category : option string;
  description : option string;
  language : option string
}.
End HamsaVoice.

Module Voices.
Record t : Type := {
  hume : list VoiceOption.t;
  cartesia : list VoiceOption.t;
  hamsa : list VoiceOption.t;
  custom : list VoiceOption.t
}.
End Voices.

Module Loading.
Record t : Type := { hamsa : bool; custom : bool }.
End Loading.

Module Errors.
Record t : Type := { hamsa : option string; custom : option string }.
End Errors.

Module VoiceContext.

(** What a rejected promise carries, as the [catch] blocks of the provider
    see it: a value with or without a (non-empty) message, or null or
    undefined, on which reading [message] throws. *)
Inductive Rejection : Type :=
| with_message (message : option string)
| nullish.

Inductive Settled (A : Type) : Type :=
| fulfilled (value : A)
| rejected (reason : Rejection).
Arguments fulfilled {A} value.
Arguments rejected {A} reason.

Inductive Call : Type :=
| hamsaAPI_getVoices
| voiceCloneAPI_getVoiceClones
| import_voiceConfig
| console_error (message : string).

Record State : Type := {
  voices : Voices.t;
  isLoading : Loading.t;
  error : Errors.t
}.

Definition initial : State :=
  {| voices := {| Voices.hume := []; Voices.cartesia := [];
                  Voices.hamsa := []; Voices.custom := [] |};
     isLoading := {| Loading.hamsa := false; Loading.custom := false |};
     error := {| Errors.hamsa := None; Errors.custom := None |} |}.

(** "Transform voice clone API response to VoiceOption". *)
Definition transformVoiceClone (voiceClone : VoiceCloneResponse.t) : VoiceOption.t :=
  {| VoiceOption.id := voiceClone.(VoiceCloneResponse.provider_voice_id);
     VoiceOption.name := voiceClone.(VoiceCloneResponse.name);
     VoiceOption.provider := or_else voiceClone.(VoiceCloneResponse.provider) "custom";
     VoiceOption.category := Some "Custom Clones";
     VoiceOption.description :=
       Some (or_else voiceClone.(VoiceCloneResponse.description) "Custom cloned voice");
     VoiceOption.language := voiceClone.(VoiceCloneResponse.language) |}.

(** The mapping inside [refreshHamsaVoices]. *)
Definition transformHamsaVoice (voice : HamsaVoice.t) : VoiceOption.t :=
  {| VoiceOption.id := voice.(HamsaVoice.id);
     VoiceOption.name := voice.(HamsaVoice.name);
     VoiceOption.provider := "hamsa";
     VoiceOption.category := Some (or_else voice.(HamsaVoice.category) "Hamsa");
     VoiceOption.description := voice.(HamsaVoice.description);
     VoiceOption.language := voice.(HamsaVoice.language) |}.

(** The functional updates [prev => ({ ...prev, key: value })]. *)
Definition with_hamsa_voices (l : list VoiceOption.t) (s : State) : State :=
  {| voices := {| Voices.hume := s.(voices).(Voices.hume);
                  Voices.cartesia := s.(voices).(Voices.cartesia);
                  Voices.hamsa := l;
                  Voices.custom := s.(voices).(Voices.custom) |};
     isLoading := s.(isLoading); error := s.(error) |}.

Definition with_custom_voices (l : list VoiceOption.t) (s : State) : State :=
  {| voices := {| Voices.hume := s.(voices).(Voices.hume);
                  Voices.cartesia := s.(voices).(Voices.cartesia);
                  Voices.hamsa := s.(voices).(Voices.hamsa);
                  Voices.custom := l |};
     isLoading := s.(isLoading); error := s.(error) |}.

Definition with_static_voices (humeVoices cartesiaVoices : list VoiceOption.t)
    (s : State) : State :=
  {| voices := {| Voices.hume := humeVoices;
                  Voices.cartesia := cartesiaVoices;
                  Voices.hamsa := s.(voices).(Voices.hamsa);
                  Voices.custom := s.(voices).(Voices.custom) |};
     isLoading := s.(isLoading); error := s.(error) |}.

Definition with_hamsa_loading (b : bool) (s : State) : State :=
  {| voices := s.(voices);
     isLoading := {| Loading.hamsa := b;
                     Loading.custom := s.(isLoading).(Loading.custom) |};
     error := s.(error) |}.

Definition with_custom_loading (b : bool) (s : State) : State :=
  {| voices := s.(voices);
     isLoading := {| Loading.hamsa := s.(isLoading).(Loading.hamsa);
                     Loading.custom := b |};
     error := s.(error) |}.

Definition with_hamsa_error (e : option string) (s : State) : State :=
  {| voices := s.(voices); isLoading := s.(isLoading);
     error := {| Errors.hamsa := e; Errors.custom := s.(error).(Errors.custom) |} |}.

Definition with_custom_error (e : option string) (s : State) : State :=
  {| voices := s.(voices); isLoading := s.(isLoading);
     error := {| Errors.hamsa := s.(error).(Errors.hamsa); Errors.custom := e |} |}.

(** [refreshHamsaVoices], from the call to its [await]. *)
Definition refreshHamsaVoices (s : State) : State * list Call :=
  (with_hamsa_error None (with_hamsa_loading true s), [hamsaAPI_getVoices]).

(** After [await hamsaAPI.getVoices()]; the boolean tells whether the call
    ends by throwing (out of its [catch] block). *)
Definition refreshHamsaVoices_settled (o : Settled (list HamsaVoice.t)) (s : State)
  : State * list Call * bool :=
  match o with
  | fulfilled hamsaVoicesData =>
      (with_hamsa_loading false
         (with_hamsa_voices (map transformHamsaVoice hamsaVoicesData) s),
       [], false)
  | rejected (with_message message) =>
      (with_hamsa_loading false
         (with_hamsa_error (Some (or_else message "Failed to fetch Hamsa voices")) s),
       [console_error "Error fetching Hamsa voices:"], false)
  | rejected nullish =>
      (with_hamsa_loading false s, [], true)
  end.

(** [refreshCustomVoices], from the call to its [await]. *)
Definition refreshCustomVoices (s : State) : State * list Call :=
  (with_custom_error None (with_custom_loading true s), [voiceCloneAPI_getVoiceClones]).

(** After [await voiceCloneAPI.getVoiceClones()]. *)
Definition refreshCustomVoices_settled
    (o : Settled (list VoiceCloneResponse.t)) (s : State)
  : State * list Call * bool :=
  match o with
  | fulfilled voiceClones =>
      (with_custom_loading false
         (with_custom_voices (map transformVoiceClone voiceClones) s),
       [], false)
  | rejected (with_message message) =>
      (with_custom_loading false
         (with_custom_error (Some (or_else message "Failed to fetch custom voices")) s),
       [console_error "Error fetching custom voices:"], false)
  | rejected nullish =>
      (with_custom_loading false s, [], true)
  end.

(** After [await import('@/lib/voiceConfig')] in [loadStaticVoices]. *)
Definition loadStaticVoices_settled
    (o : Settled (list VoiceOption.t * list VoiceOption.t)) (s : State)
  : State * list Call * bool :=
  match o with
  | fulfilled (humeVoices, cartesiaVoices) =>
      (with_static_voices humeVoices cartesiaVoices s, [], false)
  | rejected _ => (s, [console_error "Error loading static voices:"], false)
  end.

(** The two effects that run when the provider mounts. *)
Definition mount (s : State) : State * list Call :=
  let '(s1, c1) := refreshHamsaVoices s in
  let '(s2, c2) := refreshCustomVoices s1 in
  (s2, import_voiceConfig :: c1 ++ c2).

Inductive Event : Type :=
| mounted
| call_refreshHamsaVoices
| settle_getVoices (o : Settled (list HamsaVoice.t))
| call_refreshCustomVoices
| settle_getVoiceClones (o : Settled (list VoiceCloneResponse.t))
| settle_import (o : Settled (list VoiceOption.t * list VoiceOption.t)).

Definition step (e : Event) (s : State) : State :=
  match e with
  | mounted => fst (mount s)
  | call_refreshHamsaVoices => fst (refreshHamsaVoices s)
  | settle_getVoices o => fst (fst (refreshHamsaVoices_settled o s))
  | call_refreshCustomVoices => fst (refreshCustomVoices s)
  | settle_getVoiceClones o => fst (fst (refreshCustomVoices_settled o s))
  | settle_import o => fst (fst (loadStaticVoices_settled o s))
  end.

Definition run (events : list Event) (s : State) : State :=
  fold_left (fun s e => step e s) events s.

(** Which list an event is about. *)
Definition about_hamsa (e : Event) : bool :=
  match e with
  | mounted | call_refreshHamsaVoices | settle_getVoices _ => true
  | _ => false
  end.

Definition about_custom (e : Event) : bool :=
  match e with
  | mounted | call_refreshCustomVoices | settle_getVoiceClones _ => true
  | _ => false
  end.

(** All the voices, in the order of the keys of the [voices] object. *)
Definition everything (v : Voices.t) : list VoiceOption.t :=
  v.(Voices.hume) ++ v.(Voices.cartesia) ++ v.(Voices.hamsa) ++ v.(Voices.custom).

(** *** The getters *)

(** What a call of [getVoiceById] ends with: a voice or [undefined], or a
    TypeError. *)
Inductive Lookup : Type :=
| returns (voice : option VoiceOption.t)
| throws_TypeError.

(** What indexing the [voices] object by a name gives. *)
Inductive Indexed : Type :=
| own (l : list VoiceOption.t)   (* one of the four lists *)
| from_prototype                 (* something of Object.prototype *)
| missing.                       (* undefined *)

Section Getters.

(** The names that [Object.prototype] defines. *)
Variable inherited : string -> bool.

Definition index (v : Voices.t) (provider : string) : Indexed :=
  if provider =? "hume" then own v.(Voices.hume)
  else if provider =? "cartesia" then own v.(Voices.cartesia)
  else if provider =? "hamsa" then own v.(Voices.hamsa)
  else if provider =? "custom" then own v.(Voices.custom)
  else if inherited provider then from_prototype
  else missing.

Definition has_id (id : string) (voice : VoiceOption.t) : bool :=
  voice.(VoiceOption.id) =? id.

(** The loop "Search all providers" over [Object.values(voices)]. *)
Fixpoint search (id : string) (lists : list (list VoiceOption.t))
  : option VoiceOption.t :=
  match lists with
  | [] => None
  | providerVoices :: rest =>
      match find (has_id id) providerVoices with
      | Some voice => Some voice
      | None => search id rest
      end
  end.

(** [getVoiceById]; on a name of the prototype there is no [find] to call. *)
Definition getVoiceById (v : Voices.t) (id : string) (provider : option string)
  : Lookup :=
  match provider with
  | Some p =>
      if truthy p then
        match index v p with
        | own l => returns (find (has_id id) l)
        | missing => returns None
        | from_prototype => throws_TypeError
        end
      else
        returns (search id [v.(Voices.hume); v.(Voices.cartesia);
                            v.(Voices.hamsa); v.(Voices.custom)])
  | None =>
      returns (search id [v.(Voices.hume); v.(Voices.cartesia);
                          v.(Voices.hamsa); v.(Voices.custom)])
  end.

(** [getVoicesByProvider]: a list, or whatever the prototype has under that
    name. *)
Definition getVoicesByProvider (v : Voices.t) (provider : string) : Indexed :=
  if provider =? "voicecake" then own v.(Voices.hume)
  else match index v provider with
       | own l => own l
       | from_prototype => from_prototype
       | missing => own []
       end.

Definition findHamsaVoiceByName (v : Voices.t) (name : string)
  : option VoiceOption.t :=
  find (fun voice => voice.(VoiceOption.name) =? name) v.(Voices.hamsa).

Definition findHamsaVoiceById (v : Voices.t) (id : string) : option VoiceOption.t :=
  find (has_id id) v.(Voices.hamsa).

End Getters.

End VoiceContext.

(** ** The voice selector: [VoiceSelector]

    The lists the selector computes from the voices of a provider, its
    category filter and its search term.  How a string is lower-cased and
    trimmed is the runtime's business ([toLowerCase], [trim]); so is which
    names [Object.prototype] defines ([inherited]). *)

Module VoiceSelector.

(** [s.includes(term)]. *)
Fixpoint includes (term s : string) : bool :=
  prefix term s ||
  match s with
  | EmptyString => false
  | String _ rest => includes term rest
  end.

(** The elements of a list in the order of their first occurrence:
    [[...new Set(l)]]. *)
Fixpoint distinct (l : list string) : list string :=
  match l with
  | [] => []
  | x :: rest => x :: filter (fun y => negb (y =? x)) (distinct rest)
  end.

(** [l.filter(Boolean)] on optional strings. *)
Fixpoint truthy_ones (l : list (option string)) : list string :=
  match l with
  | [] => []
  | Some s :: rest => if truthy s then s :: truthy_ones rest else truthy_ones rest
  | None :: rest => truthy_ones rest
  end.

(** "Get categories for all voices". *)
Definition categories (allProviderVoices : list VoiceOption.t) : list string :=
  distinct (truthy_ones (map VoiceOption.category allProviderVoices)).

(** [voice.category === selectedCategory]. *)
Definition in_category (selectedCategory : string) (voice : VoiceOption.t) : bool :=
  match voice.(VoiceOption.category) with
  | Some c => c =? selectedCategory
  | None => false
  end.

(** [voice.category || "Uncategorized"]. *)
Definition group_of (voice : VoiceOption.t) : string :=
  or_else voice.(VoiceOption.category) "Uncategorized".

(** "Get the selected voice for display". *)
Definition selectedVoice (allProviderVoices : list VoiceOption.t) (value : string)
  : option VoiceOption.t :=
  find (fun voice => voice.(VoiceOption.id) =? value) allProviderVoices.

Section Selector.

Variable toLowerCase : string -> string.
Variable trim : string -> string.
Variable inherited : string -> bool.

(** The test of the search filter; an absent description or category does
    not match. *)
Definition matches (term : string) (voice : VoiceOption.t) : bool :=
  includes term (toLowerCase voice.(VoiceOption.name))
  || match voice.(VoiceOption.description) with
     | Some d => includes term (toLowerCase d)
     | None => false
     end
  || match voice.(VoiceOption.category) with
     | Some c => includes term (toLowerCase c)
     | None => false
     end.

(** "Filter voices based on search and category". *)
Definition filteredVoices (allProviderVoices : list VoiceOption.t)
    (selectedCategory searchTerm : string) : list VoiceOption.t :=
  let voices := allProviderVoices in
  let voices :=
    if truthy selectedCategory && negb (selectedCategory =? "all")
    then filter (in_category selectedCategory) voices
    else voices in
  if truthy (trim searchTerm)
  then filter (matches (toLowerCase searchTerm)) voices
  else voices.

(** The object [grouped], as its own keys with their arrays, in the order in
    which the keys were created.  The order in which the keys are enumerated
    is another one: see [Object_entries] below. *)
Definition Grouped : Type := list (string * list VoiceOption.t).

(** [grouped[category].push(voice)] on a key that exists. *)
Fixpoint push (category : string) (voice : VoiceOption.t) (grouped : Grouped)
  : Grouped :=
  match grouped with
  | [] => []
  | (key, voices) :: rest =>
      if key =? category then (key, voices ++ [voice]) :: rest
      else (key, voices) :: push category voice rest
  end.

Definition has_key (category : string) (grouped : Grouped) : bool :=
  existsb (fun entry => fst entry =? category) grouped.

(** The body of [filteredVoices.forEach] in "Group voices by category";
    [None] when it throws: under a name of the prototype there is something,
    so no array is created, and what is there has no [push]. *)
Definition group_step (grouped : Grouped) (voice : VoiceOption.t) : option Grouped :=
  let category := group_of voice in
  if has_key category grouped then Some (push category voice grouped)
  else if inherited category then None
  else Some (push category voice (grouped ++ [(category, [])])).

Fixpoint group_from (grouped : Grouped) (voices : list VoiceOption.t)
  : option Grouped :=
  match voices with
  | [] => Some grouped
  | voice :: rest =>
      match group_step grouped voice with
      | Some grouped' => group_from grouped' rest
      | None => None
      end
  end.

(** "Group voices by category for display". *)
Definition groupedVoices (filtered : list VoiceOption.t) : option Grouped :=
  group_from [] filtered.

(** [grouped[category]] for a name the prototype does not define. *)
Definition group (category : string) (grouped : Grouped) : list VoiceOption.t :=
  match find (fun entry => fst entry =? category) grouped with
  | Some (_, voices) => voices
  | None => []
  end.

End Selector.

(** The number a key stands for when it is an array index: the canonical
    decimal form of an integer below 2^32 - 1. *)
Definition array_index (key : string) : option N :=
  match NilZero.uint_of_string key with
  | Some u =>
      let n := N.of_uint u in
      if (NilZero.string_of_uint (N.to_uint n) =? key) && (n <? 4294967295)%N
      then Some n else None
  | None => None
  end.

Definition is_array_index (key : string) : bool :=
  match array_index key with Some _ => true | None => false end.

(** The index of a key; only asked of keys that are array indices. *)
Definition index_of (entry : string * list VoiceOption.t) : N :=
  match array_index (fst entry) with Some n => n | None => 0%N end.

Fixpoint insert_by_index (entry : string * list VoiceOption.t) (sorted : Grouped)
  : Grouped :=
  match sorted with
  | [] => [entry]
  | first :: rest =>
      if (index_of entry <=? index_of first)%N then entry :: sorted
      else first :: insert_by_index entry rest
  end.

Fixpoint by_index (entries : Grouped) : Grouped :=
  match entries with
  | [] => []
  | entry :: rest => insert_by_index entry (by_index rest)
  end.

(** [Object.entries(grouped)]: the keys that are array indices come first, in
    ascending numeric order, then the other keys in the order of their
    creation. *)
Definition Object_entries (grouped : Grouped) : Grouped :=
  by_index (filter (fun entry => is_array_index (fst entry)) grouped)
    ++ filter (fun entry => negb (is_array_index (fst entry))) grouped.


(** What holds of the groups built so far from the voices [seen]. *)
Definition grouped_well (inherited : string -> bool)
    (seen : list VoiceOption.t) (grouped : Grouped) : Prop :=
  NoDup (map fst grouped)
  /\ (forall key, In key (map fst grouped) -> inherited key = false)
  /\ (forall c, group c grouped
                = filter (fun voice => group_of voice =? c) seen)
  /\ (forall key, In key (map fst grouped) -> group key grouped <> []).

End VoiceSelector.

(** ** A catalogue and a page: the data *)

Module Catalogue.

(** The names a browser's [Object.prototype] defines. *)
Definition inherited (name : string) : bool :=
  existsb (String.eqb name)
    ["constructor"; "__proto__"; "hasOwnProperty"; "isPrototypeOf";
     "propertyIsEnumerable"; "toLocaleString"; "toString"; "valueOf";
     "__defineGetter__"; "__defineSetter__"; "__lookupGetter__";
     "__lookupSetter__"].

Definition voice (id name provider : string) (category : option string)
  : VoiceOption.t :=
  {| VoiceOption.id := id; VoiceOption.name := name;
     VoiceOption.provider := provider; VoiceOption.category := category;
     VoiceOption.description := None; VoiceOption.language := None |}.

Definition ito : VoiceOption.t := voice "ito" "Ito" "hume" (Some "Calm").
Definition salma : VoiceOption.t := voice "salma" "Salma" "hamsa" (Some "Hamsa").

Definition voices : Voices.t :=
  {| Voices.hume := [ito]; Voices.cartesia := [];
     Voices.hamsa := [salma]; Voices.custom := [] |}.

Definition clone : VoiceCloneResponse.t :=
  {| VoiceCloneResponse.provider_voice_id := "vc_1";
     VoiceCloneResponse.name := "My voice";
     VoiceCloneResponse.provider := None;
     VoiceCloneResponse.description := Some "";
     VoiceCloneResponse.language := Some "en" |}.

(** An audio element of the page itself, which plays no media stream. *)
Definition jingle : HTMLAudioElement := {| element := 7; srcObject := None |}.

End Catalogue.

(** ** Properties *)

(** *** Reading traces *)

Lemma bind_unfold A B (m : Act A) (k : A -> Act B) h :
  bind m k h = (result (k (result (m h)) (after (m h))),
                after (k (result (m h)) (after (m h))),
                trace (m h) ++ trace (k (result (m h)) (after (m h)))).
Proof.
  unfold bind, result, after, trace.
  destruct (m h) as [[a h1] t1]; simpl.
  destruct (k a h1) as [[b h2] t2]; reflexivity.
Qed.

Lemma run_cons cfg plat e events h :
  run cfg plat (e :: events) h =
  (tt,
   after (run cfg plat events (after (step cfg plat e h))),
   trace (step cfg plat e h) ++ trace (run cfg plat events (after (step cfg plat e h)))).
Proof.
  simpl run. rewrite bind_unfold.
  destruct (result (run cfg plat events (after (step cfg plat e h)))).
  reflexivity.
Qed.

Lemma run_app cfg plat events1 events2 h :
  after (run cfg plat (events1 ++ events2) h) =
    after (run cfg plat events2 (after (run cfg plat events1 h)))
  /\ trace (run cfg plat (events1 ++ events2) h) =
    trace (run cfg plat events1 h)
      ++ trace (run cfg plat events2 (after (run cfg plat events1 h))).
Proof.
  revert h. induction events1 as [|e events1 IH]; intros h.
  - split; reflexivity.
  - rewrite <- app_comm_cons, !run_cons.
    destruct (IH (after (step cfg plat e h))) as [IHa IHt].
    unfold after, trace in *; simpl. rewrite IHa, IHt, app_assoc.
    split; reflexivity.
Qed.

Lemma opens_nothing_app t1 t2 :
  opens_nothing (t1 ++ t2) = opens_nothing t1 && opens_nothing t2.
Proof. apply forallb_app. Qed.

Lemma after_bind A B (m : Act A) (k : A -> Act B) h :
  after (bind m k h) = after (k (result (m h)) (after (m h))).
Proof. rewrite bind_unfold. reflexivity. Qed.

Lemma trace_bind A B (m : Act A) (k : A -> Act B) h :
  trace (bind m k h) = trace (m h) ++ trace (k (result (m h)) (after (m h))).
Proof. rewrite bind_unfold. reflexivity. Qed.

Lemma result_bind A B (m : Act A) (k : A -> Act B) h :
  result (bind m k h) = result (k (result (m h)) (after (m h))).
Proof. rewrite bind_unfold. reflexivity. Qed.

Lemma after_forEach_cons A (x : A) l (f : A -> Act unit) h :
  after (forEach (x :: l) f h) = after (forEach l f (after (f x h))).
Proof. simpl forEach. apply after_bind. Qed.

(** ** Frame rules

    [preserves R m]: running [m] takes any hook to one related to it by [R].
    For a reflexive and transitive [R] this goes through the monad. *)

Create HintDb hook.

#[export] Hint Unfold
  startInference_catch startInference startInference_getAgent
  startInference_createLiveKitSession startInference_connect
  onConnected onConnected_setMicrophoneEnabled onMuted onUnmuted onDisconnected
  onActiveSpeakersChanged onTrackPublished onTrackUnpublished onTrackSubscribed
  onTrackUnsubscribed detach resetSpeaking onTranscriptionReceived
  stopInference_reset stopInference_disconnect stopInference_local
  stopInference_fetch stopInference toggleMic toggleMic_setMicrophoneEnabled
  saveTranscription done dispatch elapse
  appendChild remove setTimeout new_Room
  setInferenceState setIsLoading setIsMicOn setIsConnected setIsUserSpeaking
  setIsTranscribing setTranscription setTranscriptionUpdateTrigger : hook.

Section Frame.

Variable R : Hook -> Hook -> Prop.
Hypothesis R_refl : forall h, R h h.
Hypothesis R_trans : forall h1 h2 h3, R h1 h2 -> R h2 h3 -> R h1 h3.

Lemma preserves_ret A (a : A) : preserves R (ret a).
Proof. intros h; apply R_refl. Qed.

Lemma preserves_read A (f : Hook -> A) : preserves R (read f).
Proof. intros h; apply R_refl. Qed.

Lemma preserves_emit e : preserves R (emit e).
Proof. intros h; apply R_refl. Qed.

Lemma preserves_write f : (forall h, R h (f h)) -> preserves R (write f).
Proof. intros Hf h; apply Hf. Qed.

Lemma preserves_bind A B (m : Act A) (k : A -> Act B) :
  preserves R m -> (forall a, preserves R (k a)) -> preserves R (bind m k).
Proof.
  intros Hm Hk h. rewrite bind_unfold. unfold after at 1; simpl.
  eapply R_trans; [apply Hm | apply Hk].
Qed.

Lemma preserves_forEach A (l : list A) (f : A -> Act unit) :
  (forall a, preserves R (f a)) -> preserves R (forEach l f).
Proof.
  intros Hf. induction l as [|a l IH]; simpl.
  - apply preserves_ret.
  - apply preserves_bind; [apply Hf | intros _; exact IH].
Qed.

End Frame.

(** Walks through a piece of the hook; [tac] settles the writes. *)
Ltac frame_with Hrefl Htrans tac :=
  autounfold with hook;
  repeat first
    [ apply (preserves_ret _ Hrefl)
    | apply (preserves_read _ Hrefl)
    | apply (preserves_emit _ Hrefl)
    | apply (preserves_bind _ Htrans); [|intros ?]
    | apply (preserves_forEach _ Hrefl Htrans); intros ?
    | apply preserves_write; tac
    | match goal with
      | |- preserves _ (match ?x with _ => _ end) => destruct x
      | |- preserves _ (let _ := _ in _) => cbv zeta
      end
    | progress autounfold with hook ].

(** [emits_only P m]: every effect of [m] passes [P]. *)

Section Emits.

Variable P : Effect -> bool.

Lemma emits_only_ret A (a : A) : emits_only P (ret a).
Proof. intros h; reflexivity. Qed.

Lemma emits_only_read A (f : Hook -> A) : emits_only P (read f).
Proof. intros h; reflexivity. Qed.

Lemma emits_only_write f : emits_only P (write f).
Proof. intros h; reflexivity. Qed.

Lemma emits_only_emit e : P e = true -> emits_only P (emit e).
Proof. intros He h. unfold emit, trace; simpl. rewrite He. reflexivity. Qed.

Lemma emits_only_bind A B (m : Act A) (k : A -> Act B) :
  emits_only P m -> (forall a, emits_only P (k a)) -> emits_only P (bind m k).
Proof.
  intros Hm Hk h. rewrite trace_bind, forallb_app, Hm, Hk. reflexivity.
Qed.

Lemma emits_only_forEach A (l : list A) (f : A -> Act unit) :
  (forall a, emits_only P (f a)) -> emits_only P (forEach l f).
Proof.
  intros Hf. induction l as [|a l IH]; simpl.
  - apply emits_only_ret.
  - apply emits_only_bind; [apply Hf | intros _; exact IH].
Qed.

End Emits.

(** Walks through a piece of the hook, checking each effect it emits. *)
Ltac emits_only :=
  autounfold with hook;
  repeat first
    [ apply emits_only_ret
    | apply emits_only_read
    | apply emits_only_write
    | apply emits_only_emit; reflexivity
    | apply emits_only_bind; [|intros ?]
    | apply emits_only_forEach; intros ?
    | match goal with
      | |- emits_only _ (match ?x with _ => _ end) => destruct x
      | |- emits_only _ (let _ := _ in _) => cbv zeta
      end
    | progress autounfold with hook ].

Lemma forallb_negb_existsb A (p : A -> bool) l :
  forallb (fun a => negb (p a)) l = negb (existsb p l).
Proof.
  induction l as [|a l IH]; [reflexivity|]; simpl.
  rewrite IH, negb_orb. reflexivity.
Qed.

Lemma trace_run_cons cfg plat e events h :
  trace (run cfg plat (e :: events) h)
  = trace (step cfg plat e h)
      ++ trace (run cfg plat events (after (step cfg plat e h))).
Proof. rewrite run_cons. reflexivity. Qed.

(** *** startInference proceeds when its render saw Idle *)

Lemma startInference_refuses cfg target h :
  rendered_inferenceState (lastRender h) <> IDLE ->
  startInference cfg target h
  = (Returns, h,
     [if truthy (or_else target cfg.(agentId))
      then console_log "Inference already active or connecting"
      else toast_error "Agent ID is required"]).
Proof.
  intros Hst. unfold startInference.
  destruct (truthy (or_else target (agentId cfg))); simpl; [|reflexivity].
  unfold bind, read; simpl.
  destruct (rendered_inferenceState (lastRender h)); simpl; try reflexivity.
  contradiction Hst; reflexivity.
Qed.

(** When the render saw Idle and there is an agent id, the call does proceed,
    whatever the state cell holds by now. *)
Lemma startInference_from_idle cfg target h :
  rendered_inferenceState (lastRender h) = IDLE ->
  truthy (or_else target cfg.(agentId)) = true ->
  startInference cfg target h
  = (Awaits (await_getAgent (or_else target cfg.(agentId))),
     set_inferenceState CONNECTING (set_isLoading true h),
     [console_log "Starting unified LiveKit session for agent:";
      publicAgentAPI_getAgent (or_else target cfg.(agentId))]).
Proof.
  intros Hidle Hid. unfold startInference. rewrite Hid. simpl.
  unfold bind, read; simpl. rewrite Hidle. reflexivity.
Qed.

Lemma step_opens cfg plat e h :
  opens_nothing (trace (step cfg plat e h)) = negb (opens_something cfg e h).
Proof.
  pose (P := fun x => negb (is_provisioning x || is_connect x)).
  change (forallb P (trace (step cfg plat e h)) = negb (opens_something cfg e h)).
  destruct e as [target|? [[]|]|[?|]| | | | | | | | | | | | | |];
    simpl opens_something; simpl negb;
    try (match goal with
         | |- forallb P (trace (step cfg plat ?ev h)) = true =>
             revert h; change (emits_only P (step cfg plat ev)); simpl step;
             solve [emits_only]
         end).
  - destruct (truthy (or_else target (agentId cfg))) eqn:Hid;
      [destruct (rendered_inferenceState (lastRender h)) eqn:Hst|]; simpl step.
    + rewrite startInference_from_idle by assumption. reflexivity.
    + rewrite startInference_refuses by (rewrite Hst; discriminate).
      rewrite Hid. reflexivity.
    + rewrite startInference_refuses by (rewrite Hst; discriminate).
      rewrite Hid. reflexivity.
    + rewrite startInference_refuses by (rewrite Hst; discriminate).
      rewrite Hid. reflexivity.
    + unfold startInference. rewrite Hid. reflexivity.
  - simpl step. unfold startInference_getAgent, bind, emit, ret, trace; simpl.
    destruct (publicEndpoint cfg); reflexivity.
  - destruct h; reflexivity.
Qed.

(** C1 (as amended).  The guard of [startInference] reads the lifecycle state
    that the render which built the callback saw.  A call whose render saw a
    state other than Idle returns at once without throwing, leaves the hook
    as it was and issues neither a provisioning call nor a transport connect,
    and so does any sequence of such calls; a call that proceeds was built by
    a render that saw Idle.  Such a call does proceed when it has an agent
    id, whatever the state cell holds by then, and it leaves the render as it
    was: a second call before the next render proceeds as well.  Provisioning
    calls and connects are issued by a start call that passes this guard and
    by the resolved agent lookup and session creation, which look at no state,
    and by nothing else. *)
Theorem startInference_only_from_idle cfg plat (targets : list (option string)) h :
  rendered_inferenceState (lastRender h) <> IDLE ->
  (forall target,
      let r := startInference cfg target h in
      result r = Returns /\ after r = h /\ opens_nothing (trace r) = true)
  /\ (let r := run cfg plat (map call_startInference targets) h in
      after r = h /\ opens_nothing (trace r) = true)
  /\ (forall target h0,
      let r := startInference cfg target h0 in
      result r <> Returns \/ after r <> h0 \/ opens_nothing (trace r) = false ->
      rendered_inferenceState (lastRender h0) = IDLE)
  /\ (forall target h0,
      rendered_inferenceState (lastRender h0) = IDLE ->
      truthy (or_else target (agentId cfg)) = true ->
      let effectiveAgentId := or_else target (agentId cfg) in
      let r := startInference cfg target h0 in
      let again := startInference cfg target (after r) in
      result r = Awaits (await_getAgent effectiveAgentId)
      /\ In (publicAgentAPI_getAgent effectiveAgentId) (trace r)
      /\ inferenceState (after r) = CONNECTING
      /\ lastRender (after r) = lastRender h0
      /\ result again = Awaits (await_getAgent effectiveAgentId)
      /\ In (publicAgentAPI_getAgent effectiveAgentId) (trace again))
  /\ (forall e h0,
      opens_nothing (trace (step cfg plat e h0)) = negb (opens_something cfg e h0)).
Proof.
  intros Hst.
  assert (Hone : forall target,
             let r := startInference cfg target h in
             result r = Returns /\ after r = h /\ opens_nothing (trace r) = true).
  { intros target r. subst r. rewrite (startInference_refuses cfg target h Hst).
    unfold result, after, trace; simpl.
    destruct (truthy _); repeat split; reflexivity. }
  split; [exact Hone|]. split; [|split; [|split]].
  - induction targets as [|target targets IH]; [split; reflexivity|].
    cbv zeta. change (map call_startInference (target :: targets))
      with (call_startInference target :: map call_startInference targets).
    rewrite run_cons. simpl step.
    destruct (Hone target) as (_ & Ha & Ht). cbv zeta in IH.
    change (after (_, ?a, _)) with a. change (trace (_, _, ?t)) with t.
    rewrite Ha, opens_nothing_app, Ht. destruct IH as [IHa IHt].
    rewrite IHa, IHt. split; reflexivity.
  - intros target h0 r Hr.
    destruct (rendered_inferenceState (lastRender h0)) eqn:E; try reflexivity;
      exfalso; subst r;
      (rewrite startInference_refuses in Hr by (rewrite E; discriminate));
      unfold result, after, trace in Hr; simpl in Hr;
      destruct (truthy _); simpl in Hr;
      (destruct Hr as [Hr | [Hr | Hr]];
       [apply Hr; reflexivity | apply Hr; reflexivity | discriminate Hr]).
  - intros target h0 Hidle Hid. cbv zeta.
    rewrite (startInference_from_idle cfg target h0 Hidle Hid).
    assert (Hsame : rendered_inferenceState
                      (lastRender (set_inferenceState CONNECTING
                                     (set_isLoading true h0))) = IDLE)
      by (destruct h0; exact Hidle).
    change (after (_, ?a, _)) with a.
    rewrite (startInference_from_idle cfg target _ Hsame Hid).
    destruct h0; repeat split; simpl; try reflexivity;
      right; left; reflexivity.
  - intros e h0. apply step_opens.
Qed.

(** *** stopInference: where it ends *)

Lemma HTMLAudioElement_eqb_eq a b : HTMLAudioElement_eqb a b = true <-> a = b.
Proof.
  destruct a as [ea sa], b as [eb sb]; unfold HTMLAudioElement_eqb; simpl.
  rewrite andb_true_iff, Nat.eqb_eq. split.
  - intros [He Hs]; subst eb.
    destruct sa as [x|], sb as [y|]; try discriminate; [|reflexivity].
    apply String.eqb_eq in Hs; subst; reflexivity.
  - intros H; injection H as He Hs; subst. split; [reflexivity|].
    destruct sb; [apply String.eqb_refl | reflexivity].
Qed.

Lemma set_audioElements_same h : set_audioElements (audioElements h) h = h.
Proof. destruct h; reflexivity. Qed.

Lemma filter_filter A (p q : A -> bool) l :
  filter p (filter q l) = filter (fun a => q a && p a) l.
Proof.
  induction l as [|a l IH]; [reflexivity|]; simpl.
  destruct (q a); simpl; [destruct (p a)|]; rewrite IH; reflexivity.
Qed.

Lemma sweep_any audios : forall h,
  sweep audios h
  = (tt,
     set_audioElements
       (filter (fun a => negb (existsb (HTMLAudioElement_eqb a)
                                       (filter has_srcObject audios)))
               h.(audioElements)) h,
     map audio_remove (filter has_srcObject audios)).
Proof.
  induction audios as [|x audios IH]; intros h.
  - simpl. unfold ret.
    replace (filter _ (audioElements h)) with (audioElements h).
    + rewrite set_audioElements_same; reflexivity.
    + symmetry. apply forallb_filter_id. apply forallb_forall; reflexivity.
  - unfold sweep in *. simpl forEach. rewrite bind_unfold.
    destruct (has_srcObject x) eqn:Hx.
    + unfold remove at 1 2 3. unfold bind, emit, write, result, after, trace.
      simpl. rewrite !IH. simpl. rewrite Hx. simpl.
      rewrite filter_filter. destruct h; unfold set_audioElements; simpl.
      do 2 f_equal. f_equal. apply filter_ext. intros a.
      rewrite negb_orb. reflexivity.
    + unfold ret at 1 2 3. unfold result, after, trace. simpl.
      rewrite !IH. simpl. rewrite Hx. reflexivity.
Qed.

Lemma sweep_document h :
  sweep h.(audioElements) h
  = (tt,
     set_audioElements (filter (fun a => negb (has_srcObject a)) h.(audioElements)) h,
     map audio_remove (filter has_srcObject h.(audioElements))).
Proof.
  rewrite sweep_any. do 2 f_equal. f_equal. apply filter_ext_in. intros a Ha.
  f_equal. destruct (has_srcObject a) eqn:Hs.
  - apply existsb_exists. exists a. split.
    + apply filter_In; split; assumption.
    + apply HTMLAudioElement_eqb_eq; reflexivity.
  - destruct (existsb _ _) eqn:He; [|reflexivity].
    apply existsb_exists in He. destruct He as (b & Hb & Hab).
    apply HTMLAudioElement_eqb_eq in Hab; subst b.
    apply filter_In in Hb. destruct Hb as [_ Hb]. congruence.
Qed.

Lemma stopInference_reset_eq h :
  stopInference_reset h = (Returns, reset_of h, stopInference_reset_trace h).
Proof.
  unfold stopInference_reset. fold (sweep (audioElements h)).
  unfold bind at 1. unfold read at 1.
  change (forEach (audioElements h) _) with (sweep (audioElements h)).
  unfold bind at 1. rewrite sweep_document.
  destruct h; reflexivity.
Qed.

(** The pieces of [stopInference] on a hook whose references are known: every
    branch computes, up to the last stretch, which [stopInference_reset_eq]
    describes. *)
Opaque stopInference_reset.

Ltac stop_compute :=
  unfold stopInference_whole, stopInference, stopInference_fetch,
    stopInference_local, stopInference_disconnect,
    bind, read, write, emit, ret, result, after, trace in *;
  simpl in *; subst; simpl in *;
  repeat (first
    [ match goal with H : ?x = _ |- context [?x] => rewrite H end
    | rewrite stopInference_reset_eq ];
    simpl in * ).

Ltac stop_cases h env :=
  let s := fresh "s" in let t := fresh "t" in let r := fresh "r" in
  let f := fresh "f" in let d := fresh "d" in
  destruct env as [f d];
  destruct (sessionRef h) as [s|] eqn:?;
  [destruct (truthy (sessionId s)) eqn:?|];
  destruct (audioTrackRef h) as [t|] eqn:?;
  try (destruct (stop t) as [[]|] eqn:?);
  destruct (roomRef h) as [r|] eqn:?;
  destruct f as [[]|]; destruct d as [[]|].

Lemma stopInference_whole_returns cfg env h :
  result (stopInference_whole cfg env h) = Returns ->
  after (stopInference_whole cfg env h) = stopped h.
Proof.
  stop_cases h env; destruct h; stop_compute;
    intros; try discriminate; reflexivity.
Qed.

Lemma stopInference_whole_result cfg env h :
  result (stopInference_whole cfg env h)
  = if stop_succeeds env h then Returns
    else match h.(audioTrackRef) with
         | Some {| stop := Rejected error |} => Throws error
         | _ => match env.(disconnect_settles) with
                | Rejected error => Throws error
                | Resolved _ => Returns
                end
         end.
Proof.
  unfold stop_succeeds.
  stop_cases h env; destruct h; stop_compute; try reflexivity.
  all: destruct t as [? ? [[]|]]; simpl in *; congruence.
Qed.

Lemma filter_negb_idem A (p : A -> bool) l :
  filter (fun a => negb (p a)) (filter (fun a => negb (p a)) l)
  = filter (fun a => negb (p a)) l.
Proof.
  rewrite filter_filter. apply filter_ext. intros a. apply andb_diag.
Qed.

Lemma filter_negb_none A (p : A -> bool) l :
  filter p (filter (fun a => negb (p a)) l) = [].
Proof.
  rewrite filter_filter.
  induction l as [|a l IH]; [reflexivity|]; simpl.
  destruct (p a); simpl; exact IH.
Qed.

Lemma stopped_stopped h : stopped (stopped h) = stopped h.
Proof.
  unfold stopped, reset_of; simpl. rewrite filter_negb_idem. reflexivity.
Qed.

Lemma stopInference_whole_stopped cfg env h :
  stopInference_whole cfg env (stopped h)
  = (Returns, stopped h, [toast_success "Voice session stopped"]).
Proof.
  destruct env as [f d]. stop_compute. simpl.
  unfold stopInference_reset_trace; simpl. rewrite filter_negb_none.
  simpl. f_equal. f_equal.
  rewrite <- (stopped_stopped h) at 2. reflexivity.
Qed.

(** C4 (as amended).  From any hook whatsoever (any lifecycle state, any
    flags, any references, any document), [stopInference] returns unless the
    stop of the track or the disconnect fails.  When it returns, the state is
    Idle, the mic-on, connected, user-speaking and loading flags are false,
    the session, room and audio-track references are null, and the document
    holds no audio element with a media stream attached: exactly the
    elements that had none are left, an element whose track was detached
    among them.  When it does not return it throws, and the state, the
    flags, the session and room references and the document are as they
    were. *)
Theorem stopInference_leaves_idle cfg env h :
  let r := stopInference_whole cfg env h in
  let h' := after r in
  (result r = Returns <-> stop_succeeds env h = true)
  /\ (result r = Returns ->
      inferenceState h' = IDLE
      /\ isMicOn h' = false /\ isConnected h' = false
      /\ isUserSpeaking h' = false /\ isLoading h' = false
      /\ sessionRef h' = None /\ roomRef h' = None /\ audioTrackRef h' = None
      /\ existsb has_srcObject (audioElements h') = false
      /\ audioElements h' = filter (fun a => negb (has_srcObject a)) (audioElements h))
  /\ (result r <> Returns ->
      (exists error, result r = Throws error)
      /\ inferenceState h' = inferenceState h
      /\ isMicOn h' = isMicOn h /\ isConnected h' = isConnected h
      /\ isUserSpeaking h' = isUserSpeaking h /\ isLoading h' = isLoading h
      /\ sessionRef h' = sessionRef h /\ roomRef h' = roomRef h
      /\ audioElements h' = audioElements h).
Proof.
  cbv zeta. split; [|split].
  - rewrite stopInference_whole_result.
    destruct (stop_succeeds env h) eqn:Hs; [split; reflexivity|].
    unfold stop_succeeds in Hs. split; [|discriminate].
    destruct (audioTrackRef h) as [[? ? [[]|]]|]; try discriminate;
      destruct (roomRef h), (disconnect_settles env) as [[]|];
      simpl in Hs; try discriminate; reflexivity.
  - intros Hret. rewrite (stopInference_whole_returns cfg env h Hret).
    unfold stopped, reset_of; simpl. repeat split.
    induction (audioElements h) as [|a l IH]; [reflexivity|]; simpl.
    destruct (has_srcObject a) eqn:Ha; simpl; [exact IH|].
    rewrite Ha. exact IH.
  - stop_cases h env; destruct h; stop_compute; intros Hthrows;
      try (contradiction Hthrows; reflexivity);
      (split; [eexists; reflexivity | repeat split; reflexivity]).
Qed.

Lemma existsb_map_audio_remove (p : Effect -> bool) l :
  (forall a, p (audio_remove a) = false) ->
  existsb p (map audio_remove l) = false.
Proof.
  intros Hp. induction l as [|a l IH]; [reflexivity|]; simpl.
  rewrite Hp. exact IH.
Qed.

(** Each step of the cleanup looks at its reference first. *)
Lemma stopInference_checks_liveness cfg env h :
  let t := trace (stopInference_whole cfg env h) in
  (sessionRef h = None -> existsb is_fetch t = false)
  /\ (audioTrackRef h = None -> existsb is_track_stop t = false)
  /\ (roomRef h = None -> existsb is_disconnect t = false).
Proof.
  cbv zeta. repeat split; intros Hnone.
  all: stop_cases h env; try discriminate; destruct h; stop_compute;
    try discriminate;
    unfold stopInference_reset_trace; simpl;
    rewrite ?app_nil_r, ?existsb_app, ?existsb_map_audio_remove by reflexivity;
    reflexivity.
Qed.

(** C5 (as amended).  From any hook, when a call of [stopInference] has
    returned (neither its track stop nor its disconnect failed), a second
    call, however its own environment behaves, returns without throwing as
    well, leaves the hook exactly as the first call left it, and releases
    nothing: it sends no session-end request, stops no track, disconnects no
    room and removes no element.  This is so because each cleanup step first
    checks its reference: with a null session there is no session-end
    request, with a null audio track no track stop, with a null room no
    disconnect.  The session and room references are cleared by the last
    stretch of a call only.  So a second call made after a first one that
    threw, or while the first one is still awaiting the session-end request
    or the disconnect, finds them as they were, and sends the session-end
    request and the disconnect again. *)
Theorem stopInference_twice cfg env1 env2 h :
  let once := stopInference_whole cfg env1 h in
  let again := stopInference_whole cfg env2 (after once) in
  (stop_succeeds env1 h = true ->
   result once = Returns /\ result again = Returns
   /\ after again = after once
   /\ releases_nothing (trace again) = true)
  /\ (forall env h0,
       let t := trace (stopInference_whole cfg env h0) in
       (sessionRef h0 = None -> existsb is_fetch t = false)
       /\ (audioTrackRef h0 = None -> existsb is_track_stop t = false)
       /\ (roomRef h0 = None -> existsb is_disconnect t = false))
  /\ (stop_succeeds env1 h = false ->
      sessionRef (after once) = sessionRef h /\ roomRef (after once) = roomRef h
      /\ (forall s, sessionRef h = Some s -> truthy (sessionId s) = true ->
            In (fetch_session_end (sessionId s) (negb (publicEndpoint cfg)))
               (trace again))
      /\ (forall room, roomRef h = Some room -> track_stop_fine h = true ->
            In (room_disconnect room) (trace again)))
  /\ (forall s, sessionRef h = Some s -> truthy (sessionId s) = true ->
       let awaiting := stopInference cfg h in
       result awaiting = Awaits await_fetch /\ after awaiting = h
       /\ stopInference cfg (after awaiting) = awaiting
       /\ trace awaiting
          = [fetch_session_end (sessionId s) (negb (publicEndpoint cfg))])
  /\ (forall room o, roomRef h = Some room -> track_stop_fine h = true ->
       let awaiting := stopInference_fetch o h in
       result awaiting = Awaits await_disconnect
       /\ sessionRef (after awaiting) = sessionRef h
       /\ roomRef (after awaiting) = Some room
       /\ In (room_disconnect room) (trace awaiting)
       /\ In (room_disconnect room)
             (trace (stopInference_whole cfg env2 (after awaiting)))).
Proof.
  cbv zeta. split; [|split; [|split; [|split]]].
  - intros Hfine.
    assert (Hret : result (stopInference_whole cfg env1 h) = Returns).
    { rewrite stopInference_whole_result, Hfine. reflexivity. }
    rewrite (stopInference_whole_returns cfg env1 h Hret) in *.
    rewrite stopInference_whole_stopped.
    repeat split; try reflexivity. exact Hret.
  - intros env h0. apply stopInference_checks_liveness.
  - unfold stop_succeeds, track_stop_fine. intros Hfail.
    destruct env2 as [f2 d2].
    stop_cases h env1;
      simpl in Hfail;
      repeat match goal with
             | H : audioTrackRef _ = _ |- _ => rewrite H in Hfail; simpl in Hfail
             | H : stop _ = _ |- _ => rewrite H in Hfail; simpl in Hfail
             | H : roomRef _ = _ |- _ => rewrite H in Hfail; simpl in Hfail
             end;
      try discriminate Hfail; clear Hfail.
    all: destruct f2 as [[]|]; destruct d2 as [[]|]; destruct h; stop_compute.
    all: split; [reflexivity|]; split; [reflexivity|].
    all: split;
      [ intros s' Hs Ht; try discriminate Hs; injection Hs as Hs; subst s'
      | intros room Hr Hf; try discriminate Hr; try discriminate Hf;
        injection Hr as Hr; subst room ].
    all: try congruence.
    all: simpl; repeat (first [left; reflexivity | right]).
  - intros s Hs Ht. unfold stopInference, bind, read, emit, ret, result, after,
      trace; simpl. rewrite Hs, Ht. simpl. rewrite Hs, Ht. repeat split.
  - unfold track_stop_fine. intros room o Hr Hfine. destruct env2 as [f2 d2].
    destruct o as [[]|];
      destruct (sessionRef h) as [s|] eqn:?;
      [destruct (truthy (sessionId s)) eqn:?| |destruct (truthy (sessionId s)) eqn:?|];
      destruct (audioTrackRef h) as [t|] eqn:?;
      try (destruct (stop t) as [[]|] eqn:?); try discriminate;
      destruct f2 as [[]|]; destruct d2 as [[]|];
      destruct h; stop_compute;
      repeat split; try reflexivity;
      repeat (first [left; reflexivity | right]).
Qed.

(** C10.  [stopInference] leaves the transcript, the change counter
    [transcriptionUpdateTrigger] and the [isTranscribing] flag as they were:
    this holds of each of its pieces and of the whole call, whether it
    returns or throws. *)
Theorem stopInference_keeps_transcript cfg env o h :
  keeps_transcript h (after (stopInference cfg h))
  /\ keeps_transcript h (after (stopInference_fetch o h))
  /\ keeps_transcript h (after (stopInference_disconnect o h))
  /\ keeps_transcript h (after (stopInference_whole cfg env h)).
Proof.
  unfold keeps_transcript. repeat split.
  all: try (stop_cases h env; destruct o as [[]|]; destruct h; stop_compute;
            reflexivity).
  all: destruct o as [[]|]; destruct h; stop_compute; reflexivity.
Qed.

(** C6 (as amended).  When the session reference holds a descriptor with a
    non-empty [sessionId], the session-end request is the first thing
    [stopInference] does, and it awaits it before touching anything.  A
    failure of that request is written to the console and absorbed: the rest
    of the cleanup runs, ends and leaves the hook exactly as it does when the
    request succeeds.  The local steps are not guarded.  A track stop that
    fails makes [stopInference] throw that very error with the hook as it
    was: after the session-end request (and its console line, if it failed)
    the stop of the track is the last thing the call does; nothing is
    written to the console about it, no disconnect is issued, no element is
    removed and nothing is reset.  A disconnect that rejects makes
    [stopInference] throw that very error likewise: the disconnect is the
    last thing the call does, and only the audio-track reference has been
    cleared. *)
Theorem stopInference_absorbs_backend_failure cfg h :
  (forall s,
     sessionRef h = Some s ->
     truthy (sessionId s) = true ->
     stopInference cfg h
     = (Awaits await_fetch, h,
        [fetch_session_end (sessionId s) (negb (publicEndpoint cfg))])
     /\ (forall error,
          let ok := stopInference_fetch (Resolved tt) h in
          stopInference_fetch (Rejected error) h
          = (result ok, after ok,
             console_error "Error stopping session on backend:" :: trace ok))
     /\ (forall error d,
          let ok := stopInference_whole cfg
                      {| fetch_settles := Resolved tt; disconnect_settles := d |} h in
          let ko := stopInference_whole cfg
                      {| fetch_settles := Rejected error; disconnect_settles := d |} h in
          result ko = result ok /\ after ko = after ok
          /\ exists rest,
              trace ok
              = fetch_session_end (sessionId s) (negb (publicEndpoint cfg)) :: rest
              /\ trace ko
                 = fetch_session_end (sessionId s) (negb (publicEndpoint cfg))
                     :: console_error "Error stopping session on backend:" :: rest))
  /\ (forall env audioTrack error,
       audioTrackRef h = Some audioTrack ->
       stop audioTrack = Rejected error ->
       let r := stopInference_whole cfg env h in
       result r = Throws error /\ after r = h
       /\ trace r = backend_trace cfg (fetch_settles env) h ++ [track_stop audioTrack])
  /\ (forall f error room,
       track_stop_fine h = true ->
       roomRef h = Some room ->
       let r := stopInference_whole cfg
                  {| fetch_settles := f; disconnect_settles := Rejected error |} h in
       result r = Throws error /\ after r = set_audioTrackRef None h
       /\ trace r = backend_trace cfg f h ++ track_trace h ++ [room_disconnect room]).
Proof.
  split; [|split].
  - intros s Hs Ht. split; [|split].
    + unfold stopInference, bind, read, emit, ret; simpl. rewrite Hs, Ht. reflexivity.
    + intros error ok. subst ok.
      unfold stopInference_fetch, bind, emit, ret, result, after, trace; simpl.
      destruct (stopInference_local h) as [[c h'] t]; reflexivity.
    + intros error d.
      set (absorbed := {| fetch_settles := Rejected error; disconnect_settles := d |}).
      set (fine := {| fetch_settles := Resolved tt; disconnect_settles := d |}).
      cbv zeta.
      destruct (audioTrackRef h) as [t|] eqn:Et;
        [destruct (stop t) as [[]|] eqn:Est|];
        destruct (roomRef h) as [r|] eqn:Er; destruct d as [[]|];
        subst absorbed fine; destruct h; stop_compute;
        (repeat split; eexists; split; reflexivity).
  - intros env audioTrack error Ht Hstop. unfold backend_trace.
    destruct env as [f d].
    destruct (sessionRef h) as [s|] eqn:?;
      [destruct (truthy (sessionId s)) eqn:?|];
      destruct f as [[]|]; destruct h; stop_compute;
      repeat split; reflexivity.
  - unfold track_stop_fine, backend_trace, track_trace. intros f error room Hfine Hr.
    destruct (sessionRef h) as [s|] eqn:?;
      [destruct (truthy (sessionId s)) eqn:?|];
      destruct (audioTrackRef h) as [t|] eqn:?;
      try (destruct (stop t) as [[]|] eqn:?); try discriminate;
      destruct f as [[]|]; destruct h; stop_compute;
      repeat split; reflexivity.
Qed.

(** When other events come in between its pieces, [stopInference] ends with
    one of three pieces.  Whichever it is, it leaves the hook idle; for the
    piece after the disconnect this needs the audio-track reference to be
    null, which the piece before it saw to. *)
Lemma stopInference_last_piece_leaves_idle cfg plat e h :
  match e with
  | call_stopInference | settle_fetch _ => True
  | settle_disconnect _ => audioTrackRef h = None
  | _ => False
  end ->
  result (step cfg plat e h) = Returns ->
  after (step cfg plat e h) = stopped h.
Proof.
  intros He.
  destruct e as [| | | | | | | | |o|o| | | | | |]; try contradiction; simpl step.
  - destruct (sessionRef h) as [s|] eqn:?;
      [destruct (truthy (sessionId s)) eqn:?|];
      destruct (audioTrackRef h) as [t|] eqn:?;
      try (destruct (stop t) as [[]|] eqn:?);
      destruct (roomRef h) as [r|] eqn:?;
      destruct h; stop_compute; intros; try discriminate; reflexivity.
  - destruct o as [[]|];
      destruct (audioTrackRef h) as [t|] eqn:?;
      try (destruct (stop t) as [[]|] eqn:?);
      destruct (roomRef h) as [r|] eqn:?;
      destruct h; stop_compute; intros; try discriminate; reflexivity.
  - destruct o as [[]|]; destruct h; stop_compute; intros;
      try discriminate; reflexivity.
Qed.

Transparent stopInference_reset.


(** *** The transcript *)

Lemma same_transcript_refl h : same_transcript h h.
Proof. reflexivity. Qed.

Lemma same_transcript_trans h1 h2 h3 :
  same_transcript h1 h2 -> same_transcript h2 h3 -> same_transcript h1 h3.
Proof. unfold same_transcript; congruence. Qed.

Ltac same_transcript :=
  frame_with same_transcript_refl same_transcript_trans
    ltac:(intros []; reflexivity).

Lemma onSegment_appends me participant publication segment h :
  exists entry,
    transcription (after (onSegment me participant publication segment h))
    = transcription h ++ [entry]
    /\ view entry
       = (role me participant, segment.(Segment.text), segment.(Segment.final))
    /\ id entry = ("trans_" ++ decimal (transcriptionIdCounter h))%string
    /\ timestamp entry = clock h.
Proof.
  unfold onSegment, role.
  destruct participant as [p|]; [destruct (Participant.identity p =? me)|];
    destruct (Segment.final segment) eqn:Ef;
    unfold bind, read, write, emit, ret, after, setIsUserSpeaking,
      setIsTranscribing, setTranscription, setTranscriptionUpdateTrigger,
      setTimeout; simpl;
    eexists; (split; [reflexivity|]); unfold view; simpl; rewrite ?Ef;
    repeat split; reflexivity.
Qed.

Lemma onSegments_append me participant publication segments : forall h,
  exists new,
    transcription (after (forEach segments (onSegment me participant publication) h))
    = transcription h ++ new
    /\ map view new
       = map (fun segment =>
                (role me participant, segment.(Segment.text),
                 segment.(Segment.final))) segments.
Proof.
  induction segments as [|segment segments IH]; intros h.
  - exists []. simpl. rewrite app_nil_r. split; reflexivity.
  - simpl forEach. rewrite bind_unfold. unfold after at 1; simpl.
    destruct (onSegment_appends me participant publication segment h)
      as (entry & Hentry & Hview & _).
    destruct (IH (after (onSegment me participant publication segment h)))
      as (new & Hnew & Hmap).
    exists (entry :: new). split.
    + rewrite Hnew, Hentry, <- app_assoc. reflexivity.
    + simpl. rewrite Hview, Hmap. reflexivity.
Qed.

Lemma step_same_transcript cfg plat e h :
  heard e = [] -> e <> call_clearTranscription ->
  (forall room me participant publication,
      e <> room_emits room me (TranscriptionReceived [] participant publication)) ->
  same_transcript h (after (step cfg plat e h)).
Proof.
  intros Hheard Hclear Hempty. revert h. change (preserves same_transcript (step cfg plat e)).
  destruct e; simpl step; try solve [same_transcript].
  - destruct e; simpl dispatch; try solve [same_transcript].
    destruct segments as [|segment segments]; [|discriminate Hheard].
    exfalso. eapply Hempty. reflexivity.
  - contradiction Hclear; reflexivity.
Qed.

Lemma step_appends cfg plat e h :
  e <> call_clearTranscription ->
  exists new,
    transcription (after (step cfg plat e h)) = transcription h ++ new
    /\ map view new = heard e.
Proof.
  intros Hclear.
  destruct e as [| | | |room me [| | | | | | | | |segments participant publication]
                 | | | | | | | | | | | |];
    try (exists []; rewrite app_nil_r; split; [|reflexivity];
         apply step_same_transcript;
         [reflexivity | assumption | discriminate]).
  simpl step. unfold dispatch, done, onTranscriptionReceived.
  rewrite bind_unfold. unfold after at 1; simpl.
  rewrite bind_unfold. unfold after at 1; simpl.
  apply onSegments_append.
Qed.

Lemma arrivals_cons log e events :
  e <> call_clearTranscription ->
  arrivals log (e :: events) = arrivals (log ++ heard e) events.
Proof. intros He. destruct e; try reflexivity. contradiction He; reflexivity. Qed.

Lemma after_run_cons cfg plat e events h :
  after (run cfg plat (e :: events) h)
  = after (run cfg plat events (after (step cfg plat e h))).
Proof. rewrite run_cons. reflexivity. Qed.

Lemma run_arrivals cfg plat events : forall h,
  map view (transcription (after (run cfg plat events h)))
  = arrivals (map view (transcription h)) events.
Proof.
  induction events as [|e events IH]; intros h; [reflexivity|].
  rewrite after_run_cons, IH.
  assert (Hother : e <> call_clearTranscription ->
            arrivals (map view (transcription (after (step cfg plat e h)))) events
            = arrivals (map view (transcription h)) (e :: events)).
  { intros He. rewrite (arrivals_cons _ e events He).
    destruct (step_appends cfg plat e h He) as (new & Hnew & Hmap).
    rewrite Hnew, map_app, Hmap. reflexivity. }
  destruct e; try (apply Hother; discriminate).
  reflexivity.
Qed.

Lemma concat_newline_joined ls : String.concat newline ls = Exported.joined ls.
Proof.
  induction ls as [|l [|l' ls] IH]; try reflexivity.
  change (String.concat newline (l :: l' :: ls))
    with (l ++ newline ++ String.concat newline (l' :: ls))%string.
  rewrite IH. reflexivity.
Qed.

Lemma transcriptionText_content plat entries :
  transcriptionText plat entries
  = Exported.content (toLocaleTimeString plat) entries.
Proof.
  unfold transcriptionText, Exported.content. rewrite concat_newline_joined.
  apply f_equal. apply map_ext. intros entry. unfold serialize, Exported.line.
  destruct (speaker entry); reflexivity.
Qed.

Lemma one_line_app a b :
  Exported.one_line (a ++ b) = Exported.one_line a && Exported.one_line b.
Proof.
  induction a as [|c a IH]; [reflexivity|]; simpl.
  rewrite IH, andb_assoc. reflexivity.
Qed.

Lemma lines_cons_LF a b :
  Exported.one_line a = true ->
  Exported.lines (a ++ String Exported.LF b) = a :: Exported.lines b.
Proof.
  induction a as [|c a IH]; intros Ha; [reflexivity|].
  simpl in Ha. apply andb_true_iff in Ha. destruct Ha as [Hc Ha].
  apply negb_true_iff in Hc. simpl. rewrite Hc, (IH Ha). reflexivity.
Qed.

Lemma lines_one_line a : Exported.one_line a = true -> Exported.lines a = [a].
Proof.
  induction a as [|c a IH]; intros Ha; [reflexivity|].
  simpl in Ha. apply andb_true_iff in Ha. destruct Ha as [Hc Ha].
  apply negb_true_iff in Hc. simpl. rewrite Hc, (IH Ha). reflexivity.
Qed.

(** Joining lines and reading them back gives the lines again. *)
Lemma lines_joined ls :
  ls <> [] -> Forall (fun l => Exported.one_line l = true) ls ->
  Exported.lines (Exported.joined ls) = ls.
Proof.
  induction ls as [|l [|l' ls] IH]; intros Hne Hall.
  - contradiction Hne; reflexivity.
  - apply lines_one_line. inversion Hall; assumption.
  - change (Exported.joined (l :: l' :: ls))
      with (l ++ String Exported.LF (Exported.joined (l' :: ls)))%string.
    inversion Hall as [|? ? Hl Hrest]; subst.
    rewrite (lines_cons_LF _ _ Hl), IH; [reflexivity | discriminate | assumption].
Qed.

Lemma line_one_line time entry :
  Exported.one_line (time (timestamp entry)) = true ->
  Exported.one_line (text entry) = true ->
  Exported.one_line (Exported.line time entry) = true.
Proof.
  intros Ht Hx. unfold Exported.line.
  rewrite !one_line_app, Ht, Hx. destruct (speaker entry); reflexivity.
Qed.

Lemma view_filter_final entries :
  map view (filter isFinal entries) = filter Exported.final (map view entries).
Proof.
  induction entries as [|entry entries IH]; [reflexivity|].
  change (filter Exported.final (map view (entry :: entries)))
    with (if isFinal entry
          then view entry :: filter Exported.final (map view entries)
          else filter Exported.final (map view entries)).
  simpl filter. destruct (isFinal entry); simpl; rewrite IH; reflexivity.
Qed.

Lemma digits_two k : k < 60 -> Exported.two_digits (Scenario.digits 2 k) = true.
Proof.
  intros Hk.
  assert (H : forallb (fun n => Exported.two_digits (Scenario.digits 2 n)) (seq 0 60)
              = true) by (vm_compute; reflexivity).
  rewrite forallb_forall in H. apply H. apply in_seq. lia.
Qed.

Lemma two_digits_HHMMSS x y z :
  Exported.two_digits x = true -> Exported.two_digits y = true ->
  Exported.two_digits z = true ->
  Exported.is_HHMMSS (x ++ ":" ++ y ++ ":" ++ z) = true.
Proof.
  destruct x as [|a [|b [|]]]; try discriminate.
  destruct y as [|c [|d [|]]]; try discriminate.
  destruct z as [|e [|f [|]]]; try discriminate.
  unfold Exported.two_digits, Exported.is_HHMMSS; simpl.
  intros Hx Hy Hz. apply andb_true_iff in Hx, Hy, Hz.
  destruct Hx as [-> ->], Hy as [-> ->], Hz as [-> ->]. reflexivity.
Qed.

(** The browser of the scenario prints the time as HH:MM:SS. *)
Lemma browser_prints_HHMMSS ms :
  Exported.is_HHMMSS (toLocaleTimeString Scenario.browser ms) = true.
Proof.
  simpl. unfold Scenario.hhmmss.
  apply two_digits_HHMMSS; apply digits_two.
  - pose proof (Nat.mod_upper_bound (ms / 1000 / 3600) 24). lia.
  - apply Nat.mod_upper_bound. discriminate.
  - apply Nat.mod_upper_bound. discriminate.
Qed.

(** C3 (as amended).  Whatever events arrive and however they interleave, the
    transcript lists the segments received since the last clear in the order
    of their arrival, each with its speaker, its text and its finality; an
    event other than a clear only appends to it, so no entry is reordered,
    edited or removed.  [saveTranscription] writes out the transcript that its
    render saw: exactly the entries with [isFinal = true], in that order, each
    as "[time] speaker: text", joined by line feeds, where the time is what
    the browser's [toLocaleTimeString] prints.  After a render the export is
    of the final arrivals, in the order of their arrival; read back line by
    line it gives one line for each of them; and in a browser that prints the
    time as HH:MM:SS each line begins with "[HH:MM:SS] ". *)
Theorem transcript_in_arrival_order cfg plat events h :
  map view (transcription (after (run cfg plat events h)))
  = arrivals (map view (transcription h)) events
  /\ (forall e, e <> call_clearTranscription ->
       exists new,
         transcription (after (step cfg plat e h)) = transcription h ++ new
         /\ map view new = heard e)
  /\ (let seen := rendered_transcription (lastRender h) in
      let finals := filter isFinal seen in
      let content := Exported.content (toLocaleTimeString plat) seen in
      trace (saveTranscription plat (Resolved tt) h)
      = [download
           ("transcription_" ++ substring 0 10 (toISOString plat (clock h)) ++ ".txt")
           content;
         console_log "Transcription saved"]
      /\ (finals <> [] ->
          (forall entry, In entry finals ->
             Exported.one_line (toLocaleTimeString plat (timestamp entry)) = true
             /\ Exported.one_line (text entry) = true) ->
          Exported.lines content
          = map (fun entry =>
                   "[" ++ toLocaleTimeString plat (timestamp entry) ++ "] "
                       ++ (match speaker entry with
                           | user => "user"
                           | agent => "agent"
                           end) ++ ": " ++ text entry)%string finals)
      /\ ((forall t, Exported.is_HHMMSS (toLocaleTimeString plat t) = true) ->
          forall entry, In entry finals ->
            exists hhmmss,
              Exported.is_HHMMSS hhmmss = true
              /\ In ("[" ++ hhmmss ++ "] " ++ Exported.speaker_name (speaker entry)
                         ++ ": " ++ text entry)%string
                    (map (Exported.line (toLocaleTimeString plat)) finals)))
  /\ (let rendered := after (step cfg plat renders (after (run cfg plat events h))) in
      rendered_transcription (lastRender rendered)
      = transcription (after (run cfg plat events h))
      /\ map view (filter isFinal (rendered_transcription (lastRender rendered)))
         = filter Exported.final (arrivals (map view (transcription h)) events)).
Proof.
  split; [apply run_arrivals|]. split; [|split].
  - intros e He. apply step_appends; assumption.
  - cbv zeta. split; [|split].
    + unfold saveTranscription, bind, read, emit, ret, trace; simpl.
      rewrite transcriptionText_content. reflexivity.
    + intros Hne Hone. unfold Exported.content. rewrite lines_joined.
      * reflexivity.
      * intros Hnil. apply Hne. apply map_eq_nil in Hnil. exact Hnil.
      * apply Forall_forall. intros l Hl. apply in_map_iff in Hl.
        destruct Hl as (entry & <- & Hin). destruct (Hone entry Hin).
        apply line_one_line; assumption.
    + intros H24 entry Hin. exists (toLocaleTimeString plat (timestamp entry)).
      split; [apply H24|]. apply in_map_iff. exists entry.
      split; [reflexivity | exact Hin].
  - cbv zeta.
    assert (Hr : rendered_transcription
                   (lastRender (after (step cfg plat renders
                                         (after (run cfg plat events h)))))
                 = transcription (after (run cfg plat events h))).
    { destruct (after (run cfg plat events h)); reflexivity. }
    split; [exact Hr|]. rewrite Hr, view_filter_final, run_arrivals. reflexivity.
Qed.

(** *** clearTranscription *)

(** C8 (as amended).  [clearTranscription] returns without throwing from any
    hook, empties the transcript and adds one to the change counter; the
    counter of entry ids keeps its value, and so does every other cell. *)
Theorem clearTranscription_empties_and_bumps h :
  let r := clearTranscription h in
  result r = Returns
  /\ transcription (after r) = []
  /\ transcriptionUpdateTrigger (after r) = transcriptionUpdateTrigger h + 1
  /\ transcriptionIdCounter (after r) = transcriptionIdCounter h
  /\ after r
     = set_transcriptionUpdateTrigger (transcriptionUpdateTrigger h + 1)
         (set_transcription [] h).
Proof. destruct h; repeat split; reflexivity. Qed.

(** *** The reset of the speaking flags *)

Lemma timers_kept_refl h : timers_kept h h.
Proof. exists []. symmetry. apply app_nil_r. Qed.

Lemma timers_kept_trans h1 h2 h3 :
  timers_kept h1 h2 -> timers_kept h2 h3 -> timers_kept h1 h3.
Proof.
  intros [n1 H1] [n2 H2]. exists (n1 ++ n2). rewrite H2, H1, app_assoc. reflexivity.
Qed.

Ltac timers_kept :=
  frame_with timers_kept_refl timers_kept_trans
    ltac:(intros []; unfold timers_kept; simpl;
          first [ eexists; reflexivity
                | exists []; symmetry; apply app_nil_r ]).

Lemma step_keeps_timers cfg plat e h :
  (forall ms, e <> time_passes ms) ->
  timers_kept h (after (step cfg plat e h)).
Proof.
  intros Htime. revert h. change (preserves timers_kept (step cfg plat e)).
  destruct e; simpl step; try solve [timers_kept].
  exfalso. eapply Htime. reflexivity.
Qed.

Lemma same_clock_refl h : same_clock h h.
Proof. reflexivity. Qed.

Lemma same_clock_trans h1 h2 h3 :
  same_clock h1 h2 -> same_clock h2 h3 -> same_clock h1 h3.
Proof. unfold same_clock; congruence. Qed.

Lemma step_same_clock cfg plat e h :
  (forall ms, e <> time_passes ms) ->
  clock (after (step cfg plat e h)) = clock h.
Proof.
  intros Htime. revert h. change (preserves same_clock (step cfg plat e)).
  destruct e; simpl step;
    try solve [ frame_with same_clock_refl same_clock_trans
                  ltac:(intros []; reflexivity) ].
  exfalso. eapply Htime. reflexivity.
Qed.

Lemma resetSpeaking_forEach (due : list nat) : forall h,
  after (forEach due (fun _ => resetSpeaking) h)
  = match due with [] => h | _ :: _ => quiet h end.
Proof.
  induction due as [|d due IH]; intros h; [reflexivity|].
  simpl forEach. rewrite bind_unfold. unfold after at 1; simpl.
  rewrite IH. destruct due; destruct h; reflexivity.
Qed.

Lemma elapse_after ms h :
  after (elapse ms h)
  = let h' := set_clock (clock h + ms)
               (set_timers (filter (fun d => negb (d <=? clock h + ms)%nat) (timers h)) h) in
    match filter (fun d => (d <=? clock h + ms)%nat) (timers h) with
    | [] => h'
    | _ :: _ => quiet h'
    end.
Proof.
  unfold elapse. rewrite bind_unfold. unfold after at 1, read at 1 2; simpl.
  rewrite bind_unfold. unfold after at 1, read at 1 2; simpl.
  rewrite bind_unfold. unfold after at 1, write at 1 2; simpl.
  rewrite bind_unfold. unfold after at 1, write at 1 2; simpl.
  rewrite resetSpeaking_forEach. destruct h; reflexivity.
Qed.

Lemma elapse_timers ms h :
  timers (after (elapse ms h))
  = filter (fun d => negb (d <=? clock h + ms)%nat) (timers h)
  /\ clock (after (elapse ms h)) = clock h + ms.
Proof.
  rewrite elapse_after. cbv zeta.
  destruct (filter _ (timers h)); destruct h; split; reflexivity.
Qed.

Lemma elapse_fires ms h due :
  In due (timers h) -> due <= clock h + ms ->
  isUserSpeaking (after (elapse ms h)) = false
  /\ isTranscribing (after (elapse ms h)) = false.
Proof.
  intros Hin Hdue. rewrite elapse_after. cbv zeta.
  destruct (filter (fun d => (d <=? clock h + ms)%nat) (timers h)) as [|d l] eqn:Ef.
  - exfalso.
    assert (Hd : In due (filter (fun d => (d <=? clock h + ms)%nat) (timers h))).
    { apply filter_In. split; [assumption|]. apply Nat.leb_le; assumption. }
    rewrite Ef in Hd. exact Hd.
  - destruct h; split; reflexivity.
Qed.

Lemma elapse_idles ms h :
  (forall due, In due (timers h) -> clock h + ms < due) ->
  isUserSpeaking (after (elapse ms h)) = isUserSpeaking h
  /\ isTranscribing (after (elapse ms h)) = isTranscribing h.
Proof.
  intros Hnone. rewrite elapse_after. cbv zeta.
  destruct (filter (fun d => (d <=? clock h + ms)%nat) (timers h)) as [|d l] eqn:Ef.
  - destruct h; split; reflexivity.
  - exfalso.
    assert (Hd : In d (filter (fun d => (d <=? clock h + ms)%nat) (timers h)))
      by (rewrite Ef; left; reflexivity).
    apply filter_In in Hd. destruct Hd as [Hin Hle].
    apply Nat.leb_le in Hle. specialize (Hnone d Hin). lia.
Qed.

Lemma after_done (m : Act unit) h : after (done m h) = after (m h).
Proof. unfold done. rewrite bind_unfold. reflexivity. Qed.

Lemma step_clock_grows cfg plat e h : clock h <= clock (after (step cfg plat e h)).
Proof.
  destruct e; try (rewrite step_same_clock by discriminate; reflexivity).
  simpl step. rewrite after_done.
  destruct (elapse_timers ms h) as [_ Hc]. rewrite Hc. lia.
Qed.

Lemma run_clock_grows cfg plat events : forall h,
  clock h <= clock (after (run cfg plat events h)).
Proof.
  induction events as [|e events IH]; intros h; [reflexivity|].
  rewrite after_run_cons.
  etransitivity; [apply (step_clock_grows cfg plat e h) | apply IH].
Qed.

(** A pending reset stays pending until its time has come. *)
Lemma step_keeps_pending cfg plat e h due :
  In due (timers h) ->
  clock (after (step cfg plat e h)) < due ->
  In due (timers (after (step cfg plat e h))).
Proof.
  intros Hin Hlt.
  destruct e;
    try (match goal with
         | |- In _ (timers (after (step _ _ ?ev _))) =>
             destruct (step_keeps_timers cfg plat ev h
                         ltac:(intros; discriminate)) as [new Hnew]
         end;
         rewrite Hnew; apply in_or_app; left; assumption).
  simpl step in *. rewrite after_done in *.
  destruct (elapse_timers ms h) as [Ht Hc]. rewrite Ht. rewrite Hc in Hlt.
  apply filter_In. split; [assumption|].
  apply negb_true_iff. apply Nat.leb_gt. assumption.
Qed.

Lemma run_keeps_pending cfg plat events : forall h due,
  In due (timers h) ->
  clock (after (run cfg plat events h)) < due ->
  In due (timers (after (run cfg plat events h))).
Proof.
  induction events as [|e events IH]; intros h due Hin Hlt; [assumption|].
  rewrite after_run_cons in Hlt. rewrite after_run_cons. apply IH; [|assumption].
  apply step_keeps_pending; [assumption|].
  eapply Nat.le_lt_trans; [apply run_clock_grows | eassumption].
Qed.

(** C2 (as amended).  A final segment of the local user raises
    [isUserSpeaking] and [isTranscribing] and schedules their reset 500ms
    later.  The scheduled reset is never cancelled nor replaced: whatever
    events arrive meanwhile, speaking evidence included, it is still pending
    as long as its 500ms have not elapsed, and when they have it sets both
    flags to false.  With no older reset pending, the flags are not reset
    before the 500ms are over. *)
Theorem final_segment_reset_is_never_cancelled
    cfg plat me p publication segment h :
  Participant.identity p = me ->
  Segment.final segment = true ->
  let h1 := after (onSegment me (Some p) publication segment h) in
  (isUserSpeaking h1 = true /\ isTranscribing h1 = true
   /\ timers h1 = timers h ++ [clock h + 500] /\ clock h1 = clock h)
  /\ (forall events,
       let h2 := after (run cfg plat events h1) in
       clock h2 < clock h + 500 -> In (clock h + 500) (timers h2))
  /\ (forall events ms,
       let h2 := after (run cfg plat events h1) in
       clock h2 < clock h + 500 -> clock h + 500 <= clock h2 + ms ->
       let h3 := after (step cfg plat (time_passes ms) h2) in
       isUserSpeaking h3 = false /\ isTranscribing h3 = false)
  /\ (forall ms,
       timers h = [] -> ms < 500 ->
       let h3 := after (step cfg plat (time_passes ms) h1) in
       isUserSpeaking h3 = true /\ isTranscribing h3 = true).
Proof.
  intros Hme Hfinal h1.
  assert (Hh1 : isUserSpeaking h1 = true /\ isTranscribing h1 = true
                /\ timers h1 = timers h ++ [clock h + 500] /\ clock h1 = clock h).
  { subst h1. unfold onSegment. rewrite Hme, String.eqb_refl, Hfinal.
    destruct h; repeat split; reflexivity. }
  destruct Hh1 as (Hs & Ht & Htimers & Hclock).
  assert (Hpending : forall events,
             clock (after (run cfg plat events h1)) < clock h + 500 ->
             In (clock h + 500) (timers (after (run cfg plat events h1)))).
  { intros events Hlt. apply run_keeps_pending; [|assumption].
    rewrite Htimers. apply in_or_app. right. left. reflexivity. }
  split; [repeat split; assumption|]. split; [exact Hpending|]. split.
  - intros events ms h2 Hlt Hdue h3. subst h3. simpl step. rewrite after_done.
    apply (elapse_fires ms h2 (clock h + 500)); [apply Hpending|]; assumption.
  - intros ms Hnone Hms h3. subst h3. simpl step. rewrite after_done.
    destruct (elapse_idles ms h1) as [Hu Hv].
    + intros due Hin. rewrite Htimers, Hnone in Hin. simpl in Hin.
      destruct Hin as [Hin|[]]. lia.
    + rewrite Hu, Hv. split; assumption.
Qed.

(** *** A start attempt that fails, and one that is overtaken *)

Lemma startInference_catch_eq error h :
  startInference_catch error h
  = (Returns, set_isLoading false (set_inferenceState ERROR h),
     [console_error "Error starting unified voice session:";
      toast_error (shown error)]).
Proof. destruct error; reflexivity. Qed.

(** C7.  When [startInference] proceeds (its render saw Idle and there is an
    agent id) and its provisioning fails (the agent lookup rejects, or the
    lookup resolves and the session creation rejects), the call ends without throwing in state Error with the loading flag
    false, the message of the error (the stock message when what was thrown is
    not an [Error]) is shown in a toast, no transport connect is issued, and
    no room is built.  The same holds of the [catch] block whatever the hook
    looks like when the rejection arrives. *)
Theorem startInference_provisioning_rejects cfg target env error h :
  rendered_inferenceState (lastRender h) = IDLE ->
  truthy (or_else target (agentId cfg)) = true ->
  getAgent_settles env = Rejected error
  \/ (getAgent_settles env = Resolved tt
      /\ createLiveKitSession_settles env = Rejected error) ->
  let r := startInference_whole cfg target env h in
  (result r = Returns
   /\ inferenceState (after r) = ERROR /\ isLoading (after r) = false
   /\ In (toast_error (shown error)) (trace r)
   /\ existsb is_connect (trace r) = false
   /\ roomRef (after r) = roomRef h /\ rooms (after r) = rooms h)
  /\ (forall effectiveAgentId h0,
       let r0 := startInference_getAgent cfg effectiveAgentId (Rejected error) h0 in
       result r0 = Returns
       /\ inferenceState (after r0) = ERROR /\ isLoading (after r0) = false
       /\ trace r0 = [console_error "Error starting unified voice session:";
                      toast_error (shown error)])
  /\ (forall h0,
       let r0 := startInference_createLiveKitSession (Rejected error) h0 in
       result r0 = Returns
       /\ inferenceState (after r0) = ERROR /\ isLoading (after r0) = false
       /\ trace r0 = [console_error "Error starting unified voice session:";
                      toast_error (shown error)]).
Proof.
  intros Hidle Hid Hrej. split; [|split].
  - cbv zeta. unfold startInference_whole, startInference.
    destruct env as [g c k]; simpl in Hrej.
    unfold bind, read, write, emit, ret, result, after, trace,
      setIsLoading, setInferenceState; simpl.
    rewrite Hid; simpl. rewrite Hidle; simpl.
    destruct Hrej as [Hg | [Hg Hc]]; subst.
    + destruct error; destruct h; simpl;
        repeat split; try reflexivity;
        repeat (first [left; reflexivity | right]).
    + unfold startInference_getAgent, bind, emit, ret; simpl.
      destruct (publicEndpoint cfg); destruct error; destruct h; simpl;
        repeat split; try reflexivity;
        repeat (first [left; reflexivity | right]).
  - intros effectiveAgentId h0. simpl. rewrite startInference_catch_eq.
    destruct h0; repeat split; reflexivity.
  - intros h0. simpl. rewrite startInference_catch_eq.
    destruct h0; repeat split; reflexivity.
Qed.

Lemma same_mic_and_state_refl h : same_mic_and_state h h.
Proof. split; reflexivity. Qed.

Lemma same_mic_and_state_trans h1 h2 h3 :
  same_mic_and_state h1 h2 -> same_mic_and_state h2 h3 -> same_mic_and_state h1 h3.
Proof. unfold same_mic_and_state; intros [] []; split; congruence. Qed.

Lemma onConnected_setMicrophoneEnabled_resolved publications h :
  let r := onConnected_setMicrophoneEnabled (Resolved publications) h in
  result r = Returns /\ isMicOn (after r) = true
  /\ inferenceState (after r) = inferenceState h.
Proof.
  cbv zeta. unfold onConnected_setMicrophoneEnabled.
  rewrite !bind_unfold. unfold result at 1, after at 1; simpl.
  split; [reflexivity|].
  match goal with
  | |- context [forEach publications ?f ?h1] =>
      assert (Hloop : same_mic_and_state h1 (after (forEach publications f h1)))
  end.
  { apply (preserves_forEach _ same_mic_and_state_refl same_mic_and_state_trans).
    intros publication.
    frame_with same_mic_and_state_refl same_mic_and_state_trans
      ltac:(intros []; split; reflexivity). }
  destruct Hloop as [Hmic Hstate].
  unfold after in *; simpl in *. rewrite Hmic, Hstate.
  destruct h; split; reflexivity.
Qed.

(** C9 (as amended).  Nothing guards the continuation of a start attempt:
    there is no attempt identifier and no look at the current state.
    Whatever the hook looks like when they arrive, right after a
    [stopInference] included, a resolved agent lookup issues the session
    creation, a resolved session creation stores the descriptor, builds a
    room and issues the connect, the Connected event of a room sets
    connected = true, state = Active and loading = false and asks for the
    microphone, and the resolved microphone request sets mic-on = true. *)
Theorem stale_resolutions_take_effect cfg plat h :
  (forall effectiveAgentId,
     let r := step cfg plat (settle_getAgent effectiveAgentId (Resolved tt)) h in
     result r = Awaits await_createLiveKitSession
     /\ existsb is_provisioning (trace r) = true
     /\ after r = h)
  /\ (forall sessionData,
       let r := step cfg plat (settle_createLiveKitSession (Resolved sessionData)) h in
       result r = Awaits await_connect
       /\ sessionRef (after r) = Some sessionData
       /\ roomRef (after r) = Some (rooms h)
       /\ In (room_connect (rooms h) (url sessionData) (token sessionData)) (trace r))
  /\ (forall room me,
       let r := step cfg plat (room_emits room me Connected) h in
       result r = Awaits (await_setMicrophoneEnabled room)
       /\ isConnected (after r) = true
       /\ inferenceState (after r) = ACTIVE
       /\ isLoading (after r) = false
       /\ In (setMicrophoneEnabled room true) (trace r))
  /\ (forall room publications,
       let r := step cfg plat
                  (settle_setMicrophoneEnabled room (Resolved publications)) h in
       result r = Returns /\ isMicOn (after r) = true
       /\ inferenceState (after r) = inferenceState h).
Proof.
  split; [|split; [|split]].
  - intros effectiveAgentId. simpl.
    unfold startInference_getAgent, bind, emit, ret, result, after, trace; simpl.
    destruct (publicEndpoint cfg); repeat split; reflexivity.
  - intros sessionData. simpl. destruct h. repeat split.
    simpl. right; left; reflexivity.
  - intros room me. simpl. destruct h. repeat split.
    simpl. right; left; reflexivity.
  - intros room publications. simpl step.
    apply onConnected_setMicrophoneEnabled_resolved.
Qed.

(** ** A session, from start to stop *)

Example scenario_active :
  inferenceState Scenario.active = ACTIVE
  /\ isMicOn Scenario.active = true
  /\ isConnected Scenario.active = true
  /\ isLoading Scenario.active = false
  /\ sessionRef Scenario.active = Some Scenario.s1
  /\ roomRef Scenario.active = Some 0.
Proof. vm_compute. repeat split; reflexivity. Qed.

Example scenario_talked :
  Scenario.talked
  = after (run Scenario.config Scenario.browser Scenario.talking Scenario.active).
Proof. vm_compute. reflexivity. Qed.

Example scenario_hello :
  let heard :=
    after (run Scenario.config Scenario.browser
             [room_emits 0 "local"
                (TranscriptionReceived [Scenario.said "hello" true]
                   (Some Scenario.me) None)]
             Scenario.active) in
  map view (transcription heard) = [(user, "hello", true)]
  /\ isUserSpeaking heard = true
  /\ isUserSpeaking
       (after (run Scenario.config Scenario.browser [time_passes 500] heard))
     = false.
Proof. vm_compute. repeat split; reflexivity. Qed.

Example scenario_export :
  let at_ten := 10 * 3600 * 1000 in
  let entries :=
    [ {| id := "trans_0"; text := "hi"; speaker := user; timestamp := at_ten;
         isFinal := true; confidence := None; source := Some "livekit";
         participantId := Some "local"; trackId := None |};
      {| id := "trans_1"; text := "hello"; speaker := agent; timestamp := at_ten;
         isFinal := false; confidence := None; source := Some "livekit";
         participantId := Some "agent"; trackId := None |} ] in
  trace (saveTranscription Scenario.browser (Resolved tt)
           (render (set_clock at_ten (set_transcription entries initial))))
  = [download "transcription_2025-01-15.txt" "[10:00:00] user: hi";
     console_log "Transcription saved"].
Proof. vm_compute. reflexivity. Qed.

(** ** Where the code departs from the stated claims *)

(** C1.  Two calls of [startInference] in one tick, before React has
    rendered again: the first has written Connecting to the state, the second
    still passes the guard and looks the agent up again.  And a start, a stop
    and a second start, each of them rendered, leave two attempts under way:
    with the state at Connecting, both create a session and both connect. *)
Lemma second_start_proceeds_while_connecting :
  let start := call_startInference (Some "agent-42") in
  let once := step Scenario.config Scenario.browser start initial in
  let again := step Scenario.config Scenario.browser start (after once) in
  let restarted :=
    after (run Scenario.config Scenario.browser
             [start; renders; call_stopInference; renders; start; renders]
             initial) in
  let both :=
    run Scenario.config Scenario.browser
      [settle_getAgent "agent-42" (Resolved tt);
       settle_getAgent "agent-42" (Resolved tt);
       settle_createLiveKitSession (Resolved Scenario.s1);
       settle_createLiveKitSession (Resolved Scenario.s1)]
      restarted in
  (inferenceState (after once) = CONNECTING
   /\ rendered_inferenceState (lastRender (after once)) = IDLE
   /\ result again = Awaits (await_getAgent "agent-42")
   /\ trace again = [console_log "Starting unified LiveKit session for agent:";
                     publicAgentAPI_getAgent "agent-42"])
  /\ (inferenceState restarted = CONNECTING
      /\ rendered_inferenceState (lastRender restarted) = CONNECTING
      /\ filter (fun e => is_provisioning e || is_connect e) (trace both)
         = [agentAPI_createLiveKitSession "agent-42";
            agentAPI_createLiveKitSession "agent-42";
            room_connect 0 "wss://x" "t";
            room_connect 1 "wss://x" "t"]
      /\ inferenceState (after both) = CONNECTING).
Proof. vm_compute. repeat split; reflexivity. Qed.

(** C3.  In a browser of the en-US locale an entry made ten seconds past
    midnight is written out as "[12:00:10 AM] user: hi": the time between the
    brackets is not of the form HH:MM:SS.  And when the transcript is
    cleared and saved in the same tick, the file still holds the entry: the
    export is of the transcript that the render saw. *)
Lemma export_follows_the_locale_and_the_render :
  let at_ten := 10 * 1000 in
  let entry :=
    {| id := "trans_0"; text := "hi"; speaker := user; timestamp := at_ten;
       isFinal := true; confidence := None; source := Some "livekit";
       participantId := Some "local"; trackId := None |} in
  let h := render (set_clock at_ten (set_transcription [entry] initial)) in
  let cleared := step Scenario.config Scenario.browser call_clearTranscription h in
  (trace (saveTranscription Scenario.en_US (Resolved tt) h)
   = [download "transcription_2025-01-15.txt" "[12:00:10 AM] user: hi";
      console_log "Transcription saved"]
   /\ Exported.is_HHMMSS "12:00:10 AM" = false
   /\ Exported.is_HHMMSS "00:00:10" = true)
  /\ (transcription (after cleared) = []
      /\ trace (saveTranscription Scenario.browser (Resolved tt) (after cleared))
         = [download "transcription_2025-01-15.txt" "[00:00:10] user: hi";
            console_log "Transcription saved"]).
Proof. vm_compute. repeat split; reflexivity. Qed.

(** C4.  With a session playing, a disconnect that rejects leaves the hook
    Active, connected, with the microphone on and the references set.  And
    when the agent's track has been unsubscribed before the stop, the audio
    element that the hook had appended for it has lost its stream and is
    passed over by the sweep: [stopInference] returns with the hook idle and
    the element still in the document, which held no audio element before
    the session. *)
Lemma stopInference_leaves_active_or_an_element :
  let thrown :=
    stopInference_whole Scenario.config
      {| fetch_settles := Resolved tt;
         disconnect_settles := Rejected (JsError "could not disconnect") |}
      Scenario.playing in
  let unsubscribed :=
    after (run Scenario.config Scenario.browser
             [room_emits 0 "local" (TrackUnsubscribed Scenario.voice)]
             Scenario.playing) in
  let returned :=
    stopInference_whole Scenario.config Scenario.all_fine unsubscribed in
  (result thrown = Throws (JsError "could not disconnect")
   /\ inferenceState (after thrown) = ACTIVE
   /\ isConnected (after thrown) = true
   /\ isMicOn (after thrown) = true
   /\ sessionRef (after thrown) = Some Scenario.s1
   /\ roomRef (after thrown) = Some 0)
  /\ (audioElements Scenario.active = []
      /\ audioElements Scenario.playing = [RemoteTrack.attach Scenario.voice]
      /\ result returned = Returns
      /\ inferenceState (after returned) = IDLE
      /\ audioElements (after returned) = [{| element := 0; srcObject := None |}]).
Proof. vm_compute. repeat split; reflexivity. Qed.

(** C5.  With a session playing, [stopInference] is called twice in a row,
    the second call while the first is still awaiting (an explicit stop
    followed by the stop of the unmount): the session-end request is sent
    twice and the room is asked to disconnect twice.  And when the
    disconnect of a first call has rejected, a second call sends the
    session-end request and the disconnect again. *)
Lemma overlapping_stops_release_twice :
  let overlapping :=
    run Scenario.config Scenario.browser
      [call_stopInference; call_stopInference;
       settle_fetch (Resolved tt); settle_fetch (Resolved tt);
       settle_disconnect (Resolved tt); settle_disconnect (Resolved tt)]
      Scenario.playing in
  let once :=
    stopInference_whole Scenario.config
      {| fetch_settles := Resolved tt;
         disconnect_settles := Rejected (JsError "could not disconnect") |}
      Scenario.playing in
  let again := stopInference_whole Scenario.config Scenario.all_fine (after once) in
  filter is_release (trace overlapping)
  = [fetch_session_end "s1" true; fetch_session_end "s1" true;
     room_disconnect 0; room_disconnect 0;
     audio_remove (RemoteTrack.attach Scenario.voice)]
  /\ result once = Throws (JsError "could not disconnect")
  /\ filter is_release (trace once) = [fetch_session_end "s1" true; room_disconnect 0]
  /\ result again = Returns
  /\ filter is_release (trace again)
     = [fetch_session_end "s1" true; room_disconnect 0;
        audio_remove (RemoteTrack.attach Scenario.voice)].
Proof. vm_compute. repeat split; reflexivity. Qed.

(** C2.  The local user ends an utterance at 0ms and starts the next one at
    100ms: the flags are up and the reset scheduled at 0ms is still pending,
    neither cancelled nor replaced.  At 500ms it fires and takes both flags
    down, overwriting the newer evidence. *)
Lemma stale_reset_overwrites_new_evidence :
  let speaking_again :=
    after (run Scenario.config Scenario.browser
             [room_emits 0 "local"
                (TranscriptionReceived [Scenario.said "hello" true]
                   (Some Scenario.me) None);
              time_passes 100;
              room_emits 0 "local"
                (TranscriptionReceived [Scenario.said "and" false]
                   (Some Scenario.me) None)]
             Scenario.active) in
  let later :=
    after (step Scenario.config Scenario.browser (time_passes 400) speaking_again) in
  (isUserSpeaking speaking_again = true
   /\ isTranscribing speaking_again = true
   /\ clock speaking_again = 100
   /\ timers speaking_again = [500])
  /\ (clock later = 500
      /\ isUserSpeaking later = false
      /\ isTranscribing later = false).
Proof. vm_compute. repeat split; reflexivity. Qed.

(** C6.  With a session playing, a disconnect that rejects is neither logged
    nor absorbed: [stopInference] throws it, the audio element stays in the
    document, and the state and the flags are not reset. *)
Lemma rejected_disconnect_escapes_stopInference :
  let r :=
    stopInference_whole Scenario.config
      {| fetch_settles := Resolved tt;
         disconnect_settles := Rejected (JsError "could not disconnect") |}
      Scenario.playing in
  result r = Throws (JsError "could not disconnect")
  /\ trace r = [fetch_session_end "s1" true; room_disconnect 0]
  /\ inferenceState (after r) = ACTIVE
  /\ isConnected (after r) = true
  /\ isMicOn (after r) = true
  /\ sessionRef (after r) = Some Scenario.s1
  /\ audioElements (after r) = [RemoteTrack.attach Scenario.voice].
Proof. vm_compute. repeat split; reflexivity. Qed.

(** C8.  After one segment and a clear, the change counter stands at 2 and
    the id counter at 1: neither is back at its initial value 0. *)
Lemma clearTranscription_resets_no_counter :
  let cleared :=
    after (run Scenario.config Scenario.browser
             [room_emits 0 "local"
                (TranscriptionReceived [Scenario.said "hello" true]
                   (Some Scenario.me) None);
              call_clearTranscription]
             Scenario.active) in
  transcription cleared = []
  /\ transcriptionUpdateTrigger cleared = 2
  /\ transcriptionIdCounter cleared = 1
  /\ transcriptionUpdateTrigger cleared <> transcriptionUpdateTrigger initial
  /\ transcriptionIdCounter cleared <> transcriptionIdCounter initial.
Proof. vm_compute. repeat split; try reflexivity; discriminate. Qed.

(** C9.  [stopInference] is called while the agent lookup of a start attempt
    is in flight and brings the hook to Idle.  The lookup then resolves: the
    attempt goes on, connects, and the hook ends up Active, connected, with
    the microphone on. *)
Lemma stopped_attempt_still_activates :
  let stopped_early :=
    after (run Scenario.config Scenario.browser
             [call_startInference (Some "agent-42"); call_stopInference] initial) in
  let resumed :=
    run Scenario.config Scenario.browser
      [settle_getAgent "agent-42" (Resolved tt);
       settle_createLiveKitSession (Resolved Scenario.s1);
       room_emits 0 "local" Connected;
       settle_connect (Resolved tt);
       settle_setMicrophoneEnabled 0 (Resolved [])]
      stopped_early in
  inferenceState stopped_early = IDLE
  /\ inferenceState (after resumed) = ACTIVE
  /\ isConnected (after resumed) = true
  /\ isMicOn (after resumed) = true
  /\ In (room_connect 0 "wss://x" "t") (trace resumed)
  /\ In (setMicrophoneEnabled 0 true) (trace resumed).
Proof.
  vm_compute. repeat split; try reflexivity.
  - do 3 right. left. reflexivity.
  - do 5 right. left. reflexivity.
Qed.

(** ** The theorems at work on the scenario *)

Lemma startInference_only_from_idle_witness :
  rendered_inferenceState (lastRender Scenario.active) <> IDLE
  /\ after (run Scenario.config Scenario.browser
              (map call_startInference [None; Some "agent-7"]) Scenario.active)
     = Scenario.active.
Proof.
  assert (H : rendered_inferenceState (lastRender Scenario.active) <> IDLE)
    by (vm_compute; discriminate).
  split; [exact H|].
  exact (proj1 (proj1 (proj2
    (startInference_only_from_idle Scenario.config Scenario.browser
       [None; Some "agent-7"] Scenario.active H)))).
Defined.

Lemma transcript_in_arrival_order_witness :
  Exported.lines
    (Exported.content (toLocaleTimeString Scenario.browser)
       (rendered_transcription (lastRender Scenario.talked)))
  = ["[00:00:00] user: hello"; "[00:00:00] agent: hi there"]
  /\ (forall t, Exported.is_HHMMSS (toLocaleTimeString Scenario.browser t) = true).
Proof.
  split; [|exact browser_prints_HHMMSS].
  refine (proj1 (proj2 (proj1 (proj2 (proj2
    (transcript_in_arrival_order Scenario.config Scenario.browser []
       Scenario.talked))))) _ _).
  - discriminate.
  - intros entry [<-|[<-|[]]]; split; reflexivity.
Defined.

Lemma final_segment_reset_is_never_cancelled_witness :
  Participant.identity Scenario.me = "local"
  /\ Segment.final (Scenario.said "hello" true) = true
  /\ timers (after (onSegment "local" (Some Scenario.me) None
                      (Scenario.said "hello" true) Scenario.active))
     = [500].
Proof.
  split; [reflexivity|]. split; [reflexivity|].
  exact (proj1 (proj2 (proj2 (proj1
    (final_segment_reset_is_never_cancelled Scenario.config Scenario.browser
       "local" Scenario.me None (Scenario.said "hello" true) Scenario.active
       eq_refl eq_refl))))).
Defined.

Lemma stopInference_leaves_idle_witness :
  result (stopInference_whole Scenario.config Scenario.all_fine Scenario.playing)
  = Returns
  /\ inferenceState
       (after (stopInference_whole Scenario.config Scenario.all_fine Scenario.playing))
     = IDLE.
Proof.
  assert (H : result (stopInference_whole Scenario.config Scenario.all_fine
                        Scenario.playing) = Returns) by (vm_compute; reflexivity).
  split; [exact H|].
  exact (proj1 (proj1 (proj2
    (stopInference_leaves_idle Scenario.config Scenario.all_fine Scenario.playing))
    H)).
Defined.

Lemma stopInference_twice_witness :
  stop_succeeds Scenario.all_fine Scenario.playing = true
  /\ after (stopInference_whole Scenario.config Scenario.all_fine
              (after (stopInference_whole Scenario.config Scenario.all_fine
                        Scenario.playing)))
     = after (stopInference_whole Scenario.config Scenario.all_fine Scenario.playing).
Proof.
  assert (H : stop_succeeds Scenario.all_fine Scenario.playing = true)
    by (vm_compute; reflexivity).
  split; [exact H|].
  exact (proj1 (proj2 (proj2 (proj1
    (stopInference_twice Scenario.config Scenario.all_fine Scenario.all_fine
       Scenario.playing) H)))).
Defined.

Lemma stopInference_absorbs_backend_failure_witness :
  sessionRef Scenario.playing = Some Scenario.s1
  /\ truthy (sessionId Scenario.s1) = true
  /\ stopInference Scenario.config Scenario.playing
     = (Awaits await_fetch, Scenario.playing, [fetch_session_end "s1" true]).
Proof.
  assert (H : sessionRef Scenario.playing = Some Scenario.s1)
    by (vm_compute; reflexivity).
  split; [exact H|]. split; [reflexivity|].
  exact (proj1
    (proj1 (stopInference_absorbs_backend_failure Scenario.config Scenario.playing)
       Scenario.s1 H eq_refl)).
Defined.

Lemma startInference_provisioning_rejects_witness :
  rendered_inferenceState (lastRender initial) = IDLE
  /\ truthy (or_else (Some "agent-42") (agentId Scenario.config)) = true
  /\ inferenceState
       (after (startInference_whole Scenario.config (Some "agent-42")
                 {| getAgent_settles := Rejected (JsError "Network Error");
                    createLiveKitSession_settles := Resolved Scenario.s1;
                    connect_settles := Resolved tt |}
                 initial))
     = ERROR.
Proof.
  split; [reflexivity|]. split; [reflexivity|].
  exact (proj1 (proj2 (proj1
    (startInference_provisioning_rejects Scenario.config (Some "agent-42")
       {| getAgent_settles := Rejected (JsError "Network Error");
          createLiveKitSession_settles := Resolved Scenario.s1;
          connect_settles := Resolved tt |}
       (JsError "Network Error") initial eq_refl eq_refl
       (or_introl eq_refl))))).
Defined.

(** ** Beyond the claims: the counters of the transcript *)


Lemma after_onTranscriptionReceived cfg plat room me segments participant publication h :
  after (step cfg plat
           (room_emits room me (TranscriptionReceived segments participant publication)) h)
  = after (forEach segments (onSegment me participant publication) h).
Proof.
  simpl step. unfold dispatch. rewrite after_done.
  unfold onTranscriptionReceived. rewrite after_bind. reflexivity.
Qed.

Lemma decimal_inj n m : decimal n = decimal m -> n = m.
Proof.
  unfold decimal. intros H.
  assert (Hnil : forall k, Nat.to_uint k <> Decimal.Nil).
  { intros k Hk. pose proof (Unsigned.of_to k) as Hof. rewrite Hk in Hof.
    simpl in Hof. subst k. discriminate Hk. }
  pose proof (NilZero.usu (Nat.to_uint n) (Hnil n)) as Hn.
  pose proof (NilZero.usu (Nat.to_uint m) (Hnil m)) as Hm.
  rewrite H, Hm in Hn. injection Hn as Hn.
  apply Unsigned.to_uint_inj. symmetry. exact Hn.
Qed.

Lemma entry_id_inj n m :
  ("trans_" ++ decimal n)%string = ("trans_" ++ decimal m)%string -> n = m.
Proof. simpl. intros H. injection H as H. apply decimal_inj; exact H. Qed.

Lemma same_counters_refl h : same_counters h h.
Proof. split; reflexivity. Qed.

Lemma same_counters_trans h1 h2 h3 :
  same_counters h1 h2 -> same_counters h2 h3 -> same_counters h1 h3.
Proof. unfold same_counters; intros [] []; split; congruence. Qed.

Lemma onSegment_counts me participant publication segment h :
  let h' := after (onSegment me participant publication segment h) in
  transcriptionUpdateTrigger h' = transcriptionUpdateTrigger h + 1
  /\ transcriptionIdCounter h' = transcriptionIdCounter h + 1.
Proof.
  unfold onSegment.
  destruct participant as [p|]; [destruct (Participant.identity p =? me)|];
    destruct (Segment.final segment); destruct h; split; reflexivity.
Qed.

Lemma onSegments_count me participant publication segments : forall h,
  let h' := after (forEach segments (onSegment me participant publication) h) in
  transcriptionUpdateTrigger h' = transcriptionUpdateTrigger h + List.length segments
  /\ transcriptionIdCounter h' = transcriptionIdCounter h + List.length segments.
Proof.
  induction segments as [|segment segments IH]; intros h; cbv zeta.
  - unfold after; simpl. split; lia.
  - rewrite after_forEach_cons.
    destruct (IH (after (onSegment me participant publication segment h))) as [Ht Hc].
    destruct (onSegment_counts me participant publication segment h) as [Ht1 Hc1].
    rewrite Ht, Hc, Ht1, Hc1. simpl List.length. split; lia.
Qed.

Lemma step_counts cfg plat e h :
  let h' := after (step cfg plat e h) in
  transcriptionUpdateTrigger h' = transcriptionUpdateTrigger h + writes_of e
  /\ transcriptionIdCounter h' = transcriptionIdCounter h + segments_of e.
Proof.
  assert (Hframe : forall e0, writes_of e0 = 0 -> segments_of e0 = 0 ->
            (forall room me participant publication,
               e0 <> room_emits room me
                       (TranscriptionReceived [] participant publication)) ->
            preserves same_counters (step cfg plat e0)).
  { intros e0 Hw Hs Hempty.
    destruct e0; simpl step;
      try solve [ frame_with same_counters_refl same_counters_trans
                    ltac:(intros []; split; reflexivity) ];
      try discriminate Hw.
    destruct e0; simpl dispatch;
      try solve [ frame_with same_counters_refl same_counters_trans
                    ltac:(intros []; split; reflexivity) ].
    destruct segments; [|discriminate Hw]. exfalso. eapply Hempty. reflexivity. }
  cbv zeta.
  destruct e as [| | | |room me [| | | | | | | | |segments participant publication]
                 | | | | | | | | | | | |];
    try (match goal with
         | |- context [step _ _ ?ev _] =>
             destruct (Hframe ev eq_refl eq_refl ltac:(discriminate) h) as [Ht Hc]
         end;
         rewrite Ht, Hc; simpl; split; lia).
  - rewrite after_onTranscriptionReceived. apply onSegments_count.
  - destruct h; unfold after; simpl; split; lia.
Qed.

(** X1.  The two counters count the writes of the transcript and nothing
    else: after any events the change counter has grown by the number of
    segments received plus the number of clears, and the id counter by the
    number of segments received.  So neither ever goes down, and a stop, a
    disconnect or an error leaves both alone. *)
Theorem counters_count_writes cfg plat events h :
  let h' := after (run cfg plat events h) in
  transcriptionUpdateTrigger h'
  = transcriptionUpdateTrigger h + total writes_of events
  /\ transcriptionIdCounter h'
     = transcriptionIdCounter h + total segments_of events.
Proof.
  revert h. induction events as [|e events IH]; intros h; cbv zeta.
  - unfold after; simpl. split; lia.
  - rewrite after_run_cons.
    destruct (IH (after (step cfg plat e h))) as [Ht Hc].
    destruct (step_counts cfg plat e h) as [Ht1 Hc1].
    rewrite Ht, Hc, Ht1, Hc1. simpl total. split; lia.
Qed.

(** *** Entry ids *)

Lemma ids_below_NoDup n entries :
  ids_below n entries -> NoDup (map id entries).
Proof.
  intros (ks & Hids & _ & Hnodup). rewrite Hids. clear Hids.
  induction Hnodup as [|k ks Hk Hnodup IH]; simpl; constructor; [|exact IH].
  intros Hin. apply in_map_iff in Hin. destruct Hin as (k' & Heq & Hin').
  apply entry_id_inj in Heq. subst k'. contradiction.
Qed.

Lemma ids_below_weaken n m entries :
  n <= m -> ids_below n entries -> ids_below m entries.
Proof.
  intros Hle (ks & Hids & Hlt & Hnodup). exists ks. repeat split; try assumption.
  eapply Forall_impl; [|exact Hlt]. simpl. intros; lia.
Qed.

Lemma onSegment_ids me participant publication segment h :
  ids_below (transcriptionIdCounter h) (transcription h) ->
  let h' := after (onSegment me participant publication segment h) in
  ids_below (transcriptionIdCounter h') (transcription h').
Proof.
  intros (ks & Hids & Hlt & Hnodup) h'. subst h'.
  destruct (onSegment_appends me participant publication segment h)
    as (entry & Hentry & _ & Hid & _).
  destruct (onSegment_counts me participant publication segment h) as [_ Hc].
  rewrite Hentry, Hc. exists (ks ++ [transcriptionIdCounter h]). repeat split.
  - rewrite !map_app, Hids. simpl. rewrite Hid. reflexivity.
  - apply Forall_app. split.
    + eapply Forall_impl; [|exact Hlt]. simpl. intros; lia.
    + constructor; [lia|constructor].
  - apply NoDup_app_remove_l with (l := []). simpl.
    apply NoDup_rev in Hnodup.
    assert (Hn : NoDup (rev (ks ++ [transcriptionIdCounter h]))).
    { rewrite rev_app_distr. simpl. constructor; [|exact Hnodup].
      intros Hin. apply in_rev in Hin.
      rewrite Forall_forall in Hlt. specialize (Hlt _ Hin). lia. }
    apply NoDup_rev in Hn. rewrite rev_involutive in Hn. exact Hn.
Qed.

Lemma onSegments_ids me participant publication segments : forall h,
  ids_below (transcriptionIdCounter h) (transcription h) ->
  let h' := after (forEach segments (onSegment me participant publication) h) in
  ids_below (transcriptionIdCounter h') (transcription h').
Proof.
  induction segments as [|segment segments IH]; intros h Hinv; cbv zeta.
  - exact Hinv.
  - rewrite after_forEach_cons.
    apply IH. apply onSegment_ids. exact Hinv.
Qed.

Lemma step_ids cfg plat e h :
  ids_below (transcriptionIdCounter h) (transcription h) ->
  let h' := after (step cfg plat e h) in
  ids_below (transcriptionIdCounter h') (transcription h').
Proof.
  intros Hinv. cbv zeta.
  destruct e as [| | | |room me [| | | | | | | | |segments participant publication]
                 | | | | | | | | | | | |];
    try (match goal with
         | |- ids_below _ (transcription (after (step _ _ ?ev _))) =>
             rewrite (step_same_transcript cfg plat ev h eq_refl
                        ltac:(discriminate) ltac:(discriminate));
             destruct (step_counts cfg plat ev h) as [_ Hc]; rewrite Hc
         end;
         simpl segments_of; rewrite Nat.add_0_r; exact Hinv).
  - rewrite after_onTranscriptionReceived. apply onSegments_ids. exact Hinv.
  - exists []. repeat split; constructor.
Qed.

(** X2.  Entry ids are unique.  If the ids of the transcript were drawn from
    the id counter (as they are in the initial hook, whose transcript is
    empty), then after any events, clears, stops and restarts included, they
    still are, and no two entries of the transcript share an id. *)
Theorem entry_ids_stay_unique cfg plat events h :
  ids_below (transcriptionIdCounter h) (transcription h) ->
  let h' := after (run cfg plat events h) in
  ids_below (transcriptionIdCounter h') (transcription h')
  /\ NoDup (map id (transcription h')).
Proof.
  intros Hinv h'.
  assert (H : ids_below (transcriptionIdCounter h') (transcription h')).
  { subst h'. revert h Hinv.
    induction events as [|e events IH]; intros h Hinv; [exact Hinv|].
    rewrite after_run_cons. apply IH. apply step_ids. exact Hinv. }
  split; [exact H|]. eapply ids_below_NoDup. exact H.
Qed.

(** ** Beyond the claims: the speaking and transcribing flags *)

Lemma same_transcribing_refl h : same_transcribing h h.
Proof. reflexivity. Qed.

Lemma same_transcribing_trans h1 h2 h3 :
  same_transcribing h1 h2 -> same_transcribing h2 h3 -> same_transcribing h1 h3.
Proof. unfold same_transcribing; congruence. Qed.

Lemma onSegment_flags me participant publication segment h :
  let mine := match participant with
              | Some p => is_me me p
              | None => false
              end in
  let h' := after (onSegment me participant publication segment h) in
  isUserSpeaking h' = mine || isUserSpeaking h
  /\ isTranscribing h' = mine || isTranscribing h.
Proof.
  unfold onSegment, is_me.
  destruct participant as [p|]; [destruct (Participant.identity p =? me)|];
    destruct (Segment.final segment); destruct h; split; reflexivity.
Qed.

Lemma onSegments_flags me participant publication segments : forall h,
  let mine := match participant with
              | Some p => is_me me p
              | None => false
              end in
  let some := match segments with [] => false | _ :: _ => true end in
  let h' := after (forEach segments (onSegment me participant publication) h) in
  isUserSpeaking h' = (some && mine) || isUserSpeaking h
  /\ isTranscribing h' = (some && mine) || isTranscribing h.
Proof.
  induction segments as [|segment segments IH]; intros h; cbv zeta.
  - split; reflexivity.
  - rewrite after_forEach_cons.
    destruct (IH (after (onSegment me participant publication segment h)))
      as [Hs Ht].
    destruct (onSegment_flags me participant publication segment h) as [Hs1 Ht1].
    cbv zeta in *. rewrite Hs, Ht, Hs1, Ht1.
    destruct segments; destruct (match participant with Some p => _ | None => _ end);
      simpl; split; reflexivity.
Qed.

Lemma existsb_filter A (p : A -> bool) l :
  existsb p l = match filter p l with [] => false | _ :: _ => true end.
Proof.
  induction l as [|a l IH]; [reflexivity|]; simpl.
  destruct (p a); simpl; [reflexivity | exact IH].
Qed.

(** X3.  The transcribing flag has two movers only.  A transcription event
    that carries at least one segment of the local participant raises it, a
    reset timer that falls due lowers it; every other event (a stop, a
    disconnect, a mute, a failure, a clear of the transcript) leaves it as it
    was, so it can stay up after the session is gone. *)
Theorem isTranscribing_has_two_movers cfg plat e h :
  isTranscribing (after (step cfg plat e h))
  = match e with
    | time_passes ms =>
        if existsb (fun due => (due <=? clock h + ms)%nat) (timers h)
        then false else isTranscribing h
    | _ => transcribes_me e || isTranscribing h
    end.
Proof.
  assert (Hframe : forall e0,
            (forall room me segments participant publication,
               e0 <> room_emits room me
                       (TranscriptionReceived segments participant publication)) ->
            (forall ms, e0 <> time_passes ms) ->
            preserves same_transcribing (step cfg plat e0)).
  { intros e0 Hseg Htime.
    destruct e0; simpl step;
      try solve [ frame_with same_transcribing_refl same_transcribing_trans
                    ltac:(intros []; reflexivity) ].
    - destruct e0; simpl dispatch;
        try solve [ frame_with same_transcribing_refl same_transcribing_trans
                      ltac:(intros []; reflexivity) ].
      exfalso. eapply Hseg. reflexivity.
    - exfalso. eapply Htime. reflexivity. }
  destruct e as [| | | |room me [| | | | | | | | |segments participant publication]
                 | | | | | | | | | | |ms|];
    try (match goal with
         | |- context [step _ _ ?ev _] =>
             rewrite (Hframe ev ltac:(discriminate) ltac:(discriminate) h)
         end; reflexivity).
  - rewrite after_onTranscriptionReceived.
    destruct (onSegments_flags me participant publication segments h) as [_ Ht].
    cbv zeta in Ht. rewrite Ht. unfold transcribes_me.
    destruct segments; destruct participant; reflexivity.
  - simpl step. rewrite after_done, elapse_after, existsb_filter. cbv zeta.
    destruct (filter _ (timers h)); destruct h; reflexivity.
Qed.

(** X4.  After an event of a room, whether the user is held to be speaking
    depends on that event and on what was held before it, and on nothing
    else: a disconnect says no; a change of the active speakers says whether
    the local participant is among them; the local participant publishing
    (unpublishing) an audio track says yes (no); a transcription with at
    least one segment of the local participant says yes; any other event,
    and any of these about another participant or a video track, leaves the
    flag as it was. *)
Theorem isUserSpeaking_follows_last_evidence cfg plat room me e h :
  isUserSpeaking (after (step cfg plat (room_emits room me e) h))
  = speaking_after me e (isUserSpeaking h).
Proof.
  destruct e as [| | | |speakers|publication participant|publication participant
                 |track|track|segments participant publication].
  - destruct h; reflexivity.
  - destruct h; reflexivity.
  - destruct h; reflexivity.
  - destruct h; reflexivity.
  - simpl step. unfold dispatch. rewrite after_done.
    unfold onActiveSpeakersChanged, speaking_after.
    change (fun s : Participant.t => Participant.identity s =? me) with (is_me me).
    destruct (existsb (is_me me) speakers);
      destruct (existsb _ speakers); destruct h; reflexivity.
  - simpl step. unfold dispatch. rewrite after_done.
    unfold onTrackPublished, speaking_after, is_me.
    destruct (_ && _); destruct h; reflexivity.
  - simpl step. unfold dispatch. rewrite after_done.
    unfold onTrackUnpublished, speaking_after, is_me.
    destruct (_ && _); destruct h; reflexivity.
  - simpl step. unfold dispatch. rewrite after_done.
    unfold onTrackSubscribed, speaking_after.
    destruct (TrackKind_eqb _ _); destruct h; reflexivity.
  - simpl step. unfold dispatch. rewrite after_done.
    unfold onTrackUnsubscribed, speaking_after.
    destruct (TrackKind_eqb _ _); destruct h; reflexivity.
  - rewrite after_onTranscriptionReceived.
    destruct (onSegments_flags me participant publication segments h) as [Hs _].
    cbv zeta in Hs. rewrite Hs. unfold speaking_after.
    destruct segments; destruct participant as [p|]; reflexivity.
Qed.

(** ** Beyond the claims: what the hook never does *)


(** *** The audio-track reference *)

Lemma track_stays_null_refl h : track_stays_null h h.
Proof. intros H; exact H. Qed.

Lemma track_stays_null_trans h1 h2 h3 :
  track_stays_null h1 h2 -> track_stays_null h2 h3 -> track_stays_null h1 h3.
Proof. unfold track_stays_null; auto. Qed.

Lemma step_track_stays_null cfg plat e h :
  audioTrackRef h = None -> audioTrackRef (after (step cfg plat e h)) = None.
Proof.
  revert h. change (preserves track_stays_null (step cfg plat e)).
  destruct e; simpl step;
    solve [ frame_with track_stays_null_refl track_stays_null_trans
              ltac:(intros []; unfold track_stays_null; simpl; intros;
                    first [assumption | reflexivity]) ].
Qed.

Lemma step_elsewhere_stops_no_track cfg plat e :
  e <> call_stopInference -> (forall o, e <> settle_fetch o) ->
  emits_only (fun x => negb (is_track_stop x)) (step cfg plat e).
Proof.
  intros Hstop Hfetch.
  destruct e; simpl step; try solve [emits_only].
  - exfalso. apply Hstop. reflexivity.
  - exfalso. eapply Hfetch. reflexivity.
Qed.

Opaque stopInference_reset.

Lemma step_stops_no_track cfg plat e h :
  audioTrackRef h = None ->
  existsb is_track_stop (trace (step cfg plat e h)) = false.
Proof.
  intros Hnone.
  pose proof (step_elsewhere_stops_no_track cfg plat) as Hquiet.
  assert (Hreset : forall h0,
            existsb is_track_stop (stopInference_reset_trace h0) = false).
  { intros h0. unfold stopInference_reset_trace.
    rewrite existsb_app, existsb_map_audio_remove by reflexivity. reflexivity. }
  destruct e as [| | | | | | | | |o| | | | | | |];
    try (match goal with
         | |- context [step _ _ ?ev _] =>
             pose proof (Hquiet ev ltac:(discriminate) ltac:(discriminate) h) as Hq
         end;
         rewrite forallb_negb_existsb in Hq;
         apply negb_true_iff in Hq; exact Hq).
  - simpl step.
    destruct (sessionRef h) as [s|] eqn:?;
      [destruct (truthy (sessionId s)) eqn:?|];
      destruct (roomRef h) as [r|] eqn:?;
      destruct h; stop_compute; rewrite ?app_nil_r, ?Hreset; reflexivity.
  - simpl step.
    destruct o as [[]|]; destruct (roomRef h) as [r|] eqn:?;
      destruct h; stop_compute; rewrite ?app_nil_r, ?Hreset; reflexivity.
Qed.

Transparent stopInference_reset.

(** X5.  Nothing in the hook ever stores an audio track: if the audio-track
    reference is null (as it is in the initial hook) it is null after any
    events, and [stopInference] never calls [stop()] on a track; the
    track-stopping step of the cleanup never runs. *)
Theorem audio_track_is_never_held cfg plat events h :
  audioTrackRef h = None ->
  audioTrackRef (after (run cfg plat events h)) = None
  /\ existsb is_track_stop (trace (run cfg plat events h)) = false.
Proof.
  revert h. induction events as [|e events IH]; intros h Hnone.
  - split; [exact Hnone | reflexivity].
  - rewrite after_run_cons, trace_run_cons, existsb_app.
    destruct (IH _ (step_track_stays_null cfg plat e h Hnone)) as [Ha Ht].
    rewrite Ha, Ht, (step_stops_no_track cfg plat e h Hnone). split; reflexivity.
Qed.

(** *** The audio elements of the page *)

Lemma keeps_plain_audio_refl h : keeps_plain_audio h h.
Proof. intros a _ H; exact H. Qed.

Lemma keeps_plain_audio_trans h1 h2 h3 :
  keeps_plain_audio h1 h2 -> keeps_plain_audio h2 h3 -> keeps_plain_audio h1 h3.
Proof. unfold keeps_plain_audio; auto. Qed.

Lemma stopInference_reset_keeps_plain_audio :
  preserves keeps_plain_audio stopInference_reset.
Proof.
  intros h a Ha Hin. rewrite stopInference_reset_eq. unfold after; simpl.
  apply filter_In. split; [exact Hin | rewrite Ha; reflexivity].
Qed.

Lemma detached_plain attached a :
  has_srcObject a = false -> detached attached a = a.
Proof.
  unfold has_srcObject, detached. destruct a as [n [stream|]]; simpl;
    [discriminate|]. intros _. destruct (n =? element attached)%nat; reflexivity.
Qed.

Ltac keeps_plain_audio_write :=
  idtac;
  let h0 := fresh "h" in let a := fresh "a" in
  let Ha := fresh "Ha" in let Hin := fresh "Hin" in let E := fresh "E" in
  intros h0 a Ha Hin; destruct h0; simpl in *;
  first
    [ exact Hin
    | apply in_map_iff; exists a; split; [apply detached_plain; exact Ha | exact Hin]
    | apply in_or_app;
      match goal with
      | |- In a (filter (fun x => negb (HTMLAudioElement_eqb x ?el)) _) \/ _ =>
          destruct (HTMLAudioElement_eqb a el) eqn:E;
          [ right; left; symmetry; apply HTMLAudioElement_eqb_eq; exact E
          | left; apply filter_In; split; [exact Hin | rewrite E; reflexivity] ]
      end ].

(** Walks through a piece of [stopInference], leaving its last stretch to
    the lemma [Hreset]. *)
Ltac frame_stop Hrefl Htrans Hreset tac :=
  unfold stopInference, stopInference_fetch, stopInference_local,
    stopInference_disconnect;
  repeat first
    [ apply Hreset
    | apply (preserves_ret _ Hrefl)
    | apply (preserves_read _ Hrefl)
    | apply (preserves_emit _ Hrefl)
    | apply (preserves_bind _ Htrans); [|intros ?]
    | apply preserves_write; tac
    | match goal with
      | |- preserves _ (match ?x with _ => _ end) => destruct x
      end ].

Lemma step_keeps_plain_audio cfg plat e :
  preserves keeps_plain_audio (step cfg plat e).
Proof.
  destruct e; simpl step;
    try solve [ frame_with keeps_plain_audio_refl keeps_plain_audio_trans
                  keeps_plain_audio_write ];
    solve [ frame_stop keeps_plain_audio_refl keeps_plain_audio_trans
              stopInference_reset_keeps_plain_audio keeps_plain_audio_write ].
Qed.

(** X6.  The hook never removes an audio element that plays no media stream
    (one whose [srcObject] is null, such as a player of the page itself):
    whatever events arrive, stops included, such an element of the document
    is still in the document afterwards. *)
Theorem plain_audio_elements_survive cfg plat events h a :
  has_srcObject a = false ->
  In a (audioElements h) ->
  In a (audioElements (after (run cfg plat events h))).
Proof.
  intros Ha. revert h. induction events as [|e events IH]; intros h Hin.
  - exact Hin.
  - rewrite after_run_cons. apply IH.
    apply (step_keeps_plain_audio cfg plat e h a Ha Hin).
Qed.

(** *** The session and room references *)

Lemma same_refs_refl h : same_refs h h.
Proof. repeat split. Qed.

Lemma same_refs_trans h1 h2 h3 :
  same_refs h1 h2 -> same_refs h2 h3 -> same_refs h1 h3.
Proof. unfold same_refs; intros (?&?&?) (?&?&?); repeat split; congruence. Qed.

Lemma refs_paired_same h h' : same_refs h h' -> refs_paired h -> refs_paired h'.
Proof.
  unfold same_refs, refs_paired. intros (Hs & Hr & Hn) [Hp Hb].
  rewrite Hs, Hr, Hn. split; assumption.
Qed.

Lemma refs_paired_cleared h :
  sessionRef h = None -> roomRef h = None -> refs_paired h.
Proof.
  intros Hs Hr. unfold refs_paired. rewrite Hs, Hr. split.
  - split; reflexivity.
  - discriminate.
Qed.

Opaque stopInference_reset.

Lemma step_refs_paired cfg plat e h :
  refs_paired h -> refs_paired (after (step cfg plat e h)).
Proof.
  intros Hinv.
  assert (Hframe : forall e0,
            e0 <> call_stopInference ->
            (forall o, e0 <> settle_fetch o) ->
            (forall o, e0 <> settle_disconnect o) ->
            (forall s, e0 <> settle_createLiveKitSession (Resolved s)) ->
            same_refs h (after (step cfg plat e0 h))).
  { intros e0 H1 H2 H3 H4. clear Hinv. revert h.
    change (preserves same_refs (step cfg plat e0)).
    destruct e0 as [| |[s|]| | | | | | | | | | | | | |]; simpl step;
      try solve [ frame_with same_refs_refl same_refs_trans
                    ltac:(solve [intros []; repeat split]) ].
    - exfalso. eapply H4. reflexivity.
    - exfalso. apply H1. reflexivity.
    - exfalso. eapply H2. reflexivity.
    - exfalso. eapply H3. reflexivity. }
  destruct e as [| |[s|]| | | | | | |o|o| | | | | |];
    try (match goal with
         | |- context [step _ _ ?ev _] =>
             apply (refs_paired_same h); [|exact Hinv];
             apply (Hframe ev); intros; discriminate
         end).
  - destruct Hinv as [_ Hb]. destruct h; unfold refs_paired, after; simpl.
    split; [split; discriminate|].
    intros room H. injection H as H. subst room. lia.
  - simpl step.
    destruct (sessionRef h) as [s|] eqn:Es;
      [destruct (truthy (sessionId s)) eqn:?|];
      destruct (audioTrackRef h) as [t|] eqn:?;
      try (destruct (stop t) as [[]|] eqn:?);
      destruct (roomRef h) as [r|] eqn:Er;
      try (destruct Hinv as [[Ha Hb] _]; rewrite Es, Er in *;
           first [discriminate (Ha eq_refl) | discriminate (Hb eq_refl)]);
      destruct h; stop_compute;
      first [exact Hinv | apply refs_paired_cleared; reflexivity].
  - simpl step.
    destruct o as [[]|];
      destruct (audioTrackRef h) as [t|] eqn:?;
      try (destruct (stop t) as [[]|] eqn:?);
      destruct (sessionRef h) as [s|] eqn:Es;
      destruct (roomRef h) as [r|] eqn:Er;
      try (destruct Hinv as [[Ha Hb] _]; rewrite Es, Er in *;
           first [discriminate (Ha eq_refl) | discriminate (Hb eq_refl)]);
      destruct h; stop_compute;
      first [exact Hinv | apply refs_paired_cleared; reflexivity].
  - simpl step. destruct o as [[]|]; destruct h; stop_compute;
      first [exact Hinv | apply refs_paired_cleared; reflexivity].
Qed.

Transparent stopInference_reset.

(** X7.  The session reference and the room reference go together: if they
    are both null or both set (as in the initial hook) they are so after any
    events, and a room that is held is one the hook has built.  So in every
    reachable hook [stopInference] meets a descriptor exactly when it meets
    a room to disconnect. *)
Theorem session_and_room_go_together cfg plat events h :
  refs_paired h -> refs_paired (after (run cfg plat events h)).
Proof.
  revert h. induction events as [|e events IH]; intros h Hinv.
  - exact Hinv.
  - rewrite after_run_cons. apply IH. apply step_refs_paired. exact Hinv.
Qed.

(** ** Beyond the claims: the lifecycle *)

Lemma same_lifecycle_refl h : same_lifecycle h h.
Proof. reflexivity. Qed.

Lemma same_lifecycle_trans h1 h2 h3 :
  same_lifecycle h1 h2 -> same_lifecycle h2 h3 -> same_lifecycle h1 h3.
Proof. unfold same_lifecycle; congruence. Qed.

Opaque stopInference_reset.

(** X8.  The lifecycle state moves as follows and in no other way.  A start
    call whose render saw Idle gives Connecting when it has an agent id (and
    leaves the state alone otherwise); a rejected agent
    lookup, session creation or connect gives Error, from any state; the
    Connected event of a room gives Active and its Disconnected event Idle,
    from any state; [stopInference] gives Idle at the point where its cleanup
    reaches the final reset (not while it awaits the session-end request or
    the disconnect, and not when a step throws).  Everything else (resolved
    promises, the other room events, the microphone, the transcript, time,
    a render) leaves the state alone; in particular Error is left only through a stop
    or an event of a room. *)
Theorem lifecycle_moves cfg plat e h :
  inferenceState (after (step cfg plat e h)) = lifecycle_after cfg e h.
Proof.
  assert (Hframe : forall e0,
            match e0 with
            | settle_getAgent _ (Resolved _)
            | settle_createLiveKitSession (Resolved _)
            | settle_connect (Resolved _)
            | settle_setMicrophoneEnabled _ _
            | track_emits_muted _ | track_emits_unmuted _
            | call_toggleMic | settle_toggle _ _
            | call_saveTranscription _ | call_clearTranscription
            | time_passes _ | renders => True
            | room_emits _ _ Connected | room_emits _ _ Disconnected => False
            | room_emits _ _ _ => True
            | _ => False
            end ->
            inferenceState (after (step cfg plat e0 h)) = inferenceState h).
  { intros e0 Hkind. revert h. change (preserves same_lifecycle (step cfg plat e0)).
    destruct e0 as [|? [[]|]|[?|]|[[]|]|? ? []| | | | | | | | | | | |];
      try contradiction; simpl step;
      solve [ frame_with same_lifecycle_refl same_lifecycle_trans
                ltac:(solve [intros []; reflexivity]) ]. }
  destruct e as [target|? [[]|]|[?|]|[[]|]|? ? []| | | | |o|[[]|]| | | | | |];
    try (match goal with
         | |- context [step _ _ ?ev _] => rewrite (Hframe ev I)
         end; reflexivity);
    try (destruct h; reflexivity).
  - simpl step. unfold startInference, lifecycle_after.
    destruct (truthy _); simpl; [|reflexivity].
    unfold bind, read, after; simpl.
    destruct (rendered_inferenceState (lastRender h)) eqn:E;
      destruct h; simpl in *; reflexivity.
  - simpl step. unfold lifecycle_after, has_session_id, lifecycle_after_local,
      track_stop_fine.
    destruct (sessionRef h) as [s|] eqn:?;
      [destruct (truthy (sessionId s)) eqn:?|];
      destruct (audioTrackRef h) as [t|] eqn:?;
      try (destruct (stop t) as [[]|] eqn:?);
      destruct (roomRef h) as [r|] eqn:?;
      destruct h; stop_compute; reflexivity.
  - simpl step. unfold lifecycle_after, lifecycle_after_local, track_stop_fine.
    destruct o as [[]|];
      destruct (audioTrackRef h) as [t|] eqn:?;
      try (destruct (stop t) as [[]|] eqn:?);
      destruct (roomRef h) as [r|] eqn:?;
      destruct h; stop_compute; reflexivity.
  - simpl step. destruct h; stop_compute; reflexivity.
Qed.

(** X9.  [stopInference] releases what is held.  When the session reference
    holds a descriptor with an id, the call sends the session-end request for
    that id, with the bearer header unless the endpoint is public; when the
    room reference holds a room and the track stop does not fail, the call
    asks that room to disconnect, whether or not the session-end request
    succeeded. *)
Theorem stopInference_releases_what_is_held cfg env h :
  (forall s, sessionRef h = Some s -> truthy (sessionId s) = true ->
     In (fetch_session_end (sessionId s) (negb (publicEndpoint cfg)))
        (trace (stopInference_whole cfg env h)))
  /\ (forall room, roomRef h = Some room -> track_stop_fine h = true ->
       In (room_disconnect room) (trace (stopInference_whole cfg env h))).
Proof.
  unfold track_stop_fine. split.
  - intros s Hs Ht.
    destruct env as [f d];
      destruct (audioTrackRef h) as [t|] eqn:?;
      try (destruct (stop t) as [[]|] eqn:?);
      destruct (roomRef h) as [r|] eqn:?;
      destruct f as [[]|]; destruct d as [[]|];
      destruct h; stop_compute; left; reflexivity.
  - intros room Hr Hfine.
    stop_cases h env; try discriminate; destruct h; stop_compute;
      try discriminate; injection Hr as Hr; subst;
      repeat (first [left; reflexivity | right]).
Qed.

Transparent stopInference_reset.


(** X11.  A failed connect leaves the session behind.  For a call whose
    render saw Idle, with an agent id, when the lookup and the session
    creation resolve and the connect rejects, the call ends in Error with the
    loading flag down and the error shown, and the descriptor and the room
    stay in their references.  Once the hook has rendered in that state,
    every start call is refused. *)
Theorem failed_connect_keeps_the_session cfg target sessionData error h :
  rendered_inferenceState (lastRender h) = IDLE ->
  truthy (or_else target (agentId cfg)) = true ->
  let r := startInference_whole cfg target
             {| getAgent_settles := Resolved tt;
                createLiveKitSession_settles := Resolved sessionData;
                connect_settles := Rejected error |} h in
  (result r = Returns
   /\ inferenceState (after r) = ERROR /\ isLoading (after r) = false
   /\ sessionRef (after r) = Some sessionData
   /\ roomRef (after r) = Some (rooms h)
   /\ In (toast_error (shown error)) (trace r))
  /\ (forall again,
       let r' := startInference cfg again (render (after r)) in
       result r' = Returns /\ after r' = render (after r)
       /\ opens_nothing (trace r') = true).
Proof.
  intros Hidle Hid. cbv zeta.
  assert (Hr : let r := startInference_whole cfg target
             {| getAgent_settles := Resolved tt;
                createLiveKitSession_settles := Resolved sessionData;
                connect_settles := Rejected error |} h in
             result r = Returns
             /\ inferenceState (after r) = ERROR /\ isLoading (after r) = false
             /\ sessionRef (after r) = Some sessionData
             /\ roomRef (after r) = Some (rooms h)
             /\ In (toast_error (shown error)) (trace r)).
  { cbv zeta. unfold startInference_whole, startInference.
    unfold bind, read, write, emit, ret, result, after, trace,
      setIsLoading, setInferenceState; simpl.
    rewrite Hid; simpl. rewrite Hidle; simpl.
    unfold startInference_getAgent, bind, emit, ret; simpl.
    destruct (publicEndpoint cfg); destruct error; destruct h; simpl;
      repeat split; try reflexivity;
      repeat (first [left; reflexivity | right]). }
  split; [exact Hr|].
  intros again. cbv zeta. destruct Hr as (_ & Herr & _).
  rewrite startInference_refuses
    by (unfold render; simpl; rewrite Herr; discriminate).
  unfold result, after, trace; simpl.
  destruct (truthy (or_else again (agentId cfg))); repeat split; reflexivity.
Qed.

(** X12.  [startInference] goes ahead exactly when the render that built it
    saw Idle and there is an agent id (the argument when it is a non-empty
    string, the configured id otherwise).  With no id it only shows 'Agent ID
    is required', whatever the state; with an id, when the render saw another
    state than Idle, it only writes a line to the console; in both cases
    nothing is changed and nothing is issued.  What the state cell holds at
    the call does not count: a call that goes ahead writes Connecting to the
    cell and leaves the render as it was, so the same call made again before
    the next render goes ahead again, and after the next render it is
    refused. *)
Theorem startInference_goes_ahead_iff cfg target h :
  let effectiveAgentId := or_else target (agentId cfg) in
  let r := startInference cfg target h in
  (result r = Awaits (await_getAgent effectiveAgentId)
   <-> truthy effectiveAgentId = true
       /\ rendered_inferenceState (lastRender h) = IDLE)
  /\ (truthy effectiveAgentId = false ->
      r = (Returns, h, [toast_error "Agent ID is required"]))
  /\ (truthy effectiveAgentId = true ->
      rendered_inferenceState (lastRender h) <> IDLE ->
      r = (Returns, h, [console_log "Inference already active or connecting"]))
  /\ (result r = Awaits (await_getAgent effectiveAgentId) ->
      inferenceState (after r) = CONNECTING
      /\ result (startInference cfg target (after r))
         = Awaits (await_getAgent effectiveAgentId)
      /\ startInference cfg target (render (after r))
         = (Returns, render (after r),
            [console_log "Inference already active or connecting"])).
Proof.
  cbv zeta.
  assert (Hiff : result (startInference cfg target h)
                 = Awaits (await_getAgent (or_else target (agentId cfg)))
                 <-> truthy (or_else target (agentId cfg)) = true
                     /\ rendered_inferenceState (lastRender h) = IDLE).
  { split.
    + intros Hres. destruct (truthy (or_else target (agentId cfg))) eqn:Hid.
      * split; [reflexivity|].
        destruct (rendered_inferenceState (lastRender h)) eqn:E;
          try reflexivity; exfalso;
          rewrite startInference_refuses in Hres by (rewrite E; discriminate);
          discriminate Hres.
      * exfalso. unfold startInference in Hres. rewrite Hid in Hres.
        discriminate Hres.
    + intros [Hid Hidle]. rewrite (startInference_from_idle cfg target h Hidle Hid).
      reflexivity. }
  split; [exact Hiff|]. split; [|split].
  - intros Hid. unfold startInference. rewrite Hid. reflexivity.
  - intros Hid Hst. rewrite startInference_refuses by exact Hst.
    rewrite Hid. reflexivity.
  - intros Hres. apply Hiff in Hres. destruct Hres as [Hid Hidle].
    rewrite (startInference_from_idle cfg target h Hidle Hid).
    change (after (_, ?a, _)) with a.
    assert (Hsame : rendered_inferenceState
                      (lastRender (set_inferenceState CONNECTING
                                     (set_isLoading true h))) = IDLE)
      by (destruct h; exact Hidle).
    rewrite (startInference_from_idle cfg target _ Hsame Hid).
    rewrite startInference_refuses by (destruct h; discriminate).
    rewrite Hid. destruct h; repeat split; reflexivity.
Qed.

(** ** Beyond the claims: the microphone and the export *)

(** X13.  [toggleMic] never throws and never touches anything but the mic-on
    flag.  Without a room it only shows 'No active session' and issues
    nothing.  With a room it asks the transport for the opposite of the
    mic-on value its render saw; when that succeeds the flag is set to that
    opposite, when it fails the flag stays and the failure is shown.  Two
    successful toggles with a render in between bring the flag back, and the
    hook with it when the first render was up to date; without a render in
    between the second toggle repeats the first. *)
Theorem toggleMic_flips_or_leaves o h :
  let on := rendered_isMicOn (lastRender h) in
  let r := toggleMic_whole o h in
  result r = Returns
  /\ match roomRef h, o with
     | None, _ =>
         after r = h /\ trace r = [toast_error "No active session"]
     | Some room, Resolved _ =>
         after r = set_isMicOn (negb on) h
         /\ trace r = [setMicrophoneEnabled room (negb on);
                       console_log (if on then "Microphone muted"
                                    else "Microphone unmuted")]
     | Some room, Rejected _ =>
         after r = h
         /\ trace r = [setMicrophoneEnabled room (negb on);
                       console_error "Error toggling microphone:";
                       toast_error "Failed to toggle microphone"]
     end
  /\ (roomRef h <> None ->
      let once := after (toggleMic_whole (Resolved tt) h) in
      let twice := after (toggleMic_whole (Resolved tt) (render once)) in
      isMicOn twice = on
      /\ (isMicOn h = on -> render twice = render h)
      /\ after (toggleMic_whole (Resolved tt) once) = once).
Proof.
  cbv zeta. unfold toggleMic_whole, toggleMic, toggleMic_setMicrophoneEnabled.
  unfold bind, read, write, emit, ret, result, after, trace, setIsMicOn; simpl.
  destruct h as [st ld mic cn sp tr ts tg [room|] sr tk ic ae tm ck rm ml
                   [rst rmic rtr]];
    simpl; destruct o as [[]|]; destruct rmic; simpl.
  all: split; [reflexivity|]; split; [split; reflexivity|].
  all: intros H; try (contradiction H; reflexivity).
  all: split; [reflexivity|]; split; [intros ->; reflexivity | reflexivity].
Qed.

Lemma concat_lines_empty sep lines :
  (forall line, In line lines -> line <> "") ->
  (String.concat sep lines = "" <-> lines = []).
Proof.
  intros Hne. split.
  - destruct lines as [|x rest]; [reflexivity|]. intros H. exfalso.
    apply (Hne x); [left; reflexivity|].
    simpl in H. destruct rest; [exact H|].
    destruct x; [reflexivity | discriminate H].
  - intros ->. reflexivity.
Qed.

(** X14.  [saveTranscription] only reads: whether the download goes through
    or fails, the call returns without throwing and the hook is as it was.
    When it goes through, one file is downloaded, named after the first ten
    characters of the ISO date, and its content is empty exactly when the
    transcript its render saw has no final entry (an empty or
    all-provisional transcript still downloads a file); when it fails, nothing is downloaded and
    'Failed to save transcription' is shown. *)
Theorem saveTranscription_only_reads plat dom h :
  let r := saveTranscription plat dom h in
  result r = Returns /\ after r = h
  /\ match dom with
     | Resolved _ =>
         exists content,
           trace r
           = [download
                ("transcription_" ++ substring 0 10 (toISOString plat (clock h))
                   ++ ".txt")%string content;
              console_log "Transcription saved"]
           /\ (content = ""
               <-> filter isFinal (rendered_transcription (lastRender h)) = [])
     | Rejected _ =>
         trace r = [console_error "Error saving transcription:";
                    toast_error "Failed to save transcription"]
     end.
Proof.
  cbv zeta. destruct dom as [[]|]; repeat split; try reflexivity.
  exists (transcriptionText plat (rendered_transcription (lastRender h))).
  split; [reflexivity|].
  unfold transcriptionText.
  split.
  - intros H. apply concat_lines_empty in H.
    + destruct (filter isFinal (rendered_transcription (lastRender h)));
        [reflexivity | discriminate H].
    + intros line Hin. apply in_map_iff in Hin. destruct Hin as (entry & <- & _).
      unfold serialize. simpl. discriminate.
  - intros ->. reflexivity.
Qed.

Lemma set_mutedListeners_keeps x h :
  inferenceState (set_mutedListeners x h) = inferenceState h
  /\ isConnected (set_mutedListeners x h) = isConnected h
  /\ isLoading (set_mutedListeners x h) = isLoading h
  /\ isMicOn (set_mutedListeners x h) = isMicOn h.
Proof. destruct h; repeat split; reflexivity. Qed.

Lemma monitor_keeps_all_but_listeners publications : forall h,
  let h' :=
    after (forEach publications (fun publication =>
             match publication.(Publication.track) with
             | Some audioTrack =>
                 emit (console_log "Monitoring local audio track for speaking activity") ;;
                 write (fun h =>
                   set_mutedListeners (h.(mutedListeners) ++ [audioTrack.(track_sid)]) h) ;;
                 if audioTrack.(mediaStreamTrack)
                 then emit (console_log "Audio track active - monitoring for speech")
                 else ret tt
             | None => ret tt
             end) h) in
  set_mutedListeners (mutedListeners h) h' = h.
Proof.
  induction publications as [|publication publications IH]; intros h; cbv zeta.
  - destruct h; reflexivity.
  - rewrite after_forEach_cons.
    match goal with
    | |- context [forEach publications ?f (after ?m)] =>
        specialize (IH (after m)); cbv zeta in IH;
        set (h2 := after (forEach publications f (after m))) in *;
        set (h1 := after m) in *
    end.
    assert (H1 : set_mutedListeners (mutedListeners h) h1 = h).
    { subst h1. destruct (Publication.track publication) as [t|];
        [destruct (mediaStreamTrack t)|]; destruct h; reflexivity. }
    rewrite <- H1 at 2. rewrite <- IH.
    destruct h2; reflexivity.
Qed.

(** X15.  Once connected, a microphone that cannot be enabled is not fatal.
    The Connected event makes the hook Active, connected and not loading
    before the microphone is asked for; when the request then fails, the hook
    stays Active and connected, the mic-on flag keeps its value, 'Failed to
    enable microphone' is shown and nothing is thrown; when it succeeds the
    mic-on flag is set and only the list of mute listeners changes
    besides. *)
Theorem microphone_failure_is_not_fatal room o h :
  let r := onConnected_whole room o h in
  result r = Returns
  /\ inferenceState (after r) = ACTIVE
  /\ isConnected (after r) = true
  /\ isLoading (after r) = false
  /\ In (setMicrophoneEnabled room true) (trace r)
  /\ match o with
     | Resolved _ =>
         isMicOn (after r) = true
         /\ In (toast_success "Voice session started successfully") (trace r)
     | Rejected _ =>
         isMicOn (after r) = isMicOn h
         /\ In (toast_error "Failed to enable microphone") (trace r)
         /\ after r
            = set_isLoading false
                (set_inferenceState ACTIVE (set_isConnected true h))
     end.
Proof.
  cbv zeta. unfold onConnected_whole. rewrite !bind_unfold.
  assert (Hfirst : onConnected room h
                   = (Awaits (await_setMicrophoneEnabled room),
                      set_isLoading false
                        (set_inferenceState ACTIVE (set_isConnected true h)),
                      [console_log "Connected to unified LiveKit room";
                       setMicrophoneEnabled room true]))
    by (destruct h; reflexivity).
  rewrite Hfirst. unfold result at 1 2 3, after at 1 2 3 4 5 6, trace at 1 3; simpl.
  set (h1 := set_isLoading false
               (set_inferenceState ACTIVE (set_isConnected true h))).
  destruct o as [publications|error].
  - unfold onConnected_setMicrophoneEnabled. rewrite !bind_unfold.
    unfold result at 1, after at 1 2 3 4 5; simpl.
    match goal with
    | |- context [forEach publications ?f ?h2] =>
        pose proof (monitor_keeps_all_but_listeners publications h2) as Hloop;
        cbv zeta in Hloop;
        set (h3 := after (forEach publications f h2)) in *
    end.
    assert (Hfields : inferenceState h3 = ACTIVE /\ isConnected h3 = true
                      /\ isLoading h3 = false /\ isMicOn h3 = true).
    { match type of Hloop with
      | set_mutedListeners ?x _ = _ =>
          destruct (set_mutedListeners_keeps x h3) as (E1 & E2 & E3 & E4)
      end.
      rewrite <- E1, <- E2, <- E3, <- E4. rewrite Hloop.
      subst h1. destruct h; repeat split; reflexivity. }
    destruct Hfields as (H1 & H2 & H3 & H4).
    unfold after at 1 2 3 4, trace; simpl.
    repeat split; try assumption.
    + right; left; reflexivity.
    + do 3 right. apply in_or_app. right. left. reflexivity.
  - unfold onConnected_setMicrophoneEnabled.
    unfold bind, emit, ret, result, after, trace; simpl.
    subst h1. destruct h; simpl. repeat split; try reflexivity.
    + right; left; reflexivity.
    + do 3 right. left. reflexivity.
Qed.

(** ** Beyond the claims: the voice catalogue *)

Module VoiceContextFacts.
Import VoiceContext.

Lemma find_app A (p : A -> bool) l1 l2 :
  find p (l1 ++ l2) = match find p l1 with Some a => Some a | None => find p l2 end.
Proof.
  induction l1 as [|a l1 IH]; [reflexivity|]; simpl.
  destruct (p a); [reflexivity | exact IH].
Qed.

Lemma search_everything id v :
  search id [Voices.hume v; Voices.cartesia v; Voices.hamsa v; Voices.custom v]
  = find (has_id id) (everything v).
Proof.
  unfold everything. simpl. rewrite !find_app.
  destruct (find (has_id id) (Voices.hume v)); [reflexivity|].
  destruct (find (has_id id) (Voices.cartesia v)); [reflexivity|].
  destruct (find (has_id id) (Voices.hamsa v)); [reflexivity|].
  destruct (find (has_id id) (Voices.custom v)); reflexivity.
Qed.

Lemma find_has_id_none id l :
  find (has_id id) l = None
  <-> forall voice, In voice l -> VoiceOption.id voice <> id.
Proof.
  split.
  - intros H voice Hin Hid.
    pose proof (find_none _ _ H voice Hin) as Hno.
    unfold has_id in Hno. rewrite Hid, String.eqb_refl in Hno. discriminate.
  - intros H. induction l as [|a l IH]; [reflexivity|]; simpl.
    destruct (has_id id a) eqn:Ha.
    + exfalso. apply (H a); [left; reflexivity|].
      apply String.eqb_eq. exact Ha.
    + apply IH. intros voice Hin. apply H. right. exact Hin.
Qed.

(** X16.  Without a provider (or with the empty string for one),
    [getVoiceById] goes through the Hume, Cartesia, Hamsa and custom voices in
    that order and returns the first voice with the id: a voice it returns has
    that id and is one of the listed voices, an id that two providers share
    resolves to the earlier provider, and it returns nothing exactly when no
    listed voice has the id.  It never throws. *)
Theorem getVoiceById_takes_the_first inherited v id provider :
  provider = None \/ provider = Some "" ->
  getVoiceById inherited v id provider = returns (find (has_id id) (everything v))
  /\ (forall voice,
       getVoiceById inherited v id provider = returns (Some voice) ->
       VoiceOption.id voice = id /\ In voice (everything v))
  /\ (getVoiceById inherited v id provider = returns None
      <-> forall voice, In voice (everything v) -> VoiceOption.id voice <> id).
Proof.
  intros Hp.
  assert (Heq : getVoiceById inherited v id provider
                = returns (find (has_id id) (everything v))).
  { destruct Hp as [-> | ->]; simpl; rewrite <- search_everything; reflexivity. }
  split; [exact Heq|]. rewrite Heq. split.
  - intros voice H. injection H as H. apply find_some in H.
    destruct H as [Hin Hid]. split; [|exact Hin].
    apply String.eqb_eq. exact Hid.
  - split.
    + intros H. injection H as H. apply find_has_id_none. exact H.
    + intros H. f_equal. apply find_has_id_none. exact H.
Qed.

Lemma index_own_In inherited v provider l voice :
  index inherited v provider = own l -> In voice l -> In voice (everything v).
Proof.
  unfold index, everything. intros H Hin.
  destruct (provider =? "hume"); [injection H as <-; apply in_or_app; auto|].
  destruct (provider =? "cartesia");
    [injection H as <-; apply in_or_app; right; apply in_or_app; auto|].
  destruct (provider =? "hamsa");
    [injection H as <-; do 2 (apply in_or_app; right); apply in_or_app; auto|].
  destruct (provider =? "custom");
    [injection H as <-; do 3 (apply in_or_app; right); exact Hin|].
  destruct (inherited provider); discriminate H.
Qed.

(** X17.  With a provider, [getVoiceById] looks into the list of that
    provider only, and agrees with the search over all providers: a voice it
    returns has the id and is a listed voice, so the search without a
    provider finds a voice with that id too; and every voice that is listed
    under one of the four keys is found again under that key by its id (by
    the first voice of that list with the same id).  [findHamsaVoiceById] is
    the lookup under "hamsa". *)
Theorem getVoiceById_by_provider inherited v id provider l :
  truthy provider = true ->
  index inherited v provider = own l ->
  (forall voice,
     getVoiceById inherited v id (Some provider) = returns (Some voice) ->
     VoiceOption.id voice = id /\ In voice l
     /\ exists first,
          getVoiceById inherited v id None = returns (Some first)
          /\ VoiceOption.id first = id)
  /\ (forall voice, In voice l -> VoiceOption.id voice = id ->
       exists first,
         getVoiceById inherited v id (Some provider) = returns (Some first)
         /\ VoiceOption.id first = id)
  /\ getVoiceById inherited v id (Some "hamsa")
     = returns (findHamsaVoiceById v id).
Proof.
  intros Ht Hidx. unfold getVoiceById. rewrite Ht, Hidx. split; [|split].
  - intros voice H. injection H as H. apply find_some in H.
    destruct H as [Hin Hid]. apply String.eqb_eq in Hid.
    split; [exact Hid|]. split; [exact Hin|].
    rewrite search_everything.
    destruct (find (has_id id) (everything v)) as [first|] eqn:Hf.
    + exists first. split; [reflexivity|].
      apply find_some in Hf. apply String.eqb_eq. apply Hf.
    + exfalso. apply (proj1 (find_has_id_none id (everything v)) Hf voice).
      * eapply index_own_In; eassumption.
      * exact Hid.
  - intros voice Hin Hid.
    destruct (find (has_id id) l) as [first|] eqn:Hf.
    + exists first. split; [reflexivity|].
      apply find_some in Hf. apply String.eqb_eq. apply Hf.
    + exfalso. apply (proj1 (find_has_id_none id l) Hf voice Hin Hid).
  - reflexivity.
Qed.

(** X18.  Names that are no key of the catalogue.  For a provider name that
    is none of "hume", "cartesia", "hamsa" and "custom": [getVoiceById]
    returns nothing and [getVoicesByProvider] the empty list when the name
    means nothing to the runtime; when [Object.prototype] defines the name,
    [getVoiceById] throws a TypeError and [getVoicesByProvider] hands out
    what the prototype has, which is no list.  "voicecake" stands for the
    Hume voices in [getVoicesByProvider] only: the voices it lists under
    "voicecake" cannot be found by id under "voicecake". *)
Theorem unknown_provider_names inherited v id provider :
  index inherited v provider = missing \/ index inherited v provider = from_prototype ->
  truthy provider = true ->
  (inherited provider = false ->
     getVoiceById inherited v id (Some provider) = returns None
     /\ (provider <> "voicecake" -> getVoicesByProvider inherited v provider = own []))
  /\ (inherited provider = true ->
      getVoiceById inherited v id (Some provider) = throws_TypeError
      /\ (provider <> "voicecake" ->
          getVoicesByProvider inherited v provider = from_prototype))
  /\ getVoicesByProvider inherited v "voicecake" = own (Voices.hume v)
  /\ (inherited "voicecake" = false ->
      getVoiceById inherited v id (Some "voicecake") = returns None).
Proof.
  intros Hidx Ht.
  assert (Hcases : index inherited v provider
                   = if inherited provider then from_prototype else missing).
  { unfold index in *.
    destruct (provider =? "hume"); [destruct Hidx; discriminate|].
    destruct (provider =? "cartesia"); [destruct Hidx; discriminate|].
    destruct (provider =? "hamsa"); [destruct Hidx; discriminate|].
    destruct (provider =? "custom"); [destruct Hidx; discriminate|].
    reflexivity. }
  unfold getVoiceById, getVoicesByProvider. rewrite Ht, Hcases.
  split; [|split; [|split]].
  - intros Hi. rewrite Hi. split; [reflexivity|].
    intros Hv. apply String.eqb_neq in Hv. rewrite Hv. reflexivity.
  - intros Hi. rewrite Hi. split; [reflexivity|].
    intros Hv. apply String.eqb_neq in Hv. rewrite Hv. reflexivity.
  - reflexivity.
  - intros Hi. simpl. unfold index; simpl. rewrite Hi. reflexivity.
Qed.

(** X19.  What a refresh leaves behind.  Once the request of a refresh has
    settled the loading flag of that list is down, however it settled.  A
    fulfilled request replaces the list by the transformed response, in the
    order of the response, and leaves the error null; a rejection with a
    message keeps the voices that were there and records the message, or the
    stock message when it is missing or empty, so that the recorded error is
    never empty; a rejection with null or undefined keeps the voices,
    records no error and makes the refresh throw.  The other list, its flag
    and its error are not touched. *)
Theorem refresh_settles s :
  (forall o,
     let started := fst (refreshCustomVoices s) in
     let r := refreshCustomVoices_settled o started in
     let s' := fst (fst r) in
     Loading.custom (isLoading s') = false
     /\ Voices.hamsa (voices s') = Voices.hamsa (voices s)
     /\ Loading.hamsa (isLoading s') = Loading.hamsa (isLoading s)
     /\ Errors.hamsa (error s') = Errors.hamsa (error s)
     /\ match o with
        | fulfilled voiceClones =>
            Voices.custom (voices s') = map transformVoiceClone voiceClones
            /\ Errors.custom (error s') = None /\ snd r = false
        | rejected (with_message message) =>
            Voices.custom (voices s') = Voices.custom (voices s)
            /\ Errors.custom (error s')
               = Some (or_else message "Failed to fetch custom voices")
            /\ Errors.custom (error s') <> Some "" /\ snd r = false
        | rejected nullish =>
            Voices.custom (voices s') = Voices.custom (voices s)
            /\ Errors.custom (error s') = None /\ snd r = true
        end)
  /\ (forall o,
       let started := fst (refreshHamsaVoices s) in
       let r := refreshHamsaVoices_settled o started in
       let s' := fst (fst r) in
       Loading.hamsa (isLoading s') = false
       /\ Voices.custom (voices s') = Voices.custom (voices s)
       /\ Loading.custom (isLoading s') = Loading.custom (isLoading s)
       /\ Errors.custom (error s') = Errors.custom (error s)
       /\ match o with
          | fulfilled hamsaVoicesData =>
              Voices.hamsa (voices s') = map transformHamsaVoice hamsaVoicesData
              /\ Errors.hamsa (error s') = None /\ snd r = false
          | rejected (with_message message) =>
              Voices.hamsa (voices s') = Voices.hamsa (voices s)
              /\ Errors.hamsa (error s')
                 = Some (or_else message "Failed to fetch Hamsa voices")
              /\ Errors.hamsa (error s') <> Some "" /\ snd r = false
          | rejected nullish =>
              Voices.hamsa (voices s') = Voices.hamsa (voices s)
              /\ Errors.hamsa (error s') = None /\ snd r = true
          end).
Proof.
  split; intros [data|[message|]]; cbv zeta; simpl; repeat split;
    try reflexivity;
    destruct message as [m|]; simpl; try discriminate;
    destruct m; simpl; discriminate.
Qed.

Lemma catalogue_run_cons e events s : run (e :: events) s = run events (step e s).
Proof. reflexivity. Qed.

Lemma step_keeps_hamsa e s :
  about_hamsa e = false ->
  Voices.hamsa (voices (step e s)) = Voices.hamsa (voices s)
  /\ Loading.hamsa (isLoading (step e s)) = Loading.hamsa (isLoading s)
  /\ Errors.hamsa (error (step e s)) = Errors.hamsa (error s).
Proof.
  destruct e as [| | | |[?|[?|]]|[[? ?]|?]]; try discriminate;
    intros _; repeat split; reflexivity.
Qed.

Lemma step_hamsa_depends_on_hamsa e s1 s2 :
  Voices.hamsa (voices s1) = Voices.hamsa (voices s2) ->
  Loading.hamsa (isLoading s1) = Loading.hamsa (isLoading s2) ->
  Errors.hamsa (error s1) = Errors.hamsa (error s2) ->
  Voices.hamsa (voices (step e s1)) = Voices.hamsa (voices (step e s2))
  /\ Loading.hamsa (isLoading (step e s1)) = Loading.hamsa (isLoading (step e s2))
  /\ Errors.hamsa (error (step e s1)) = Errors.hamsa (error (step e s2)).
Proof.
  intros Hv Hl He.
  destruct e as [| |[?|[?|]]| |[?|[?|]]|[[? ?]|?]]; simpl; repeat split; assumption.
Qed.

(** X20.  The refreshes do not get in each other's way.  However the calls
    and settlements of the Hamsa refresh, of the custom refresh and of the
    static import interleave, the Hamsa voices, their loading flag and their
    error end up as if only the events of the Hamsa refresh had happened, in
    their order: no update is lost to an update of another list. *)
Theorem hamsa_voices_depend_on_hamsa_events events s :
  let s' := run events s in
  let alone := run (filter about_hamsa events) s in
  Voices.hamsa (voices s') = Voices.hamsa (voices alone)
  /\ Loading.hamsa (isLoading s') = Loading.hamsa (isLoading alone)
  /\ Errors.hamsa (error s') = Errors.hamsa (error alone).
Proof.
  cbv zeta.
  assert (Hgen : forall s1 s2,
            Voices.hamsa (voices s1) = Voices.hamsa (voices s2) ->
            Loading.hamsa (isLoading s1) = Loading.hamsa (isLoading s2) ->
            Errors.hamsa (error s1) = Errors.hamsa (error s2) ->
            Voices.hamsa (voices (run events s1))
            = Voices.hamsa (voices (run (filter about_hamsa events) s2))
            /\ Loading.hamsa (isLoading (run events s1))
               = Loading.hamsa (isLoading (run (filter about_hamsa events) s2))
            /\ Errors.hamsa (error (run events s1))
               = Errors.hamsa (error (run (filter about_hamsa events) s2))).
  { induction events as [|e events IH]; intros s1 s2 Hv Hl He.
    - repeat split; assumption.
    - simpl filter. rewrite catalogue_run_cons.
      destruct (about_hamsa e) eqn:Ha.
      + rewrite catalogue_run_cons.
        destruct (step_hamsa_depends_on_hamsa e s1 s2 Hv Hl He) as (A & B & C).
        apply IH; assumption.
      + destruct (step_keeps_hamsa e s1 Ha) as (A & B & C).
        apply IH; congruence. }
  apply Hgen; reflexivity.
Qed.

(** X21.  What a fetched clone looks like and where it is found.  After a
    custom refresh whose request is fulfilled, each clone of the response is
    found by its provider voice id under "custom" (as the first clone of the
    response with that id), as a voice of the category "Custom Clones" with
    a provider and a description that are not empty: "custom" and "Custom
    cloned voice" stand in for a provider or a description the backend left
    out or empty. *)
Theorem fetched_clones_are_found inherited voiceClones s clone :
  In clone voiceClones ->
  let s' := fst (fst (refreshCustomVoices_settled (fulfilled voiceClones)
                        (fst (refreshCustomVoices s)))) in
  exists first,
    In first voiceClones
    /\ VoiceCloneResponse.provider_voice_id first
       = VoiceCloneResponse.provider_voice_id clone
    /\ getVoiceById inherited (voices s')
         (VoiceCloneResponse.provider_voice_id clone) (Some "custom")
       = returns (Some (transformVoiceClone first))
    /\ VoiceOption.category (transformVoiceClone first) = Some "Custom Clones"
    /\ truthy (VoiceOption.provider (transformVoiceClone first)) = true
    /\ (exists d, VoiceOption.description (transformVoiceClone first) = Some d
                  /\ truthy d = true).
Proof.
  intros Hin. cbv zeta. simpl.
  unfold getVoiceById, index; simpl.
  assert (Hfind : exists first,
            In first voiceClones
            /\ VoiceCloneResponse.provider_voice_id first
               = VoiceCloneResponse.provider_voice_id clone
            /\ find (has_id (VoiceCloneResponse.provider_voice_id clone))
                 (map transformVoiceClone voiceClones)
               = Some (transformVoiceClone first)).
  { induction voiceClones as [|c rest IH]; [contradiction|]. simpl.
    unfold has_id at 1. simpl.
    destruct (VoiceCloneResponse.provider_voice_id c
              =? VoiceCloneResponse.provider_voice_id clone) eqn:E.
    - exists c. split; [left; reflexivity|]. split; [|reflexivity].
      apply String.eqb_eq. exact E.
    - destruct Hin as [-> | Hin].
      + rewrite String.eqb_refl in E. discriminate.
      + destruct (IH Hin) as (first & Hf & Hid & Hfind).
        exists first. split; [right; exact Hf|]. split; assumption. }
  destruct Hfind as (first & Hf & Hid & Hfind).
  exists first. rewrite Hfind. repeat split; try assumption.
  - unfold transformVoiceClone; simpl.
    destruct (VoiceCloneResponse.provider first) as [p|]; simpl; [|reflexivity].
    destruct (truthy p) eqn:Hp; [exact Hp | reflexivity].
  - unfold transformVoiceClone; simpl. eexists. split; [reflexivity|].
    destruct (VoiceCloneResponse.description first) as [d|]; simpl; [|reflexivity].
    destruct (truthy d) eqn:Hd; [exact Hd | reflexivity].
Qed.

End VoiceContextFacts.

(** ** Beyond the claims: the voice selector *)

Module VoiceSelectorFacts.
Import VoiceSelector.

Lemma filter_length_le A (p : A -> bool) l : List.length (filter p l) <= List.length l.
Proof.
  induction l as [|a l IH]; [reflexivity|]; simpl.
  destruct (p a); simpl; lia.
Qed.

(** X22.  The filters of the selector only narrow.  The voices shown are
    voices of the provider, in their original order, and never more than
    there are; with a category chosen (other than "all") each of them has
    exactly that category, so a voice without a category is never shown
    then; with a search term that is not blank each of them matches the
    lower-cased term in its name, description or category; and with no
    category chosen and a blank search term all the voices are shown. *)
Theorem filteredVoices_only_narrows toLowerCase trim all selectedCategory searchTerm :
  let filtered := filteredVoices toLowerCase trim all selectedCategory searchTerm in
  (exists keep, filtered = filter keep all)
  /\ List.length filtered <= List.length all
  /\ (forall voice, In voice filtered ->
        In voice all
        /\ (truthy selectedCategory = true -> selectedCategory <> "all" ->
            VoiceOption.category voice = Some selectedCategory)
        /\ (truthy (trim searchTerm) = true ->
            matches toLowerCase (toLowerCase searchTerm) voice = true))
  /\ (selectedCategory = "" \/ selectedCategory = "all" ->
      truthy (trim searchTerm) = false -> filtered = all).
Proof.
  cbv zeta. unfold filteredVoices.
  set (narrow := truthy selectedCategory && negb (selectedCategory =? "all")).
  set (search := truthy (trim searchTerm)).
  assert (Hkeep : (if search
                   then filter (matches toLowerCase (toLowerCase searchTerm))
                          (if narrow then filter (in_category selectedCategory) all
                           else all)
                   else if narrow then filter (in_category selectedCategory) all
                        else all)
                  = filter (fun voice =>
                              (if narrow then in_category selectedCategory voice
                               else true)
                              && (if search
                                  then matches toLowerCase (toLowerCase searchTerm) voice
                                  else true)) all).
  { destruct search, narrow; rewrite ?filter_filter;
      try (apply filter_ext; intros voice; rewrite ?andb_true_r; reflexivity).
    symmetry. apply forallb_filter_id. apply forallb_forall. reflexivity. }
  rewrite Hkeep. split; [eexists; reflexivity|].
  split; [apply filter_length_le|]. split.
  - intros voice Hin. apply filter_In in Hin. destruct Hin as [Hin Hok].
    apply andb_true_iff in Hok. destruct Hok as [Hcat Hsearch].
    split; [exact Hin|]. split.
    + intros Ht Hall. apply String.eqb_neq in Hall.
      subst narrow. rewrite Ht, Hall in Hcat. simpl in Hcat.
      unfold in_category in Hcat.
      destruct (VoiceOption.category voice) as [c|]; [|discriminate].
      apply String.eqb_eq in Hcat. subst c. reflexivity.
    + intros Hs. subst search. rewrite Hs in Hsearch. exact Hsearch.
  - intros Hcat Hs. subst search narrow. rewrite Hs.
    destruct Hcat as [-> | ->]; simpl;
      apply forallb_filter_id; apply forallb_forall; reflexivity.
Qed.

Lemma truthy_ones_In c l :
  In c (truthy_ones l) <-> c <> "" /\ In (Some c) l.
Proof.
  induction l as [|[s|] l IH]; simpl.
  - tauto.
  - destruct (truthy s) eqn:Hs; simpl; rewrite IH; split.
    + intros [-> | [Hc Hin]].
      * split; [|left; reflexivity].
        intros ->. discriminate Hs.
      * split; [exact Hc | right; exact Hin].
    + intros [Hc [H | Hin]].
      * injection H as ->. left; reflexivity.
      * right. split; assumption.
    + intros [Hc Hin]. split; [exact Hc | right; exact Hin].
    + intros [Hc [H | Hin]].
      * injection H as ->. exfalso.
        unfold truthy in Hs. apply negb_false_iff in Hs.
        apply String.eqb_eq in Hs. contradiction.
      * split; assumption.
  - rewrite IH. split.
    + intros [Hc Hin]. split; [exact Hc | right; exact Hin].
    + intros [Hc [H | Hin]]; [discriminate H | split; assumption].
Qed.

Lemma distinct_In c l : In c (distinct l) <-> In c l.
Proof.
  induction l as [|x l IH]; simpl; [tauto|].
  rewrite filter_In, IH. split.
  - intros [-> | [Hin _]]; [left; reflexivity | right; exact Hin].
  - intros [-> | Hin]; [left; reflexivity|].
    destruct (String.eqb_spec c x) as [-> | Hne]; [left; reflexivity|].
    right. split; [exact Hin | reflexivity].
Qed.

Lemma distinct_NoDup l : NoDup (distinct l).
Proof.
  induction l as [|x l IH]; simpl; constructor.
  - intros Hin. apply filter_In in Hin. destruct Hin as [_ Hne].
    rewrite String.eqb_refl in Hne. discriminate.
  - apply NoDup_filter. exact IH.
Qed.

(** X23.  Every category the selector offers is worth choosing.  The
    categories are listed without repetition; a name is listed exactly when
    it is not empty and is the category of some voice of the provider; and
    choosing a listed category, with a blank search term, shows at least one
    voice. *)
Theorem categories_are_worth_choosing toLowerCase trim all :
  NoDup (categories all)
  /\ (forall c, In c (categories all)
                <-> c <> "" /\ exists voice,
                      In voice all /\ VoiceOption.category voice = Some c)
  /\ (forall c searchTerm,
        In c (categories all) -> truthy (trim searchTerm) = false ->
        filteredVoices toLowerCase trim all c searchTerm <> []).
Proof.
  assert (Hin : forall c, In c (categories all)
                <-> c <> "" /\ exists voice,
                      In voice all /\ VoiceOption.category voice = Some c).
  { intros c. unfold categories. rewrite distinct_In, truthy_ones_In, in_map_iff.
    split; intros [Hc (voice & H1 & H2)]; (split; [exact Hc|]);
      exists voice; split; assumption. }
  split; [apply distinct_NoDup|]. split; [exact Hin|].
  intros c searchTerm Hc Hblank. apply Hin in Hc.
  destruct Hc as [Hne (voice & Hvoice & Hcat)].
  unfold filteredVoices. rewrite Hblank.
  assert (Ht : truthy c = true).
  { unfold truthy. apply negb_true_iff. apply String.eqb_neq. exact Hne. }
  rewrite Ht. simpl.
  destruct (c =? "all"); simpl.
  - intros Hall. rewrite Hall in Hvoice. exact Hvoice.
  - intros Hnone.
    assert (H : In voice (filter (in_category c) all)).
    { apply filter_In. split; [exact Hvoice|].
      unfold in_category. rewrite Hcat. apply String.eqb_refl. }
    rewrite Hnone in H. exact H.
Qed.

(** *** Grouping *)

Lemma push_keys category voice grouped :
  map fst (push category voice grouped) = map fst grouped.
Proof.
  induction grouped as [|[key voices] rest IH]; [reflexivity|]; simpl.
  destruct (key =? category); simpl; [reflexivity | rewrite IH; reflexivity].
Qed.

Lemma group_push category voice grouped c :
  group c (push category voice grouped)
  = if (c =? category) && has_key category grouped
    then group c grouped ++ [voice] else group c grouped.
Proof.
  unfold group, has_key.
  induction grouped as [|[key voices] rest IH]; simpl.
  - rewrite andb_false_r. reflexivity.
  - destruct (key =? category) eqn:E1; simpl.
    + destruct (key =? c) eqn:E3; simpl.
      * apply String.eqb_eq in E1, E3. subst.
        rewrite String.eqb_refl. reflexivity.
      * destruct (c =? category) eqn:E2; simpl; [|reflexivity].
        apply String.eqb_eq in E1, E2. subst.
        rewrite String.eqb_refl in E3. discriminate.
    + destruct (key =? c) eqn:E3; simpl.
      * destruct (c =? category) eqn:E2; simpl; [|reflexivity].
        apply String.eqb_eq in E3, E2. subst.
        rewrite String.eqb_refl in E1. discriminate.
      * exact IH.
Qed.

Lemma group_absent c grouped : has_key c grouped = false -> group c grouped = [].
Proof.
  unfold group, has_key. intros H.
  destruct (find _ grouped) as [[key voices]|] eqn:Hf; [|reflexivity].
  apply find_some in Hf. destruct Hf as [Hin Hk]. simpl in Hk.
  assert (Hex : existsb (fun entry => fst entry =? c) grouped = true).
  { apply existsb_exists. exists (key, voices). split; assumption. }
  rewrite Hex in H. discriminate.
Qed.

Lemma group_snoc c category grouped :
  group c (grouped ++ [(category, [])]) = group c grouped.
Proof.
  unfold group. induction grouped as [|[key voices] rest IH]; simpl.
  - destruct (category =? c); reflexivity.
  - destruct (key =? c); [reflexivity | exact IH].
Qed.

Lemma has_key_snoc category grouped :
  has_key category (grouped ++ [(category, [])]) = true.
Proof.
  unfold has_key. rewrite existsb_app. simpl. rewrite String.eqb_refl.
  rewrite orb_true_r. reflexivity.
Qed.

Lemma has_key_In category grouped :
  has_key category grouped = true <-> In category (map fst grouped).
Proof.
  unfold has_key. rewrite existsb_exists, in_map_iff. split.
  - intros ([key voices] & Hin & Hk). simpl in Hk. apply String.eqb_eq in Hk.
    subst. exists (category, voices). split; [reflexivity | exact Hin].
  - intros ([key voices] & Hk & Hin). simpl in Hk. subst.
    exists (category, voices). split; [exact Hin | apply String.eqb_refl].
Qed.

Lemma group_step_well inherited seen grouped voice :
  grouped_well inherited seen grouped ->
  inherited (group_of voice) = false ->
  exists grouped',
    group_step inherited grouped voice = Some grouped'
    /\ grouped_well inherited (seen ++ [voice]) grouped'.
Proof.
  intros (Hnodup & Hkeys & Hgroup & Hfull) Hvoice.
  unfold group_step. cbv zeta.
  assert (Hfilter : forall c g,
            (forall c', group c' g = filter (fun v => group_of v =? c') seen) ->
            has_key (group_of voice) g = true ->
            group c (push (group_of voice) voice g)
            = filter (fun v => group_of v =? c) (seen ++ [voice])).
  { intros c g Hg Hk. rewrite group_push, Hk, andb_true_r, filter_app, Hg. simpl.
    destruct (String.eqb_spec c (group_of voice)) as [-> | Hc].
    - rewrite String.eqb_refl. reflexivity.
    - destruct (String.eqb_spec (group_of voice) c) as [E | _];
        [contradiction Hc; symmetry; exact E | rewrite app_nil_r; reflexivity]. }
  destruct (has_key (group_of voice) grouped) eqn:Hk.
  - eexists. split; [reflexivity|]. repeat split.
    + rewrite push_keys. exact Hnodup.
    + rewrite push_keys. exact Hkeys.
    + intros c. apply Hfilter; assumption.
    + rewrite push_keys. intros key Hin. rewrite group_push, Hk, andb_true_r.
      destruct (key =? group_of voice).
      * intros H. apply app_eq_nil in H. destruct H as [_ H]. discriminate.
      * apply Hfull. exact Hin.
  - rewrite Hvoice. eexists. split; [reflexivity|].
    assert (Hk' : has_key (group_of voice) (grouped ++ [(group_of voice, [])]) = true)
      by apply has_key_snoc.
    assert (Hg' : forall c', group c' (grouped ++ [(group_of voice, [])])
                             = filter (fun v => group_of v =? c') seen)
      by (intros c'; rewrite group_snoc; apply Hgroup).
    repeat split.
    + rewrite push_keys, map_app. simpl.
      apply NoDup_app_remove_l with (l := []). simpl.
      assert (Hn : NoDup (group_of voice :: rev (map fst grouped))).
      { constructor; [|apply NoDup_rev; exact Hnodup].
        intros Hin. apply in_rev in Hin. apply has_key_In in Hin.
        rewrite Hin in Hk. discriminate. }
      apply NoDup_rev in Hn. simpl in Hn. rewrite rev_involutive in Hn. exact Hn.
    + rewrite push_keys, map_app. simpl. intros key Hin.
      apply in_app_or in Hin. destruct Hin as [Hin | [<- | []]];
        [apply Hkeys; exact Hin | exact Hvoice].
    + intros c. apply Hfilter; assumption.
    + rewrite push_keys, map_app. simpl. intros key Hin.
      rewrite group_push, Hk', andb_true_r.
      destruct (String.eqb_spec key (group_of voice)) as [-> | Hne].
      * intros H. apply app_eq_nil in H. destruct H as [_ H]. discriminate.
      * rewrite group_snoc. apply Hfull.
        apply in_app_or in Hin. destruct Hin as [Hin | [E | []]];
          [exact Hin | contradiction Hne; symmetry; exact E].
Qed.

Lemma group_from_well inherited voices : forall seen grouped,
  grouped_well inherited seen grouped ->
  (forall voice, In voice voices -> inherited (group_of voice) = false) ->
  exists grouped',
    group_from inherited grouped voices = Some grouped'
    /\ grouped_well inherited (seen ++ voices) grouped'.
Proof.
  induction voices as [|voice voices IH]; intros seen grouped Hwell Hok.
  - exists grouped. rewrite app_nil_r. split; [reflexivity | exact Hwell].
  - destruct (group_step_well inherited seen grouped voice Hwell
                (Hok voice (or_introl eq_refl))) as (g1 & Hstep & Hwell1).
    simpl. rewrite Hstep.
    destruct (IH (seen ++ [voice]) g1 Hwell1
                (fun v Hv => Hok v (or_intror Hv))) as (g2 & Hfrom & Hwell2).
    exists g2. split; [exact Hfrom|].
    rewrite <- app_assoc in Hwell2. exact Hwell2.
Qed.

Lemma group_from_throws inherited voices : forall grouped,
  (forall key, In key (map fst grouped) -> inherited key = false) ->
  (exists voice, In voice voices /\ inherited (group_of voice) = true) ->
  group_from inherited grouped voices = None.
Proof.
  induction voices as [|voice voices IH]; intros grouped Hkeys (bad & Hin & Hbad).
  - contradiction.
  - simpl. unfold group_step. cbv zeta.
    destruct (has_key (group_of voice) grouped) eqn:Hk.
    + assert (Hv : inherited (group_of voice) = false)
        by (apply Hkeys; apply has_key_In; exact Hk).
      apply IH.
      * rewrite push_keys. exact Hkeys.
      * destruct Hin as [-> | Hin]; [congruence|]. exists bad. split; assumption.
    + destruct (inherited (group_of voice)) eqn:Hv; [reflexivity|].
      apply IH.
      * rewrite push_keys, map_app. simpl. intros key Hkey.
        apply in_app_or in Hkey. destruct Hkey as [Hkey | [<- | []]];
          [apply Hkeys; exact Hkey | exact Hv].
      * destruct Hin as [-> | Hin]; [congruence|]. exists bad. split; assumption.
Qed.

(** X24.  The groups of the selector split the voices shown.  When no voice
    shown has a category that is a name of [Object.prototype], the grouping
    succeeds: its keys are distinct, the group under a key holds exactly the
    voices shown whose category is that key, in their order, with the voices
    without a category under "Uncategorized"; no group is empty; and there is
    no group at all, so that 'No voices found' is displayed, exactly when no
    voice is shown.  When some voice shown has such a category (say
    "constructor"), the grouping throws. *)
Theorem groupedVoices_splits_the_voices inherited filtered :
  ((forall voice, In voice filtered -> inherited (group_of voice) = false) ->
   exists grouped,
     groupedVoices inherited filtered = Some grouped
     /\ NoDup (map fst grouped)
     /\ (forall c, group c grouped
                   = filter (fun voice => group_of voice =? c) filtered)
     /\ (forall key, In key (map fst grouped) -> group key grouped <> [])
     /\ (grouped = [] <-> filtered = []))
  /\ ((exists voice, In voice filtered /\ inherited (group_of voice) = true) ->
      groupedVoices inherited filtered = None).
Proof.
  split.
  - intros Hok.
    assert (Hempty : grouped_well inherited [] []).
    { repeat split; try constructor; intros key []. }
    destruct (group_from_well inherited filtered [] [] Hempty Hok)
      as (grouped & Hfrom & Hnodup & Hkeys & Hgroup & Hfull).
    simpl in *. exists grouped. split; [exact Hfrom|].
    split; [exact Hnodup|]. split; [exact Hgroup|]. split; [exact Hfull|].
    split.
    + intros ->. destruct filtered as [|voice rest]; [reflexivity|].
      specialize (Hgroup (group_of voice)). simpl in Hgroup.
      rewrite String.eqb_refl in Hgroup. discriminate Hgroup.
    + intros ->. destruct grouped as [|[key voices] rest]; [reflexivity|].
      exfalso. apply (Hfull key); [left; reflexivity|]. apply Hgroup.
  - intros Hbad. apply group_from_throws; [intros key []|exact Hbad].
Qed.

(** *** The order of the groups *)











Example array_indices :
  map array_index ["0"; "7"; "2024"; "007"; ""; "-1"; "1.5"; "Hamsa"; "4294967294"; "4294967295"]
  = [Some 0%N; Some 7%N; Some 2024%N; None; None; None; None; None; Some 4294967294%N; None].
Proof. vm_compute. reflexivity. Qed.

Example entries_order :
  map fst (Object_entries [("Narration", []); ("10", []); ("Uncategorized", []); ("2", [])])
  = ["2"; "10"; "Narration"; "Uncategorized"].
Proof. vm_compute. reflexivity. Qed.

End VoiceSelectorFacts.

(** ** The further theorems at work *)

Lemma entry_ids_stay_unique_witness :
  ids_below (transcriptionIdCounter initial) (transcription initial)
  /\ NoDup (map id (transcription
                      (after (run Scenario.config Scenario.browser
                                [room_emits 0 "local"
                                   (TranscriptionReceived
                                      [Scenario.said "one" true;
                                       Scenario.said "two" true]
                                      (Some Scenario.me) None);
                                 call_clearTranscription;
                                 room_emits 0 "local"
                                   (TranscriptionReceived
                                      [Scenario.said "three" true]
                                      (Some Scenario.bot) None)]
                                initial)))).
Proof.
  assert (H : ids_below (transcriptionIdCounter initial) (transcription initial)).
  { exists []. repeat split; constructor. }
  split; [exact H|].
  exact (proj2 (entry_ids_stay_unique Scenario.config Scenario.browser _ initial H)).
Defined.

Lemma audio_track_is_never_held_witness :
  audioTrackRef initial = None
  /\ audioTrackRef
       (after (run Scenario.config Scenario.browser
                 (Scenario.connecting ++ [call_stopInference]) initial))
     = None.
Proof.
  split; [reflexivity|].
  exact (proj1 (audio_track_is_never_held Scenario.config Scenario.browser
                  (Scenario.connecting ++ [call_stopInference]) initial eq_refl)).
Defined.

Lemma plain_audio_elements_survive_witness :
  has_srcObject Catalogue.jingle = false
  /\ In Catalogue.jingle (audioElements (set_audioElements [Catalogue.jingle] initial))
  /\ In Catalogue.jingle
       (audioElements
          (after (run Scenario.config Scenario.browser
                    [room_emits 0 "local" (TrackSubscribed Scenario.voice);
                     call_stopInference]
                    (set_audioElements [Catalogue.jingle] initial)))).
Proof.
  split; [reflexivity|].
  assert (H : In Catalogue.jingle
                (audioElements (set_audioElements [Catalogue.jingle] initial)))
    by (left; reflexivity).
  split; [exact H|].
  exact (plain_audio_elements_survive Scenario.config Scenario.browser _ _
           Catalogue.jingle eq_refl H).
Defined.

Lemma session_and_room_go_together_witness :
  refs_paired initial
  /\ refs_paired (after (run Scenario.config Scenario.browser
                           Scenario.connecting initial)).
Proof.
  assert (H : refs_paired initial).
  { split; [split; reflexivity | discriminate]. }
  split; [exact H|].
  exact (session_and_room_go_together Scenario.config Scenario.browser
           Scenario.connecting initial H).
Defined.


Lemma failed_connect_keeps_the_session_witness :
  rendered_inferenceState (lastRender initial) = IDLE
  /\ truthy (or_else (Some "agent-42") (agentId Scenario.config)) = true
  /\ sessionRef
       (after (startInference_whole Scenario.config (Some "agent-42")
                 {| getAgent_settles := Resolved tt;
                    createLiveKitSession_settles := Resolved Scenario.s1;
                    connect_settles := Rejected (JsError "could not connect") |}
                 initial))
     = Some Scenario.s1.
Proof.
  split; [reflexivity|]. split; [reflexivity|].
  exact (proj1 (proj2 (proj2 (proj2 (proj1
    (failed_connect_keeps_the_session Scenario.config (Some "agent-42")
       Scenario.s1 (JsError "could not connect") initial eq_refl eq_refl)))))).
Defined.

Lemma getVoiceById_takes_the_first_witness :
  (@None string = None \/ @None string = Some "")
  /\ VoiceContext.getVoiceById Catalogue.inherited Catalogue.voices "salma" None
     = VoiceContext.returns (Some Catalogue.salma).
Proof.
  assert (H : @None string = None \/ @None string = Some "") by (left; reflexivity).
  split; [exact H|].
  exact (proj1 (VoiceContextFacts.getVoiceById_takes_the_first
                  Catalogue.inherited Catalogue.voices "salma" None H)).
Defined.

Lemma getVoiceById_by_provider_witness :
  truthy "hamsa" = true
  /\ VoiceContext.index Catalogue.inherited Catalogue.voices "hamsa"
     = VoiceContext.own [Catalogue.salma]
  /\ VoiceContext.getVoiceById Catalogue.inherited Catalogue.voices "salma"
       (Some "hamsa")
     = VoiceContext.returns
         (VoiceContext.findHamsaVoiceById Catalogue.voices "salma").
Proof.
  split; [reflexivity|]. split; [reflexivity|].
  exact (proj2 (proj2 (VoiceContextFacts.getVoiceById_by_provider
                         Catalogue.inherited Catalogue.voices "salma" "hamsa"
                         [Catalogue.salma] eq_refl eq_refl))).
Defined.

Lemma unknown_provider_names_witness :
  (VoiceContext.index Catalogue.inherited Catalogue.voices "constructor"
   = VoiceContext.missing
   \/ VoiceContext.index Catalogue.inherited Catalogue.voices "constructor"
      = VoiceContext.from_prototype)
  /\ truthy "constructor" = true
  /\ VoiceContext.getVoicesByProvider Catalogue.inherited Catalogue.voices "voicecake"
     = VoiceContext.own [Catalogue.ito].
Proof.
  assert (H : VoiceContext.index Catalogue.inherited Catalogue.voices "constructor"
              = VoiceContext.missing
              \/ VoiceContext.index Catalogue.inherited Catalogue.voices "constructor"
                 = VoiceContext.from_prototype) by (right; reflexivity).
  split; [exact H|]. split; [reflexivity|].
  exact (proj1 (proj2 (proj2
    (VoiceContextFacts.unknown_provider_names Catalogue.inherited Catalogue.voices
       "ito" "constructor" H eq_refl)))).
Defined.

Lemma fetched_clones_are_found_witness :
  In Catalogue.clone [Catalogue.clone]
  /\ exists first,
       In first [Catalogue.clone]
       /\ VoiceCloneResponse.provider_voice_id first = "vc_1"
       /\ VoiceContext.getVoiceById Catalogue.inherited
            (VoiceContext.voices
               (fst (fst (VoiceContext.refreshCustomVoices_settled
                            (VoiceContext.fulfilled [Catalogue.clone])
                            (fst (VoiceContext.refreshCustomVoices
                                    VoiceContext.initial))))))
            "vc_1" (Some "custom")
          = VoiceContext.returns (Some (VoiceContext.transformVoiceClone first)).
Proof.
  assert (H : In Catalogue.clone [Catalogue.clone]) by (left; reflexivity).
  split; [exact H|].
  destruct (VoiceContextFacts.fetched_clones_are_found Catalogue.inherited
              [Catalogue.clone] VoiceContext.initial Catalogue.clone H)
    as (first & H1 & H2 & H3 & _).
  exists first. split; [exact H1|]. split; [exact H2 | exact H3].
Defined.
